(** * MND-backend: route planning over a small multi-modal transit network

    A shallow embedding of the planning core of the repository:
    - [src/core/types.ts]: the data model and the time helpers,
    - [src/core/graph.ts]: the graph singleton and its Dijkstra search,
    - [src/infra/distanceMatrixClient.ts]: the cached, quota-governed client,
    - [src/core/planner.ts]: the route planner,
    - [src/api/validation.ts], [src/api/routesController.ts] and the route
      table of [src/server.ts]: the endpoint [GET /api/routes].

    JavaScript numbers are modelled as [Z] (all quantities the planner
    handles are integers far below 2^53, where double arithmetic is exact);
    the one non-integer value the code manipulates, [Infinity], is an
    explicit constructor of [number]. *)

From Stdlib Require Import ZArith QArith String Ascii List Lia.
From stdpp Require Import base option list strings gmap pretty.

Open Scope string_scope.
Open Scope list_scope.
Open Scope Z_scope.

(* ===================================================================== *)
(** * Data model (types.ts) *)
(* ===================================================================== *)

Inductive Mode := bus | local | walk.
Inductive NodeType := stop | intersection | destination.
Inductive Direction := to_campus | from_campus.
Inductive TravelMode := driving | walking.
Inductive Source := graph_source | distance_matrix.
Inductive Category := fastest | least_local | both.
Inductive OptionType := direct | transfer | local_only.

#[global] Instance Mode_eq_dec : EqDecision Mode.
Proof. solve_decision. Defined.

(** A JavaScript number that is either an integer or [Infinity]. *)
Inductive number := Num (z : Z) | Infinity.

(** [a < b] on numbers. *)
Definition num_lt (a b : number) : bool :=
  match a, b with
  | Num x, Num y => x <? y
  | Num _, Infinity => true
  | Infinity, _ => false
  end.

(** [a + b] on numbers. *)
Definition num_add (a b : number) : number :=
  match a, b with
  | Num x, Num y => Num (x + y)
  | _, _ => Infinity
  end.

Record Node := {
  node_id : string;
  node_name : string;
  node_type : NodeType;
  gmaps_address : string
}.

Record Edge := {
  edge_from : string;
  edge_to : string;
  edge_mode : Mode;
  edge_route_ids : option (list string);
  edge_time_min : Z;
  edge_cost : Z;
  one_way : bool
}.

Record Trip := {
  trip_id : string;
  direction : Direction;
  stops : list string;
  departure_time : string
}.

Record Route := {
  route_id : string;
  route_name : string;
  trips : list Trip
}.

Record GraphData := {
  gd_nodes : list Node;
  gd_edges : list Edge;
  gd_routes : list Route
}.

Record EdgeInfo := {
  ei_to : string;
  ei_mode : Mode;
  ei_route_ids : option (list string);
  ei_time_min : Z;
  ei_cost : Z
}.

Record PathResult := {
  found : bool;
  path : list string;
  totalTime : number;
  totalCost : Z;
  pr_edges : list EdgeInfo
}.

Record RouteLeg := {
  leg_mode : Mode;
  leg_submode : option TravelMode;
  leg_route_id : option string;
  leg_trip_id : option string;
  leg_from : string;
  leg_to : string;
  leg_departure : option string;
  leg_arrival : option string;
  leg_durationMin : option number;
  leg_distanceMeters : option Z;
  leg_cost : option Z;
  leg_source : option Source
}.

Record RouteOption := {
  label : string;
  category : Category;
  option_type : OptionType;
  transfers : Z;
  totalTimeMin : number;
  opt_totalCost : Z;
  localTimeMin : number;
  localDistanceMeters : Z;
  usesDistanceMatrix : bool;
  legs : list RouteLeg
}.

Record RouteResponse := {
  resp_from : string;
  resp_to : string;
  resp_requestTime : string;
  options : list RouteOption
}.

Record CacheEntry := {
  ce_distanceMeters : Z;
  ce_durationSeconds : Z;
  timestamp : Z
}.

Record UsageStats := {
  monthlyCount : Z;
  dailyCount : Z;
  lastReset : string;
  cacheHits : Z;
  cacheMisses : Z
}.

Record TimeOfDay := { hours : Z; minutes : Z }.

(* ===================================================================== *)
(** * Time helpers (types.ts) *)
(* ===================================================================== *)

(** [s.split(sep)] for a one-character separator. *)
Fixpoint split (sep : ascii) (s : string) : list string :=
  match s with
  | EmptyString => [EmptyString]
  | String c s' =>
      if Ascii.eqb c sep then EmptyString :: split sep s'
      else match split sep s' with
           | h :: t => String c h :: t
           | [] => [String c EmptyString]
           end
  end.

Definition digit_of (c : ascii) : option Z :=
  let n := Z.of_nat (nat_of_ascii c) in
  if (48 <=? n) && (n <=? 57) then Some (n - 48) else None.

Fixpoint Number_go (acc : Z) (s : string) : option Z :=
  match s with
  | EmptyString => Some acc
  | String c s' =>
      match digit_of c with
      | Some d => Number_go (10 * acc + d) s'
      | None => None
      end
  end.

(** [Number(s)] on the strings made of decimal digits only (the empty
    string gives 0, leading zeros are dropped, as in JavaScript).  Every
    other string is outside the modelled fragment and gives [None]: the time
    strings of the data set and the ones the request validation admits
    ([/^([0-1]?[0-9]|2[0-3]):[0-5][0-9]$/]) are all inside it. *)
Definition Number (s : string) : option Z := Number_go 0 s.

Definition parseTime (timeStr : string) : option TimeOfDay :=
  match split ":" timeStr with
  | h :: m :: _ =>
      match Number h, Number m with
      | Some hh, Some mm => Some {| hours := hh; minutes := mm |}
      | _, _ => None
      end
  | _ => None
  end.

Definition timeToMinutes (time : TimeOfDay) : Z :=
  hours time * 60 + minutes time.

(** [s.padStart(2, '0')]. *)
Definition padStart2 (s : string) : string :=
  match s with
  | EmptyString => "00"
  | String c EmptyString => String "0" s
  | _ => s
  end.

(** [Math.floor(minutes / 60)] is [Z.div], [minutes % 60] is [Z.rem]. *)
Definition minutesToTime (mins : Z) : string :=
  let hours := mins / 60 in
  let mins := Z.rem mins 60 in
  padStart2 (pretty hours) +:+ ":" +:+ padStart2 (pretty mins).

Definition addMinutes (timeStr : string) (minutesToAdd : Z) : option string :=
  match parseTime timeStr with
  | Some time =>
      let totalMinutes := timeToMinutes time + minutesToAdd in
      Some (minutesToTime (Z.rem totalMinutes 1440))
  | None => None
  end.

(** The minute of the day of an ["HH:MM"] string:
    [timeToMinutes(parseTime(s))]. *)
Definition minutesOf (s : string) : option Z :=
  timeToMinutes <$> parseTime s.

(* ===================================================================== *)
(** * Insertion-ordered collections *)
(* ===================================================================== *)

(** A JavaScript [Map<string, V>] iterates in insertion order; it is kept
    as an association list with one binding per key.  A [Set<string>] is the
    list of its members in insertion order. *)
Section JsMap.
Context {V : Type}.

Fixpoint Map_set (k : string) (v : V) (m : list (string * V)) : list (string * V) :=
  match m with
  | [] => [(k, v)]
  | (k', v') :: m' =>
      if String.eqb k' k then (k, v) :: m' else (k', v') :: Map_set k v m'
  end.

Fixpoint Map_get (k : string) (m : list (string * V)) : option V :=
  match m with
  | [] => None
  | (k', v') :: m' => if String.eqb k' k then Some v' else Map_get k m'
  end.

Definition Map_has (k : string) (m : list (string * V)) : bool :=
  match Map_get k m with Some _ => true | None => false end.

Definition Map_keys (m : list (string * V)) : list string := map fst m.
Definition Map_values (m : list (string * V)) : list V := map snd m.
End JsMap.

Definition Set_has (x : string) (s : list string) : bool :=
  existsb (String.eqb x) s.

Definition Set_add (x : string) (s : list string) : list string :=
  if Set_has x s then s else s ++ [x].

Definition Set_delete (x : string) (s : list string) : list string :=
  List.filter (fun y => negb (String.eqb x y)) s.

(* ===================================================================== *)
(** * The graph (graph.ts) *)
(* ===================================================================== *)

(** The private fields of [class Graph].  [adjacencyList] is a plain
    object used as a dictionary; node ids are taken not to collide with the
    property names of [Object.prototype]. *)
Record Graph := {
  nodes : list (string * Node);
  edges : list Edge;
  routes : list (string * Route);
  adjacencyList : gmap string (list EdgeInfo)
}.

Definition emptyGraph : Graph :=
  {| nodes := []; edges := []; routes := []; adjacencyList := ∅ |}.

(** [this.adjacencyList[k].push(e)]; [None] is the [TypeError] raised
    when [k] is not a key of the adjacency list. *)
Definition adj_push (k : string) (e : EdgeInfo)
    (adj : gmap string (list EdgeInfo)) : option (gmap string (list EdgeInfo)) :=
  match adj !! k with
  | Some l => Some (<[k := l ++ [e]]> adj)
  | None => None
  end.

Definition add_edge (adj : gmap string (list EdgeInfo)) (edge : Edge)
    : option (gmap string (list EdgeInfo)) :=
  let edgeInfo := {| ei_to := edge_to edge; ei_mode := edge_mode edge;
                     ei_route_ids := edge_route_ids edge;
                     ei_time_min := edge_time_min edge; ei_cost := edge_cost edge |} in
  match adj_push (edge_from edge) edgeInfo adj with
  | Some adj1 =>
      if one_way edge then Some adj1
      else adj_push (edge_to edge)
             {| ei_to := edge_from edge; ei_mode := edge_mode edge;
                ei_route_ids := edge_route_ids edge;
                ei_time_min := edge_time_min edge; ei_cost := edge_cost edge |} adj1
  | None => None
  end.

Fixpoint add_edges (adj : gmap string (list EdgeInfo)) (es : list Edge)
    : option (gmap string (list EdgeInfo)) :=
  match es with
  | [] => Some adj
  | e :: es' =>
      match add_edge adj e with
      | Some adj' => add_edges adj' es'
      | None => None
      end
  end.

Definition buildAdjacencyList (ns : list (string * Node)) (es : list Edge)
    : option (gmap string (list EdgeInfo)) :=
  add_edges (fold_left (fun adj nodeId => <[nodeId := []]> adj) (Map_keys ns) ∅) es.

(** [loadData], on the parsed contents of the three JSON files, starting
    from a fresh [Graph]. *)
Definition loadData (d : GraphData) : option Graph :=
  let ns := fold_left (fun m node => Map_set (node_id node) node m) (gd_nodes d) [] in
  let rs := fold_left (fun m route => Map_set (route_id route) route m) (gd_routes d) [] in
  match buildAdjacencyList ns (gd_edges d) with
  | Some adj => Some {| nodes := ns; edges := gd_edges d; routes := rs; adjacencyList := adj |}
  | None => None
  end.

Definition getNode (g : Graph) (nodeId : string) : option Node := Map_get nodeId (nodes g).
Definition getAllNodes (g : Graph) : list Node := Map_values (nodes g).
Definition getRoute (g : Graph) (routeId : string) : option Route := Map_get routeId (routes g).
Definition getAllRoutes (g : Graph) : list Route := Map_values (routes g).
Definition hasNode (g : Graph) (nodeId : string) : bool := Map_has nodeId (nodes g).

Definition getNeighbors (g : Graph) (nodeId : string) : list EdgeInfo :=
  default [] (adjacencyList g !! nodeId).

Definition getEdge (g : Graph) (from to : string) (mode : option Mode) : option EdgeInfo :=
  find (fun edge => String.eqb (ei_to edge) to &&
                    match mode with
                    | None => true
                    | Some m => bool_decide (ei_mode edge = m)
                    end) (getNeighbors g from).

(** ** Dijkstra's algorithm: [localShortestPath] *)

(** The five local collections of [localShortestPath]. *)
Record Dijkstra := {
  distances : gmap string number;
  costs : gmap string Z;
  previous : gmap string (option string);
  edgeMap : gmap string EdgeInfo;
  unvisited : list string
}.

Definition init_node (st : Dijkstra) (nodeId : string) : Dijkstra :=
  {| distances := <[nodeId := Infinity]> (distances st);
     costs := <[nodeId := 0]> (costs st);
     previous := <[nodeId := None]> (previous st);
     edgeMap := edgeMap st;
     unvisited := Set_add nodeId (unvisited st) |}.

Definition dijkstra_init (g : Graph) (from : string) : Dijkstra :=
  let st := fold_left init_node (Map_keys (nodes g))
              {| distances := ∅; costs := ∅; previous := ∅; edgeMap := ∅; unvisited := [] |} in
  {| distances := <[from := Num 0]> (distances st);
     costs := costs st; previous := previous st; edgeMap := edgeMap st;
     unvisited := unvisited st |}.

(** One step of the linear scan for the unvisited node of minimum
    tentative distance: the accumulator is [(current, minDist)]. *)
Definition scan_min (ds : gmap string number) (acc : option string * number)
    (nodeId : string) : option string * number :=
  match ds !! nodeId with
  | Some dist => if num_lt dist (snd acc) then (Some nodeId, dist) else acc
  | None => acc
  end.

Definition find_min (st : Dijkstra) : option string * number :=
  fold_left (scan_min (distances st)) (unvisited st) (None, Infinity).

(** The body of [neighbors.forEach]: relax one outgoing edge of
    [current].  The three maps are initialised on the same keys, so their
    lookups at a node are defined together. *)
Definition relax (allowedModes : list Mode) (current : string)
    (st : Dijkstra) (edge : EdgeInfo) : Dijkstra :=
  if negb (bool_decide (ei_mode edge ∈ allowedModes)) then st
  else if negb (Set_has (ei_to edge) (unvisited st)) then st
  else
    match distances st !! current, distances st !! ei_to edge, costs st !! current with
    | Some dcur, Some dto, Some ccur =>
        let newDist := num_add dcur (Num (ei_time_min edge)) in
        if num_lt newDist dto then
          {| distances := <[ei_to edge := newDist]> (distances st);
             costs := <[ei_to edge := ccur + ei_cost edge]> (costs st);
             previous := <[ei_to edge := Some current]> (previous st);
             edgeMap := <[ei_to edge := edge]> (edgeMap st);
             unvisited := unvisited st |}
        else st
    | _, _, _ => st
    end.

Definition visit (current : string) (st : Dijkstra) : Dijkstra :=
  {| distances := distances st; costs := costs st; previous := previous st;
     edgeMap := edgeMap st; unvisited := Set_delete current (unvisited st) |}.

(** The [while (unvisited.size > 0)] loop; [None] when the fuel runs out
    before the loop exits. *)
Fixpoint dijkstra_loop (g : Graph) (to : string) (allowedModes : list Mode)
    (fuel : nat) (st : Dijkstra) : option Dijkstra :=
  match fuel with
  | O => None
  | S fuel' =>
      match unvisited st with
      | [] => Some st
      | _ :: _ =>
          match find_min st with
          | (Some current, Num _) =>
              let st1 := visit current st in
              if String.eqb current to then Some st1
              else dijkstra_loop g to allowedModes fuel'
                     (fold_left (relax allowedModes current) (getNeighbors g current) st1)
          | _ => Some st
          end
      end
  end.

(** A string is truthy unless it is empty. *)
Definition truthy (o : option (option string)) : option string :=
  match o with
  | Some (Some p) => if String.eqb p "" then None else Some p
  | _ => None
  end.

(** The [while (current !== null)] loop that rebuilds the path; [None]
    when the fuel runs out, or when an edge of the path is missing from
    [edgeMap]. *)
Fixpoint reconstruct (fuel : nat) (st : Dijkstra) (current : string)
    (path : list string) (es : list EdgeInfo) : option (list string * list EdgeInfo) :=
  match fuel with
  | O => None
  | S fuel' =>
      match truthy (previous st !! current) with
      | Some p =>
          match edgeMap st !! current with
          | Some e => reconstruct fuel' st p (current :: path) (e :: es)
          | None => None
          end
      | None => Some (current :: path, es)
      end
  end.

Definition notFound : PathResult :=
  {| found := false; path := []; totalTime := Infinity; totalCost := 0; pr_edges := [] |}.

Definition defaultModes : list Mode := [walk; local].

(** [localShortestPath(from, to, allowedModes)].  The result is [None]
    only if one of the two loops does not exit within its fuel, or reads an
    undefined map entry; [localShortestPath_total] shows that this never
    happens on a graph whose times are non-negative. *)
Definition localShortestPath (g : Graph) (from to : string)
    (allowedModes : list Mode) : option PathResult :=
  if negb (hasNode g from) || negb (hasNode g to) then Some notFound
  else if String.eqb from to then
    Some {| found := true; path := [from]; totalTime := Num 0; totalCost := 0; pr_edges := [] |}
  else
    let st0 := dijkstra_init g from in
    match dijkstra_loop g to allowedModes (S (length (unvisited st0))) st0 with
    | None => None
    | Some st =>
        match distances st !! to, costs st !! to with
        | Some Infinity, _ => Some notFound
        | Some (Num finalDist), Some c =>
            match reconstruct (length (unvisited st0)) st to [] [] with
            | Some (p, es) =>
                Some {| found := true; path := p; totalTime := Num finalDist;
                        totalCost := c; pr_edges := es |}
            | None => None
            end
        | _, _ => None
        end
    end.

(* ===================================================================== *)
(** * Effects: the system state and the monad of the asynchronous code *)
(* ===================================================================== *)

(** The body of the provider's JSON answer, as far as the client reads
    it.  A field that is absent (or [null]) is [None]. *)
Record Element := {
  el_status : option string;
  el_distance : option Z;   (* element.distance?.value *)
  el_duration : option Z    (* element.duration?.value *)
}.

Record Row := { elements : option (list Element) }.

Record ResponseData := {
  status : option string;
  rows : option (list Row)
}.

Record Request := {
  origins : string;
  destinations : string;
  req_mode : TravelMode;
  key : string;
  timeout : Z
}.

(** What [await axios.get(...)] does: it rejects with an [Error] (timeout,
    connection failure, non-2xx answer) or resolves with a response whose
    [data] may be missing. *)
Inductive AxiosOutcome :=
| Rejected (message : string)
| Resolved (data : option ResponseData).

(** Everything one call of [getLocalSegment] reads from outside. *)
Record World := {
  isoDate : string;                      (* new Date().toISOString() *)
  now : Z;                               (* Date.now() at the cache check *)
  axios_get : Request -> AxiosOutcome;
  now_after : Z                          (* Date.now() after the await *)
}.

Record DistanceMatrixResult := {
  ok : bool;
  distanceMeters : option Z;
  durationSeconds : option Z;
  raw : option ResponseData;
  errorMessage : option string;
  fromCache : option bool
}.

(** The private fields of [class DistanceMatrixClient]. *)
Record DistanceMatrixClient := {
  apiKey : string;
  cache : gmap string CacheEntry;
  usageStats : UsageStats
}.

Definition MONTHLY_LIMIT : Z := 700.
Definition DAILY_LIMIT : Z := 50.
Definition CACHE_TTL_DAYS : Z := 7.

(** The mutable state the planning path touches: the client singleton,
    the log of the requests handed to [axios.get] (oldest first), and the
    number of [getLocalSegment] calls made so far, which selects the
    [World] of the next call.  The service is single-threaded, and [M]
    runs one request from its start to its end, its [await]s included; where
    the calls of concurrent requests interleave, at the [await] of
    [getLocalSegment], is the subject of [segment_begin], [segment_settle]
    and [run_events]. *)
Record Sys := {
  client : DistanceMatrixClient;
  sent : list Request;
  calls : nat
}.

(** How a piece of code ends: it returns, it throws, it loops for ever, or
    it leaves the modelled fragment (a time string [Number] does not
    cover). *)
Inductive Outcome (A : Type) :=
| Returns (a : A)
| Throws (message : string)
| Diverges
| Unmodelled.
Arguments Returns {A} a.
Arguments Throws {A} message.
Arguments Diverges {A}.
Arguments Unmodelled {A}.

Definition M (A : Type) : Type := Sys -> Outcome A * Sys.

#[global] Instance Outcome_ret : MRet Outcome := fun A a => Returns a.
#[global] Instance Outcome_bind : MBind Outcome := fun A B f m =>
  match m with
  | Returns a => f a
  | Throws msg => Throws msg
  | Diverges => Diverges
  | Unmodelled => Unmodelled
  end.

#[global] Instance M_ret : MRet M := fun A a s => (Returns a, s).
#[global] Instance M_bind : MBind M := fun A B f m s =>
  match m s with
  | (Returns a, s') => f a s'
  | (Throws msg, s') => (Throws msg, s')
  | (Diverges, s') => (Diverges, s')
  | (Unmodelled, s') => (Unmodelled, s')
  end.

Definition lift {A} (o : Outcome A) : M A := fun s => (o, s).
Definition throw {A} (message : string) : M A := lift (Throws message).
Definition get_client : M DistanceMatrixClient := fun s => (Returns (client s), s).
Definition put_client (c : DistanceMatrixClient) : M unit :=
  fun s => (Returns tt, {| client := c; sent := sent s; calls := calls s |}).

(** [try { body } catch (error) { handler(error.message) }]. *)
Definition try_catch {A} (body : M A) (handler : string -> M A) : M A :=
  fun s =>
    match body s with
    | (Throws msg, s') => handler msg s'
    | r => r
    end.

(** An option read where JavaScript would fail with a [TypeError]. *)
Definition defined {A} (o : option A) (message : string) : M A :=
  match o with
  | Some a => mret a
  | None => throw message
  end.

(* ===================================================================== *)
(** * The Distance Matrix client (distanceMatrixClient.ts) *)
(* ===================================================================== *)

Definition set_stats (f : UsageStats -> UsageStats) : M unit :=
  c ← get_client;
  put_client {| apiKey := apiKey c; cache := cache c; usageStats := f (usageStats c) |}.

Definition set_cache (k : string) (e : CacheEntry) : M unit :=
  c ← get_client;
  put_client {| apiKey := apiKey c; cache := <[k := e]> (cache c);
                usageStats := usageStats c |}.

Definition with_monthlyCount (n : Z) (u : UsageStats) : UsageStats :=
  {| monthlyCount := n; dailyCount := dailyCount u; lastReset := lastReset u;
     cacheHits := cacheHits u; cacheMisses := cacheMisses u |}.
Definition with_dailyCount (n : Z) (u : UsageStats) : UsageStats :=
  {| monthlyCount := monthlyCount u; dailyCount := n; lastReset := lastReset u;
     cacheHits := cacheHits u; cacheMisses := cacheMisses u |}.
Definition with_lastReset (d : string) (u : UsageStats) : UsageStats :=
  {| monthlyCount := monthlyCount u; dailyCount := dailyCount u; lastReset := d;
     cacheHits := cacheHits u; cacheMisses := cacheMisses u |}.
Definition with_cacheHits (n : Z) (u : UsageStats) : UsageStats :=
  {| monthlyCount := monthlyCount u; dailyCount := dailyCount u; lastReset := lastReset u;
     cacheHits := n; cacheMisses := cacheMisses u |}.
Definition with_cacheMisses (n : Z) (u : UsageStats) : UsageStats :=
  {| monthlyCount := monthlyCount u; dailyCount := dailyCount u; lastReset := lastReset u;
     cacheHits := cacheHits u; cacheMisses := n |}.

(** [s.slice(0, n)]. *)
Definition slice0 (n : nat) (s : string) : string := substring 0 n s.

Definition isCacheValid (w : World) (entry : CacheEntry) : bool :=
  let ageMs := now w - timestamp entry in
  let ageDays := (inject_Z ageMs / inject_Z (1000 * 60 * 60 * 24))%Q in
  negb (Qle_bool (inject_Z CACHE_TTL_DAYS) ageDays).

(** The pure part of [checkAndResetCounters]. *)
Definition resetCounters_on (today : string) (u : UsageStats) : UsageStats :=
  if negb (String.eqb (lastReset u) today) then
    let u1 := with_dailyCount 0 u in
    let lastMonth := slice0 7 (lastReset u1) in
    let currentMonth := slice0 7 today in
    let u2 := if negb (String.eqb lastMonth currentMonth)
              then with_monthlyCount 0 u1 else u1 in
    with_lastReset today u2
  else u.

Definition checkAndResetCounters (w : World) : M unit :=
  let today := slice0 10 (isoDate w) in
  set_stats (resetCounters_on today).

Definition show_TravelMode (m : TravelMode) : string :=
  match m with driving => "driving" | walking => "walking" end.

Definition failure (message : string) : DistanceMatrixResult :=
  {| ok := false; distanceMeters := None; durationSeconds := None; raw := None;
     errorMessage := Some message; fromCache := None |}.

(** [axios.get(url, {params, timeout})]: the request is handed to the
    network, and the call throws when the promise is rejected. *)
Definition axios_get_call (w : World) (req : Request) : M (option ResponseData) :=
  fun s =>
    let s' := {| client := client s; sent := sent s ++ [req]; calls := calls s |} in
    match axios_get w req with
    | Rejected message => (Throws message, s')
    | Resolved data => (Returns data, s')
    end.

Definition TypeError_undefined : string :=
  "Cannot read properties of undefined".

(** [data.rows[0]?.elements[0]]: reading [rows[0]] of a missing [rows],
    or [elements[0]] of a missing [elements], throws; a missing first row or
    first element gives [undefined]. *)
Definition first_element (data : ResponseData) : M (option Element) :=
  rs ← defined (rows data) TypeError_undefined;
  match rs with
  | [] => mret None
  | row :: _ =>
      els ← defined (elements row) TypeError_undefined;
      mret (head els)
  end.

(** [${x}] for a string that may be [undefined]. *)
Definition show_undefined (o : option string) : string := default "undefined" o.

(** [element?.status || 'MISSING']. *)
Definition status_or_missing (element : option Element) : string :=
  match element with
  | Some el =>
      match el_status el with
      | Some st => if String.eqb st "" then "MISSING" else st
      | None => "MISSING"
      end
  | None => "MISSING"
  end.

Definition is_OK (o : option string) : bool :=
  match o with Some st => String.eqb st "OK" | None => false end.

(** The body of the [try] block. *)
Definition request_segment (w : World) (cacheKey : string) (req : Request)
    : M DistanceMatrixResult :=
  response ← axios_get_call w req;
  set_stats (fun u => with_monthlyCount (monthlyCount u + 1) u);;
  set_stats (fun u => with_dailyCount (dailyCount u + 1) u);;
  data ← defined response TypeError_undefined;
  if negb (is_OK (status data)) then
    mret {| ok := false; distanceMeters := None; durationSeconds := None;
            raw := Some data;
            errorMessage := Some ("API status: " +:+ show_undefined (status data));
            fromCache := None |}
  else
    element ← first_element data;
    match element with
    | Some el =>
        if is_OK (el_status el) then
          let distanceMeters := default 0 (el_distance el) in
          let durationSeconds := default 0 (el_duration el) in
          set_cache cacheKey {| ce_distanceMeters := distanceMeters;
                                ce_durationSeconds := durationSeconds;
                                timestamp := now_after w |};;
          mret {| ok := true; distanceMeters := Some distanceMeters;
                  durationSeconds := Some durationSeconds; raw := Some data;
                  errorMessage := None; fromCache := Some false |}
        else
          mret {| ok := false; distanceMeters := None; durationSeconds := None;
                  raw := Some data;
                  errorMessage := Some ("Element status: " +:+ status_or_missing element);
                  fromCache := None |}
    | None =>
        mret {| ok := false; distanceMeters := None; durationSeconds := None;
                raw := Some data;
                errorMessage := Some ("Element status: " +:+ status_or_missing element);
                fromCache := None |}
    end.

(** [getLocalSegment] from the quota check on: what a call does when the
    cache has no fresh entry. *)
Definition fresh_segment (g : Graph) (w : World) (originNodeId destNodeId : string)
    (mode : TravelMode) (cacheKey : string) : M DistanceMatrixResult :=
  c ← get_client;
  if MONTHLY_LIMIT <=? monthlyCount (usageStats c) then
    mret (failure "Monthly API quota exceeded")
  else if DAILY_LIMIT <=? dailyCount (usageStats c) then
    mret (failure "Daily API quota exceeded")
  else
    match getNode g originNodeId, getNode g destNodeId with
    | Some originNode, Some destNode =>
        set_stats (fun u => with_cacheMisses (cacheMisses u + 1) u);;
        try_catch
          (request_segment w cacheKey
             {| origins := gmaps_address originNode;
                destinations := gmaps_address destNode;
                req_mode := mode; key := apiKey c; timeout := 10000 |})
          (fun message => mret (failure ("Network error: " +:+ message)))
    | _, _ => mret (failure "Invalid node IDs")
    end.

Definition cacheKey_of (originNodeId destNodeId : string) (mode : TravelMode) : string :=
  originNodeId +:+ "|" +:+ destNodeId +:+ "|" +:+ show_TravelMode mode.

Definition getLocalSegment (g : Graph) (w : World) (originNodeId destNodeId : string)
    (mode : TravelMode) : M DistanceMatrixResult :=
  c ← get_client;
  if String.eqb (apiKey c) "" then
    mret (failure "Distance Matrix API key not configured")
  else
    checkAndResetCounters w;;
    let cacheKey := cacheKey_of originNodeId destNodeId mode in
    c ← get_client;
    match cache c !! cacheKey with
    | Some cached =>
        if isCacheValid w cached then
          set_stats (fun u => with_cacheHits (cacheHits u + 1) u);;
          mret {| ok := true; distanceMeters := Some (ce_distanceMeters cached);
                  durationSeconds := Some (ce_durationSeconds cached); raw := None;
                  errorMessage := None; fromCache := Some true |}
        else fresh_segment g w originNodeId destNodeId mode cacheKey
    | None => fresh_segment g w originNodeId destNodeId mode cacheKey
    end.

Definition getStats : M UsageStats := c ← get_client; mret (usageStats c).

(* ===================================================================== *)
(** * The route planner (planner.ts) *)
(* ===================================================================== *)

Definition show_Mode (m : Mode) : string :=
  match m with bus => "bus" | local => "local" | walk => "walk" end.

Fixpoint indexOf_from (i : Z) (x : string) (l : list string) : Z :=
  match l with
  | [] => -1
  | y :: l' => if String.eqb y x then i else indexOf_from (i + 1) x l'
  end.

(** [l.indexOf(x)]. *)
Definition indexOf (x : string) (l : list string) : Z := indexOf_from 0 x l.

Definition parseTime_ (s : string) : Outcome TimeOfDay :=
  match parseTime s with Some t => Returns t | None => Unmodelled end.

Definition addMinutes_ (s : string) (n : Z) : Outcome string :=
  match addMinutes s n with Some t => Returns t | None => Unmodelled end.

(** [Math.round(x / d)] for an integer [x] and a positive integer [d]:
    the quotient rounded to the nearest integer, halves upwards. *)
Definition Math_round_div (x d : Z) : Z := (2 * x + d) / (2 * d).

(** The body of the loop of [directBusRoute] for one trip: [Some] option
    when the loop returns at this trip, [None] when it continues. *)
Definition direct_trip (route : Route) (from to requestTime : string) (trip : Trip)
    : Outcome (option RouteOption) :=
  let fromIndex := indexOf from (stops trip) in
  let toIndex := indexOf to (stops trip) in
  if (fromIndex =? -1) || (toIndex =? -1) || (toIndex <=? fromIndex) then mret None
  else
    let hopsBefore := fromIndex in
    tripStart ← parseTime_ (departure_time trip);
    let tripStartMin := timeToMinutes tripStart in
    let timeToFrom := hopsBefore * 5 in
    let departureMin := tripStartMin + timeToFrom in
    request ← parseTime_ requestTime;
    let requestMin := timeToMinutes request in
    if departureMin <? requestMin then mret None
    else
      let hops := toIndex - fromIndex in
      let travelTime := hops * 5 in
      arrivalTime ← addMinutes_ (departure_time trip) (timeToFrom + travelTime);
      departureTime ← addMinutes_ (departure_time trip) timeToFrom;
      let leg := {| leg_mode := bus; leg_submode := None;
                    leg_route_id := Some (route_id route);
                    leg_trip_id := Some (trip_id trip);
                    leg_from := from; leg_to := to;
                    leg_departure := Some departureTime;
                    leg_arrival := Some arrivalTime;
                    leg_durationMin := Some (Num travelTime);
                    leg_distanceMeters := None; leg_cost := Some 0;
                    leg_source := Some graph_source |} in
      mret (Some {| label := route_name route +:+ " Direct";
                    category := fastest; option_type := direct; transfers := 0;
                    totalTimeMin := Num (travelTime + (departureMin - requestMin));
                    opt_totalCost := 0; localTimeMin := Num 0;
                    localDistanceMeters := 0; usesDistanceMatrix := false;
                    legs := [leg] |}).

(** A [for] loop that returns at the first trip whose body yields an
    option. *)
Fixpoint first_trip (body : Trip -> Outcome (option RouteOption)) (ts : list Trip)
    : Outcome (option RouteOption) :=
  match ts with
  | [] => mret None
  | trip :: ts' =>
      r ← body trip;
      match r with
      | Some o => mret (Some o)
      | None => first_trip body ts'
      end
  end.

Definition directBusRoute (route : Route) (from to requestTime : string)
    : Outcome (option RouteOption) :=
  first_trip (direct_trip route from to requestTime) (trips route).

Fixpoint foldM {A B} (f : A -> B -> M A) (a : A) (l : list B) : M A :=
  match l with
  | [] => mret a
  | b :: l' => a' ← f a b; foldM f a' l'
  end.

Fixpoint indexed_from {A} (i : Z) (l : list A) : list (Z * A) :=
  match l with
  | [] => []
  | x :: l' => (i, x) :: indexed_from (i + 1) l'
  end.

(** [findTransferPoints]: the stops of [route1], in first-seen order, that
    [route2] serves too. *)
Definition route_stops (route : Route) : list string :=
  fold_left (fun s trip => fold_left (fun s stop => Set_add stop s) (stops trip) s)
            (trips route) [].

Definition findTransferPoints (route1 route2 : Route) : list string :=
  let stops1 := route_stops route1 in
  let stops2 := route_stops route2 in
  List.filter (fun stop => Set_has stop stops2) stops1.

Definition getOptionId (option : RouteOption) : string :=
  String.concat "|"
    (map (fun leg => leg_from leg +:+ "-" +:+ leg_to leg +:+ "-" +:+ show_Mode (leg_mode leg))
         (legs option)).

Definition deduplicateOptions (options : list RouteOption) : list RouteOption :=
  snd (fold_left
         (fun '(seen, result) option =>
            let id := getOptionId option in
            if Set_has id seen then (seen, result)
            else (Set_add id seen, result ++ [option]))
         options ([], [])).

(** The index of the first option of minimum [key]: the scan
    [let best = unique[0]; for (o of unique) if (o.key < best.key) best = o]. *)
Fixpoint argmin_from (key : RouteOption -> number) (l : list RouteOption)
    (i best : nat) (bestKey : number) : nat :=
  match l with
  | [] => best
  | o :: l' =>
      if num_lt (key o) bestKey then argmin_from key l' (S i) i (key o)
      else argmin_from key l' (S i) best bestKey
  end.

Definition argmin (key : RouteOption -> number) (unique : list RouteOption) : nat :=
  match unique with
  | [] => O
  | o :: _ => argmin_from key unique 0 0 (key o)
  end.

Definition mark (c : Category) (l : string) (o : RouteOption) : RouteOption :=
  {| label := l; category := c; option_type := option_type o; transfers := transfers o;
     totalTimeMin := totalTimeMin o; opt_totalCost := opt_totalCost o;
     localTimeMin := localTimeMin o; localDistanceMeters := localDistanceMeters o;
     usesDistanceMatrix := usesDistanceMatrix o; legs := legs o |}.

(** The body of the last loop of [compareRoutes]; once [result] holds
    three entries the loop has left by [break], and nothing changes. *)
Definition add_other (acc : list nat * list string) (io : nat * RouteOption)
    : list nat * list string :=
  let '(result, addedIds) := acc in
  if (3 <=? length result)%nat then acc
  else
    let id := getOptionId (snd io) in
    if Set_has id addedIds then acc
    else (result ++ [fst io], Set_add id addedIds).

(** [compareRoutes].  The options are objects shared between [unique]
    and [result], and [fastest] and [leastLocal] are relabelled in place:
    [unique] is the store of these objects, [result] a list of indices into
    it, read once all the writes are done. *)
Definition compareRoutes (options : list RouteOption) : list RouteOption :=
  match options with
  | [] => []
  | _ :: _ =>
      let unique := deduplicateOptions options in
      let fi := argmin totalTimeMin unique in
      let li := argmin localTimeMin unique in
      match unique !! fi, unique !! li with
      | Some fastest_, Some leastLocal =>
          let store1 := alter (mark fastest "Fastest Route") fi unique in
          let result1 := [fi] in
          let addedIds := Set_add (getOptionId fastest_) [] in
          let '(store2, result2) :=
            if negb (String.eqb (getOptionId leastLocal) (getOptionId fastest_)) then
              (alter (mark least_local "Least Local Transport") li store1, result1 ++ [li])
            else (store1, result1) in
          let result3 :=
            fst (fold_left add_other (zip (seq 0 (length unique)) unique)
                           (result2, addedIds)) in
          omap (fun i => store2 !! i) result3
      | _, _ => []
      end
  end.

(** [createTransferRoute]; reading [legs[0]] of an option without legs,
    or parsing an absent time, would be a [TypeError]. *)
Definition createTransferRoute (g : Graph) (route1 route2 : Route)
    (from to transferNode requestTime : string) : Outcome (option RouteOption) :=
  leg1 ← directBusRoute route1 from transferNode requestTime;
  match leg1 with
  | None => mret None
  | Some leg1 =>
      match head (legs leg1) ≫= leg_arrival with
      | None => Throws TypeError_undefined
      | Some arrivalAtTransfer =>
          leg2 ← directBusRoute route2 transferNode to arrivalAtTransfer;
          match leg2 with
          | None => mret None
          | Some leg2 =>
              arrival ← parseTime_ arrivalAtTransfer;
              let arrivalMin := timeToMinutes arrival in
              match head (legs leg2) ≫= leg_departure,
                    head (legs leg2) ≫= leg_durationMin with
              | Some departure2, Some duration2 =>
                  departure ← parseTime_ departure2;
                  let departureMin := timeToMinutes departure in
                  let waitTime := departureMin - arrivalMin in
                  if (waitTime <? 0) || (15 <? waitTime) then mret None
                  else
                    let totalTime :=
                      num_add (num_add (totalTimeMin leg1) (Num waitTime)) duration2 in
                    mret (Some {| label := "Transfer at " +:+
                                     show_undefined (node_name <$> getNode g transferNode);
                                  category := fastest; option_type := transfer;
                                  transfers := 1; totalTimeMin := totalTime;
                                  opt_totalCost := 0; localTimeMin := Num 0;
                                  localDistanceMeters := 0; usesDistanceMatrix := false;
                                  legs := legs leg1 ++ legs leg2 |})
              | _, _ => Throws TypeError_undefined
              end
          end
      end
  end.

Fixpoint collect {B} (f : B -> Outcome (option RouteOption)) (l : list B)
    : Outcome (list RouteOption) :=
  match l with
  | [] => mret []
  | b :: l' =>
      o ← f b;
      rest ← collect f l';
      mret (match o with Some x => x :: rest | None => rest end)
  end.

Fixpoint concatM {B} (f : B -> Outcome (list RouteOption)) (l : list B)
    : Outcome (list RouteOption) :=
  match l with
  | [] => mret []
  | b :: l' => xs ← f b; rest ← concatM f l'; mret (xs ++ rest)
  end.

Definition findTransferRoutes (g : Graph) (from to requestTime : string)
    : Outcome (list RouteOption) :=
  let allRoutes := getAllRoutes g in
  concatM (fun route1 =>
    concatM (fun route2 =>
      if String.eqb (route_id route1) (route_id route2) then mret []
      else
        collect (fun transferNode =>
                   createTransferRoute g route1 route2 from to transferNode requestTime)
                (findTransferPoints route1 route2))
      allRoutes)
    allRoutes.

(** The legs of a local path: edge [idx] runs from [path[idx]] to
    [path[idx + 1]] (the path always has one node more than it has edges). *)
Fixpoint path_legs (es : list EdgeInfo) (p : list string) : list RouteLeg :=
  match es, p with
  | edge :: es', a :: ((b :: _) as p') =>
      {| leg_mode := ei_mode edge; leg_submode := None; leg_route_id := None;
         leg_trip_id := None; leg_from := a; leg_to := b;
         leg_departure := None; leg_arrival := None;
         leg_durationMin := Some (Num (ei_time_min edge));
         leg_distanceMeters := None; leg_cost := Some (ei_cost edge);
         leg_source := Some graph_source |} :: path_legs es' p'
  | _, _ => []
  end.

Section Planner.
Variable g : Graph.
(** The world each call of [getLocalSegment] meets, by call number. *)
Variable oracle : nat -> World.

Definition callSegment (originNodeId destNodeId : string) (mode : TravelMode)
    : M DistanceMatrixResult :=
  fun s =>
    getLocalSegment g (oracle (calls s)) originNodeId destNodeId mode
      {| client := client s; sent := sent s; calls := S (calls s) |}.

Definition shortest (from to : string) : M PathResult :=
  match localShortestPath g from to defaultModes with
  | Some r => mret r
  | None => lift Diverges
  end.

(** The body of the inner loop of [busToLocalRoute], for the drop-off
    stop at index [i]; the accumulator is [(bestOption, minTotalTime)]. *)
Definition hybrid_dropoff (route : Route) (trip : Trip) (from to requestTime : string)
    (fromIndex : Z) (acc : option RouteOption * number) (stop_i : Z * string)
    : M (option RouteOption * number) :=
  let '(i, dropOffStop) := stop_i in
  if String.eqb dropOffStop to then mret acc
  else
    localPath ← shortest dropOffStop to;
    seg ← (if found localPath then
             mret (Some (totalTime localPath, totalCost localPath, 0, false))
           else
             dmResult ← callSegment dropOffStop to driving;
             if ok dmResult then
               let localTime := Math_round_div (default 0 (durationSeconds dmResult)) 60 in
               let localDistance := default 0 (distanceMeters dmResult) in
               let localCost := Math_round_div localDistance 100 * 2 in
               mret (Some (Num localTime, localCost, localDistance, true))
             else mret None);
    match seg with
    | None => mret acc
    | Some (localTime, localCost, localDistance, usedDM) =>
        let hopsBefore := fromIndex in
        let busHops := i - fromIndex in
        let timeToFrom := hopsBefore * 5 in
        let busTravelTime := busHops * 5 in
        tripStart ← lift (parseTime_ (departure_time trip));
        let tripStartMin := timeToMinutes tripStart in
        let departureMin := tripStartMin + timeToFrom in
        request ← lift (parseTime_ requestTime);
        let requestMin := timeToMinutes request in
        if departureMin <? requestMin then mret acc
        else
          let waitTime := departureMin - requestMin in
          let totalTime := num_add (Num (waitTime + busTravelTime)) localTime in
          if num_lt totalTime (snd acc) then
            departure ← lift (addMinutes_ (departure_time trip) timeToFrom);
            arrival ← lift (addMinutes_ (departure_time trip) (timeToFrom + busTravelTime));
            let busLeg := {| leg_mode := bus; leg_submode := None;
                             leg_route_id := Some (route_id route);
                             leg_trip_id := Some (trip_id trip);
                             leg_from := from; leg_to := dropOffStop;
                             leg_departure := Some departure;
                             leg_arrival := Some arrival;
                             leg_durationMin := Some (Num busTravelTime);
                             leg_distanceMeters := None; leg_cost := Some 0;
                             leg_source := Some graph_source |} in
            let localLeg := {| leg_mode := local; leg_submode := Some driving;
                               leg_route_id := None; leg_trip_id := None;
                               leg_from := dropOffStop; leg_to := to;
                               leg_departure := None; leg_arrival := None;
                               leg_durationMin := Some localTime;
                               leg_distanceMeters := Some localDistance;
                               leg_cost := Some localCost;
                               leg_source := Some (if usedDM : bool then distance_matrix
                                                   else graph_source) |} in
            mret (Some {| label := route_name route +:+ " + Local";
                          category := fastest; option_type := direct; transfers := 0;
                          totalTimeMin := totalTime; opt_totalCost := localCost;
                          localTimeMin := localTime;
                          localDistanceMeters := localDistance;
                          usesDistanceMatrix := usedDM;
                          legs := [busLeg; localLeg] |}, totalTime)
          else mret acc
    end.

Definition hybrid_trip (route : Route) (from to requestTime : string)
    (acc : option RouteOption * number) (trip : Trip) : M (option RouteOption * number) :=
  let fromIndex := indexOf from (stops trip) in
  if fromIndex =? -1 then mret acc
  else
    foldM (hybrid_dropoff route trip from to requestTime fromIndex) acc
          (drop (Z.to_nat (fromIndex + 1)) (indexed_from 0 (stops trip))).

Definition busToLocalRoute (route : Route) (from to requestTime : string)
    : M (option RouteOption) :=
  r ← foldM (hybrid_trip route from to requestTime) (None, Infinity) (trips route);
  mret (fst r).

Definition localOnlyRoute (from to : string) : M (option RouteOption) :=
  localPath ← shortest from to;
  if found localPath then
    mret (Some {| label := "Local Transport Only"; category := least_local;
                  option_type := local_only; transfers := 0;
                  totalTimeMin := totalTime localPath;
                  opt_totalCost := totalCost localPath;
                  localTimeMin := totalTime localPath;
                  localDistanceMeters := 0; usesDistanceMatrix := false;
                  legs := path_legs (pr_edges localPath) (path localPath) |})
  else
    dmResult ← callSegment from to driving;
    if ok dmResult then
      let durationMin := Math_round_div (default 0 (durationSeconds dmResult)) 60 in
      let distance := default 0 (distanceMeters dmResult) in
      let cost := Math_round_div distance 100 * 2 in
      let leg := {| leg_mode := local; leg_submode := Some driving;
                    leg_route_id := None; leg_trip_id := None;
                    leg_from := from; leg_to := to;
                    leg_departure := None; leg_arrival := None;
                    leg_durationMin := Some (Num durationMin);
                    leg_distanceMeters := Some distance;
                    leg_cost := Some cost;
                    leg_source := Some distance_matrix |} in
      mret (Some {| label := "Local Transport Only"; category := least_local;
                    option_type := local_only; transfers := 0;
                    totalTimeMin := Num durationMin; opt_totalCost := cost;
                    localTimeMin := Num durationMin;
                    localDistanceMeters := distance; usesDistanceMatrix := true;
                    legs := [leg] |})
    else mret None.

Definition push (options : list RouteOption) (o : option RouteOption) : list RouteOption :=
  match o with Some x => options ++ [x] | None => options end.

(** The part of [planRoute] between the two guards and the ranking: the
    working set [options] the four strategies fill. *)
Definition enumerate (from to requestTime : string) : M (list RouteOption) :=
  options ← foldM (fun options route =>
                     directOption ← lift (directBusRoute route from to requestTime);
                     let options := push options directOption in
                     hybridOption ← busToLocalRoute route from to requestTime;
                     mret (push options hybridOption))
                  [] (getAllRoutes g);
  transferOptions ← lift (findTransferRoutes g from to requestTime);
  let options := options ++ transferOptions in
  localOption ← localOnlyRoute from to;
  mret (push options localOption).

Definition planRoute (from to requestTime : string) (currentRoute : option string)
    : M RouteResponse :=
  if negb (hasNode g from) || negb (hasNode g to) then
    mret {| resp_from := from; resp_to := to; resp_requestTime := requestTime;
            options := [] |}
  else if String.eqb from to then
    mret {| resp_from := from; resp_to := to; resp_requestTime := requestTime;
            options := [] |}
  else
    options ← enumerate from to requestTime;
    let finalOptions := compareRoutes options in
    mret {| resp_from := from; resp_to := to; resp_requestTime := requestTime;
            options := finalOptions |}.
End Planner.

(* ===================================================================== *)
(** * Request validation, the endpoint and the rest of the client *)
(* ===================================================================== *)

(** ** Request validation (validation.ts) *)

(** The fragment of regular expressions the validation uses, matched by
    derivatives. *)
Inductive regex :=
| Never                   (* matches nothing *)
| Epsilon                 (* matches the empty string *)
| Chr (c : ascii)         (* a literal character *)
| Range (lo hi : ascii)   (* [lo-hi] *)
| Cat (r1 r2 : regex)     (* r1 r2 *)
| Or (r1 r2 : regex)      (* r1|r2 *)
| Maybe (r : regex).      (* r? *)

(** [c] is in [[lo-hi]]. *)
Definition in_class (lo hi c : ascii) : bool :=
  (nat_of_ascii lo <=? nat_of_ascii c)%nat && (nat_of_ascii c <=? nat_of_ascii hi)%nat.

Fixpoint nullable (r : regex) : bool :=
  match r with
  | Never => false
  | Epsilon => true
  | Chr _ => false
  | Range _ _ => false
  | Cat r1 r2 => nullable r1 && nullable r2
  | Or r1 r2 => nullable r1 || nullable r2
  | Maybe _ => true
  end.

(** What is left of [r] to match once [c] has been read. *)
Fixpoint derive (c : ascii) (r : regex) : regex :=
  match r with
  | Never => Never
  | Epsilon => Never
  | Chr c' => if Ascii.eqb c' c then Epsilon else Never
  | Range lo hi => if in_class lo hi c then Epsilon else Never
  | Cat r1 r2 =>
      if nullable r1 then Or (Cat (derive c r1) r2) (derive c r2)
      else Cat (derive c r1) r2
  | Or r1 r2 => Or (derive c r1) (derive c r2)
  | Maybe r => derive c r
  end.

(** [/^r$/.test(s)]: the whole of [s] matches [r]. *)
Fixpoint regex_test (r : regex) (s : string) : bool :=
  match s with
  | EmptyString => nullable r
  | String c s' => regex_test (derive c r) s'
  end.

(** The strings a regular expression denotes. *)
Inductive matches : regex -> string -> Prop :=
| matches_Epsilon : matches Epsilon ""
| matches_Chr c : matches (Chr c) (String c "")
| matches_Range lo hi c : in_class lo hi c = true -> matches (Range lo hi) (String c "")
| matches_Cat r1 r2 s1 s2 :
    matches r1 s1 -> matches r2 s2 -> matches (Cat r1 r2) (s1 +:+ s2)
| matches_Or_l r1 r2 s : matches r1 s -> matches (Or r1 r2) s
| matches_Or_r r1 r2 s : matches r2 s -> matches (Or r1 r2) s
| matches_Maybe_none r : matches (Maybe r) ""
| matches_Maybe_some r s : matches r s -> matches (Maybe r) s.

(** [/^([0-1]?[0-9]|2[0-3]):[0-5][0-9]$/]. *)
Definition timeRegex : regex :=
  Cat (Or (Cat (Maybe (Range "0" "1")) (Range "0" "9"))
          (Cat (Chr "2") (Range "0" "3")))
      (Cat (Chr ":") (Cat (Range "0" "5") (Range "0" "9"))).

(** A value of [req.query], as the query parser of Express builds it: a
    string, an array (a parameter given several times, or written
    [time[]=...]) or an object (written [time[k]=...]).  The casts of the
    handlers ([time as string]) convert nothing. *)
#[warnings="-register-all"] Inductive QueryValue :=
| QString (s : string)
| QArray (items : list QueryValue)
| QObject (fields : list (string * QueryValue)).

(** The conversion to a string that a template string and [RegExp.test]
    apply to their argument: an array joins the strings of its items with
    commas, an object is "[object Object]", and an object with a field
    [toString] of its own, which is no function, cannot be converted. *)
Fixpoint toString (v : QueryValue) : Outcome string :=
  match v with
  | QString s => Returns s
  | QArray items =>
      (fix join (l : list QueryValue) : Outcome string :=
         match l with
         | [] => Returns ""
         | [x] => toString x
         | x :: l' =>
             a ← toString x;
             b ← join l';
             Returns (a +:+ "," +:+ b)
         end) items
  | QObject fields =>
      if existsb (fun field => String.eqb (fst field) "toString") fields
      then Throws "Cannot convert object to primitive value"
      else Returns "[object Object]"
  end.

(** What the middleware does: it calls [next()], or answers 400 with an
    [error] and, for all but the first check, a [message]. *)
Inductive Validation :=
| Next
| Status400 (error : string) (message : option string).

(** [!x] for a query value that may be absent. *)
Definition missing (x : option QueryValue) : bool :=
  match x with
  | Some (QString s) => String.eqb s ""
  | Some _ => false
  | None => true
  end.

(** [graph.hasNode(x as string)]: the keys of the map [nodes] are strings,
    and no other value is equal to one. *)
Definition hasNode_value (g : Graph) (x : QueryValue) : bool :=
  match x with
  | QString nodeId => hasNode g nodeId
  | _ => false
  end.

(** [validateRouteQuery], on the query values [from], [to] and [time].  It
    throws when a value it has to convert to a string cannot be. *)
Definition validateRouteQuery (g : Graph) (from to time : option QueryValue)
    : Outcome Validation :=
  match from, to, time with
  | Some from, Some to, Some time =>
      if missing (Some from) || missing (Some to) || missing (Some time) then
        Returns (Status400 "Missing required parameters" None)
      else if negb (hasNode_value g from) then
        shown ← toString from;
        Returns (Status400 "Invalid origin node" (Some ("Node '" +:+ shown +:+ "' not found")))
      else if negb (hasNode_value g to) then
        shown ← toString to;
        Returns (Status400 "Invalid destination node"
                   (Some ("Node '" +:+ shown +:+ "' not found")))
      else
        timeStr ← toString time;
        if negb (regex_test timeRegex timeStr) then
          Returns (Status400 "Invalid time format"
                     (Some ("Time '" +:+ timeStr +:+ "' is not in HH:MM format")))
        else Returns Next
  | _, _, _ => Returns (Status400 "Missing required parameters" None)
  end.

(** ** The remaining methods of the client *)

(** [prewarmCache]: one call of [getLocalSegment] per pair, its result
    dropped.  The pauses between the calls and the final [printStats] change
    nothing in the state. *)
Definition prewarmCache (g : Graph) (oracle : nat -> World)
    (pairs : list (string * string * TravelMode)) : M unit :=
  foldM (fun _ '(origin, dest, mode) =>
           _ ← callSegment g oracle origin dest mode; mret tt)
        tt pairs.

Definition clearCache : M unit :=
  c ← get_client;
  put_client {| apiKey := apiKey c; cache := ∅; usageStats := usageStats c |}.

Definition resetCounters : M unit :=
  set_stats (fun u => with_monthlyCount 0 u);;
  set_stats (fun u => with_dailyCount 0 u);;
  set_stats (fun u => with_cacheHits 0 u);;
  set_stats (fun u => with_cacheMisses 0 u).

(** ** Calls in flight *)

(** [getLocalSegment] is asynchronous.  A call runs up to
    [await axios.get(...)], is suspended while its request is on the network,
    and runs to its end when the promise settles; at the [await], and only
    there, the calls of other requests take their turn. *)

(** A suspended call: the world it runs in, its cache key and its request. *)
Record Pending := {
  pending_world : World;
  pending_key : string;
  pending_request : Request
}.

(** [axios.get(url, {params, timeout})] up to the promise: the request is
    handed to the network. *)
Definition hand_over (req : Request) : M unit :=
  fun s => (Returns tt, {| client := client s; sent := sent s ++ [req]; calls := calls s |}).

(** [getLocalSegment] from the quota check to the [await]. *)
Definition fresh_begin (g : Graph) (w : World) (originNodeId destNodeId : string)
    (mode : TravelMode) (cacheKey : string) : M (DistanceMatrixResult + Pending) :=
  c ← get_client;
  if MONTHLY_LIMIT <=? monthlyCount (usageStats c) then
    mret (inl (failure "Monthly API quota exceeded"))
  else if DAILY_LIMIT <=? dailyCount (usageStats c) then
    mret (inl (failure "Daily API quota exceeded"))
  else
    match getNode g originNodeId, getNode g destNodeId with
    | Some originNode, Some destNode =>
        set_stats (fun u => with_cacheMisses (cacheMisses u + 1) u);;
        let req := {| origins := gmaps_address originNode;
                      destinations := gmaps_address destNode;
                      req_mode := mode; key := apiKey c; timeout := 10000 |} in
        hand_over req;;
        mret (inr {| pending_world := w; pending_key := cacheKey;
                     pending_request := req |})
    | _, _ => mret (inl (failure "Invalid node IDs"))
    end.

(** [getLocalSegment] up to the [await]: the call ends at once with a
    result, or it is suspended. *)
Definition segment_begin (g : Graph) (w : World) (originNodeId destNodeId : string)
    (mode : TravelMode) : M (DistanceMatrixResult + Pending) :=
  c ← get_client;
  if String.eqb (apiKey c) "" then
    mret (inl (failure "Distance Matrix API key not configured"))
  else
    checkAndResetCounters w;;
    let cacheKey := cacheKey_of originNodeId destNodeId mode in
    c ← get_client;
    match cache c !! cacheKey with
    | Some cached =>
        if isCacheValid w cached then
          set_stats (fun u => with_cacheHits (cacheHits u + 1) u);;
          mret (inl {| ok := true; distanceMeters := Some (ce_distanceMeters cached);
                       durationSeconds := Some (ce_durationSeconds cached); raw := None;
                       errorMessage := None; fromCache := Some true |})
        else fresh_begin g w originNodeId destNodeId mode cacheKey
    | None => fresh_begin g w originNodeId destNodeId mode cacheKey
    end.

(** The [try] block from the line after the [await]. *)
Definition after_response (w : World) (cacheKey : string)
    (response : option ResponseData) : M DistanceMatrixResult :=
  set_stats (fun u => with_monthlyCount (monthlyCount u + 1) u);;
  set_stats (fun u => with_dailyCount (dailyCount u + 1) u);;
  data ← defined response TypeError_undefined;
  if negb (is_OK (status data)) then
    mret {| ok := false; distanceMeters := None; durationSeconds := None;
            raw := Some data;
            errorMessage := Some ("API status: " +:+ show_undefined (status data));
            fromCache := None |}
  else
    element ← first_element data;
    match element with
    | Some el =>
        if is_OK (el_status el) then
          let distanceMeters := default 0 (el_distance el) in
          let durationSeconds := default 0 (el_duration el) in
          set_cache cacheKey {| ce_distanceMeters := distanceMeters;
                                ce_durationSeconds := durationSeconds;
                                timestamp := now_after w |};;
          mret {| ok := true; distanceMeters := Some distanceMeters;
                  durationSeconds := Some durationSeconds; raw := Some data;
                  errorMessage := None; fromCache := Some false |}
        else
          mret {| ok := false; distanceMeters := None; durationSeconds := None;
                  raw := Some data;
                  errorMessage := Some ("Element status: " +:+ status_or_missing element);
                  fromCache := None |}
    | None =>
        mret {| ok := false; distanceMeters := None; durationSeconds := None;
                raw := Some data;
                errorMessage := Some ("Element status: " +:+ status_or_missing element);
                fromCache := None |}
    end.

(** The suspended call runs on when its promise settles: with the
    response, or in the [catch] handler when the promise is rejected. *)
Definition segment_settle (p : Pending) : M DistanceMatrixResult :=
  try_catch
    (response ← lift (match axios_get (pending_world p) (pending_request p) with
                      | Rejected message => Throws message
                      | Resolved data => Returns data
                      end);
     after_response (pending_world p) (pending_key p) response)
    (fun message => mret (failure ("Network error: " +:+ message))).

(** ** The planner on a request time of any type *)

(** The controller hands the query values to the planner under casts, so
    [requestTime] may be a value that is no string.  The planner converts it
    in the template string of its first log line, calls its [split] method in
    [parseTime], which only a string has, and puts it into its answer as it
    is.  The definitions of this section are those of the planner with
    [requestTime] a query value; on a string they are the planner itself
    ([untyped_planRoute_string]). *)

(** [parseTime(requestTime)]. *)
Definition untyped_parseTime (requestTime : QueryValue) : Outcome TimeOfDay :=
  match requestTime with
  | QString timeStr => parseTime_ timeStr
  | _ => Throws "timeStr.split is not a function"
  end.

Definition untyped_direct_trip (route : Route) (from to : string)
    (requestTime : QueryValue) (trip : Trip) : Outcome (option RouteOption) :=
  let fromIndex := indexOf from (stops trip) in
  let toIndex := indexOf to (stops trip) in
  if (fromIndex =? -1) || (toIndex =? -1) || (toIndex <=? fromIndex) then mret None
  else
    let hopsBefore := fromIndex in
    tripStart ← parseTime_ (departure_time trip);
    let tripStartMin := timeToMinutes tripStart in
    let timeToFrom := hopsBefore * 5 in
    let departureMin := tripStartMin + timeToFrom in
    request ← untyped_parseTime requestTime;
    let requestMin := timeToMinutes request in
    if departureMin <? requestMin then mret None
    else
      let hops := toIndex - fromIndex in
      let travelTime := hops * 5 in
      arrivalTime ← addMinutes_ (departure_time trip) (timeToFrom + travelTime);
      departureTime ← addMinutes_ (departure_time trip) timeToFrom;
      let leg := {| leg_mode := bus; leg_submode := None;
                    leg_route_id := Some (route_id route);
                    leg_trip_id := Some (trip_id trip);
                    leg_from := from; leg_to := to;
                    leg_departure := Some departureTime;
                    leg_arrival := Some arrivalTime;
                    leg_durationMin := Some (Num travelTime);
                    leg_distanceMeters := None; leg_cost := Some 0;
                    leg_source := Some graph_source |} in
      mret (Some {| label := route_name route +:+ " Direct";
                    category := fastest; option_type := direct; transfers := 0;
                    totalTimeMin := Num (travelTime + (departureMin - requestMin));
                    opt_totalCost := 0; localTimeMin := Num 0;
                    localDistanceMeters := 0; usesDistanceMatrix := false;
                    legs := [leg] |}).

Definition untyped_directBusRoute (route : Route) (from to : string)
    (requestTime : QueryValue) : Outcome (option RouteOption) :=
  first_trip (untyped_direct_trip route from to requestTime) (trips route).

(** The second leg is planned from the arrival time of the first, which is
    a string. *)
Definition untyped_createTransferRoute (g : Graph) (route1 route2 : Route)
    (from to transferNode : string) (requestTime : QueryValue)
    : Outcome (option RouteOption) :=
  leg1 ← untyped_directBusRoute route1 from transferNode requestTime;
  match leg1 with
  | None => mret None
  | Some leg1 =>
      match head (legs leg1) ≫= leg_arrival with
      | None => Throws TypeError_undefined
      | Some arrivalAtTransfer =>
          leg2 ← directBusRoute route2 transferNode to arrivalAtTransfer;
          match leg2 with
          | None => mret None
          | Some leg2 =>
              arrival ← parseTime_ arrivalAtTransfer;
              let arrivalMin := timeToMinutes arrival in
              match head (legs leg2) ≫= leg_departure,
                    head (legs leg2) ≫= leg_durationMin with
              | Some departure2, Some duration2 =>
                  departure ← parseTime_ departure2;
                  let departureMin := timeToMinutes departure in
                  let waitTime := departureMin - arrivalMin in
                  if (waitTime <? 0) || (15 <? waitTime) then mret None
                  else
                    let totalTime :=
                      num_add (num_add (totalTimeMin leg1) (Num waitTime)) duration2 in
                    mret (Some {| label := "Transfer at " +:+
                                     show_undefined (node_name <$> getNode g transferNode);
                                  category := fastest; option_type := transfer;
                                  transfers := 1; totalTimeMin := totalTime;
                                  opt_totalCost := 0; localTimeMin := Num 0;
                                  localDistanceMeters := 0; usesDistanceMatrix := false;
                                  legs := legs leg1 ++ legs leg2 |})
              | _, _ => Throws TypeError_undefined
              end
          end
      end
  end.

Definition untyped_findTransferRoutes (g : Graph) (from to : string)
    (requestTime : QueryValue) : Outcome (list RouteOption) :=
  let allRoutes := getAllRoutes g in
  concatM (fun route1 =>
    concatM (fun route2 =>
      if String.eqb (route_id route1) (route_id route2) then mret []
      else
        collect (fun transferNode =>
                   untyped_createTransferRoute g route1 route2 from to transferNode
                     requestTime)
                (findTransferPoints route1 route2))
      allRoutes)
    allRoutes.

(** The answer of the planner, with the request time as it was given. *)
Record UntypedResponse := {
  ur_from : string;
  ur_to : string;
  ur_requestTime : QueryValue;
  ur_options : list RouteOption
}.

Section UntypedPlanner.
Variable g : Graph.
Variable oracle : nat -> World.

Definition untyped_hybrid_dropoff (route : Route) (trip : Trip) (from to : string)
    (requestTime : QueryValue) (fromIndex : Z) (acc : option RouteOption * number)
    (stop_i : Z * string) : M (option RouteOption * number) :=
  let '(i, dropOffStop) := stop_i in
  if String.eqb dropOffStop to then mret acc
  else
    localPath ← shortest g dropOffStop to;
    seg ← (if found localPath then
             mret (Some (totalTime localPath, totalCost localPath, 0, false))
           else
             dmResult ← callSegment g oracle dropOffStop to driving;
             if ok dmResult then
               let localTime := Math_round_div (default 0 (durationSeconds dmResult)) 60 in
               let localDistance := default 0 (distanceMeters dmResult) in
               let localCost := Math_round_div localDistance 100 * 2 in
               mret (Some (Num localTime, localCost, localDistance, true))
             else mret None);
    match seg with
    | None => mret acc
    | Some (localTime, localCost, localDistance, usedDM) =>
        let hopsBefore := fromIndex in
        let busHops := i - fromIndex in
        let timeToFrom := hopsBefore * 5 in
        let busTravelTime := busHops * 5 in
        tripStart ← lift (parseTime_ (departure_time trip));
        let tripStartMin := timeToMinutes tripStart in
        let departureMin := tripStartMin + timeToFrom in
        request ← lift (untyped_parseTime requestTime);
        let requestMin := timeToMinutes request in
        if departureMin <? requestMin then mret acc
        else
          let waitTime := departureMin - requestMin in
          let totalTime := num_add (Num (waitTime + busTravelTime)) localTime in
          if num_lt totalTime (snd acc) then
            departure ← lift (addMinutes_ (departure_time trip) timeToFrom);
            arrival ← lift (addMinutes_ (departure_time trip) (timeToFrom + busTravelTime));
            let busLeg := {| leg_mode := bus; leg_submode := None;
                             leg_route_id := Some (route_id route);
                             leg_trip_id := Some (trip_id trip);
                             leg_from := from; leg_to := dropOffStop;
                             leg_departure := Some departure;
                             leg_arrival := Some arrival;
                             leg_durationMin := Some (Num busTravelTime);
                             leg_distanceMeters := None; leg_cost := Some 0;
                             leg_source := Some graph_source |} in
            let localLeg := {| leg_mode := local; leg_submode := Some driving;
                               leg_route_id := None; leg_trip_id := None;
                               leg_from := dropOffStop; leg_to := to;
                               leg_departure := None; leg_arrival := None;
                               leg_durationMin := Some localTime;
                               leg_distanceMeters := Some localDistance;
                               leg_cost := Some localCost;
                               leg_source := Some (if usedDM : bool then distance_matrix
                                                   else graph_source) |} in
            mret (Some {| label := route_name route +:+ " + Local";
                          category := fastest; option_type := direct; transfers := 0;
                          totalTimeMin := totalTime; opt_totalCost := localCost;
                          localTimeMin := localTime;
                          localDistanceMeters := localDistance;
                          usesDistanceMatrix := usedDM;
                          legs := [busLeg; localLeg] |}, totalTime)
          else mret acc
    end.

Definition untyped_hybrid_trip (route : Route) (from to : string)
    (requestTime : QueryValue) (acc : option RouteOption * number) (trip : Trip)
    : M (option RouteOption * number) :=
  let fromIndex := indexOf from (stops trip) in
  if fromIndex =? -1 then mret acc
  else
    foldM (untyped_hybrid_dropoff route trip from to requestTime fromIndex) acc
          (drop (Z.to_nat (fromIndex + 1)) (indexed_from 0 (stops trip))).

Definition untyped_busToLocalRoute (route : Route) (from to : string)
    (requestTime : QueryValue) : M (option RouteOption) :=
  r ← foldM (untyped_hybrid_trip route from to requestTime) (None, Infinity) (trips route);
  mret (fst r).

Definition untyped_enumerate (from to : string) (requestTime : QueryValue)
    : M (list RouteOption) :=
  options ← foldM (fun options route =>
                     directOption ← lift (untyped_directBusRoute route from to requestTime);
                     let options := push options directOption in
                     hybridOption ← untyped_busToLocalRoute route from to requestTime;
                     mret (push options hybridOption))
                  [] (getAllRoutes g);
  transferOptions ← lift (untyped_findTransferRoutes g from to requestTime);
  let options := options ++ transferOptions in
  localOption ← localOnlyRoute g oracle from to;
  mret (push options localOption).

(** [planRoute]; its first line logs a template string that converts
    [requestTime]. *)
Definition untyped_planRoute (from to : string) (requestTime : QueryValue)
    (currentRoute : option QueryValue) : M UntypedResponse :=
  _ ← lift (toString requestTime);
  if negb (hasNode g from) || negb (hasNode g to) then
    mret {| ur_from := from; ur_to := to; ur_requestTime := requestTime;
            ur_options := [] |}
  else if String.eqb from to then
    mret {| ur_from := from; ur_to := to; ur_requestTime := requestTime;
            ur_options := [] |}
  else
    options ← untyped_enumerate from to requestTime;
    let finalOptions := compareRoutes options in
    mret {| ur_from := from; ur_to := to; ur_requestTime := requestTime;
            ur_options := finalOptions |}.
End UntypedPlanner.

(** ** The HTTP endpoint (routesController.ts, server.ts) *)

(** What the handlers of [GET /api/routes] answer. *)
Inductive HttpResponse :=
| Json200 (body : UntypedResponse)
| Error400 (error : string) (message : option string)
| Error500 (message : string).

(** The controller [planRoute]: the planner's answer, or a 500 carrying
    the message of what the planner threw. *)
Definition routesController_planRoute (g : Graph) (oracle : nat -> World)
    (from to : string) (time : QueryValue) (currentRoute : option QueryValue)
    : M HttpResponse :=
  try_catch
    (result ← untyped_planRoute g oracle from to time currentRoute;
     mret (Json200 result))
    (fun message => mret (Error500 message)).

(** [app.get('/api/routes', validateRouteQuery, routesController.planRoute)]:
    the controller runs when the validation calls [next()], after which
    [from] and [to] are strings and [time] is present; what the validation
    throws goes to the error handler of [server.ts], which answers 500. *)
Definition routes_endpoint (g : Graph) (oracle : nat -> World)
    (from to time currentRoute : option QueryValue) : M HttpResponse :=
  match validateRouteQuery g from to time with
  | Returns (Status400 error message) => mret (Error400 error message)
  | Returns Next =>
      match from, to, time with
      | Some (QString from), Some (QString to), Some time =>
          routesController_planRoute g oracle from to time currentRoute
      | _, _, _ => lift Unmodelled
      end
  | Throws message => mret (Error500 message)
  | Diverges => lift Diverges
  | Unmodelled => lift Unmodelled
  end.

(* ===================================================================== *)
(** * Vocabulary of the specification *)
(* ===================================================================== *)

(** ** Paths and shortest times *)

(** [path_time g modes a b w]: some path from [a] to [b] through nodes of
    the graph, along edges of the adjacency list whose mode is allowed, has
    total [time_min] equal to [w]. *)
Inductive path_time (g : Graph) (modes : list Mode) (a : string) : string -> Z -> Prop :=
| path_here : hasNode g a = true -> path_time g modes a a 0
| path_step b e w :
    path_time g modes a b w ->
    e ∈ getNeighbors g b -> ei_mode e ∈ modes -> hasNode g (ei_to e) = true ->
    path_time g modes a (ei_to e) (w + ei_time_min e).

(** The data model's invariant [time_min >= 0], on the edges a search
    restricted to [modes] can follow. *)
Definition nonneg_times (g : Graph) (modes : list Mode) : Prop :=
  forall x e, e ∈ getNeighbors g x -> ei_mode e ∈ modes -> 0 <= ei_time_min e.

Definition shortest_time (g : Graph) (modes : list Mode) (a b : string) (d : Z) : Prop :=
  path_time g modes a b d /\ forall w, path_time g modes a b w -> d <= w.

(** Every edge of an adjacency list satisfies [P], a property of its mode
    and time. *)
Definition edges_satisfy (P : Mode -> Z -> Prop)
    (adj : gmap string (list EdgeInfo)) : Prop :=
  forall k l e, adj !! k = Some l -> e ∈ l -> P (ei_mode e) (ei_time_min e).

(** No local or walk edge in the adjacency list. *)
Definition bus_only (g : Graph) : Prop :=
  forall x e, e ∈ getNeighbors g x -> ei_mode e = bus.

(** ** The invariants of [localShortestPath] *)

(** What the [forEach] over the edges [es] has done to the state. *)
Record relaxed (modes : list Mode) (cur : string) (dcur : Z)
    (st1 st2 : Dijkstra) (es : list EdgeInfo) : Prop := {
  rx_unvisited : unvisited st2 = unvisited st1;
  rx_frame_d : forall v, v ∉ unvisited st1 -> distances st2 !! v = distances st1 !! v;
  rx_frame_c : forall v, v ∉ unvisited st1 -> costs st2 !! v = costs st1 !! v;
  rx_frame_p : forall v, v ∉ unvisited st1 -> previous st2 !! v = previous st1 !! v;
  rx_dom_d : forall v, is_Some (distances st1 !! v) -> is_Some (distances st2 !! v);
  rx_dom_c : forall v, is_Some (costs st1 !! v) -> is_Some (costs st2 !! v);
  rx_dom_e : forall v, is_Some (edgeMap st1 !! v) -> is_Some (edgeMap st2 !! v);
  rx_le : forall v d1, distances st1 !! v = Some (Num d1) ->
            exists d2, distances st2 !! v = Some (Num d2) /\ d2 <= d1;
  rx_origin : forall v d2, distances st2 !! v = Some (Num d2) ->
            distances st1 !! v = Some (Num d2) \/
            exists e, e ∈ es /\ ei_mode e ∈ modes /\ ei_to e = v /\
                      v ∈ unvisited st1 /\ d2 = dcur + ei_time_min e;
  rx_done : forall e, e ∈ es -> ei_mode e ∈ modes -> ei_to e ∈ unvisited st1 ->
            exists d2, distances st2 !! ei_to e = Some (Num d2) /\
                       d2 <= dcur + ei_time_min e;
  rx_prev : forall v p, previous st2 !! v = Some (Some p) ->
            previous st1 !! v = Some (Some p) \/
            (p = cur /\ v ∈ unvisited st1 /\ is_Some (edgeMap st2 !! v))
}.

(** [vis] lists the nodes already taken out of [unvisited], the most
    recent first. *)
Record Inv (g : Graph) (modes : list Mode) (src : string) (n0 : nat)
    (vis : list string) (st : Dijkstra) : Prop := {
  inv_nodes : forall x, hasNode g x = true <-> x ∈ vis \/ x ∈ unvisited st;
  inv_disjoint : forall x, x ∈ vis -> x ∉ unvisited st;
  inv_dom : forall x, hasNode g x = true ->
              is_Some (distances st !! x) /\ is_Some (costs st !! x);
  inv_src : distances st !! src = Some (Num 0);
  inv_sound : forall x d, distances st !! x = Some (Num d) -> path_time g modes src x d;
  inv_relaxed : forall x e, x ∈ vis -> e ∈ getNeighbors g x -> ei_mode e ∈ modes ->
                hasNode g (ei_to e) = true ->
                exists dx dy, distances st !! x = Some (Num dx) /\
                              distances st !! ei_to e = Some (Num dy) /\
                              dy <= dx + ei_time_min e;
  inv_finite : forall x, x ∈ vis -> exists dx, distances st !! x = Some (Num dx);
  inv_order : forall x y dx dy, x ∈ vis -> y ∈ unvisited st ->
              distances st !! x = Some (Num dx) -> distances st !! y = Some (Num dy) ->
              dx <= dy;
  inv_prev_unvisited : forall x p, previous st !! x = Some (Some p) ->
              x ∈ unvisited st -> p ∈ vis;
  inv_prev_visited : forall l1 x l2 p, vis = l1 ++ x :: l2 ->
              previous st !! x = Some (Some p) -> p ∈ l2;
  inv_edge : forall x p, previous st !! x = Some (Some p) -> is_Some (edgeMap st !! x);
  inv_size : (length vis + length (unvisited st) <= n0)%nat
}.

(** What the loop guarantees when it exits. *)
Record Final (g : Graph) (modes : list Mode) (src dst : string) (n0 : nat)
    (vis : list string) (st : Dijkstra) : Prop := {
  fin_dom : hasNode g dst = true ->
            is_Some (distances st !! dst) /\ is_Some (costs st !! dst);
  fin_sound : forall x d, distances st !! x = Some (Num d) -> path_time g modes src x d;
  fin_least : forall w, path_time g modes src dst w ->
              exists d, distances st !! dst = Some (Num d) /\ d <= w;
  fin_visited : forall d, distances st !! dst = Some (Num d) -> dst ∈ vis;
  fin_prev : forall l1 x l2 p, vis = l1 ++ x :: l2 ->
             previous st !! x = Some (Some p) -> p ∈ l2;
  fin_edge : forall x p, previous st !! x = Some (Some p) -> is_Some (edgeMap st !! x);
  fin_size : (length vis <= n0)%nat
}.

(** The projections take the record they read as their only explicit
    argument. *)
Arguments rx_unvisited {modes cur dcur st1 st2 es} _.
Arguments rx_frame_d {modes cur dcur st1 st2 es} _.
Arguments rx_frame_c {modes cur dcur st1 st2 es} _.
Arguments rx_frame_p {modes cur dcur st1 st2 es} _.
Arguments rx_dom_d {modes cur dcur st1 st2 es} _.
Arguments rx_dom_c {modes cur dcur st1 st2 es} _.
Arguments rx_dom_e {modes cur dcur st1 st2 es} _.
Arguments rx_le {modes cur dcur st1 st2 es} _.
Arguments rx_origin {modes cur dcur st1 st2 es} _.
Arguments rx_done {modes cur dcur st1 st2 es} _.
Arguments rx_prev {modes cur dcur st1 st2 es} _.
Arguments inv_nodes {g modes src n0 vis st} _.
Arguments inv_disjoint {g modes src n0 vis st} _.
Arguments inv_dom {g modes src n0 vis st} _.
Arguments inv_src {g modes src n0 vis st} _.
Arguments inv_sound {g modes src n0 vis st} _.
Arguments inv_relaxed {g modes src n0 vis st} _.
Arguments inv_finite {g modes src n0 vis st} _.
Arguments inv_order {g modes src n0 vis st} _.
Arguments inv_prev_unvisited {g modes src n0 vis st} _.
Arguments inv_prev_visited {g modes src n0 vis st} _.
Arguments inv_edge {g modes src n0 vis st} _.
Arguments inv_size {g modes src n0 vis st} _.
Arguments fin_dom {g modes src dst n0 vis st} _.
Arguments fin_sound {g modes src dst n0 vis st} _.
Arguments fin_least {g modes src dst n0 vis st} _.
Arguments fin_visited {g modes src dst n0 vis st} _.
Arguments fin_prev {g modes src dst n0 vis st} _.
Arguments fin_edge {g modes src dst n0 vis st} _.
Arguments fin_size {g modes src dst n0 vis st} _.

(** ** The client: states, calls and outcomes *)

(** Seven days, in milliseconds. *)
Definition TTL_MS : Z := 7 * (1000 * 60 * 60 * 24).

Definition stats (s : Sys) : UsageStats := usageStats (client s).
Definition today (w : World) : string := slice0 10 (isoDate w).
Definition configured (s : Sys) : Prop := apiKey (client s) <> "".

(** The cache entry a call would be served from, if any. *)
Definition fresh_entry (w : World) (c : DistanceMatrixClient) (k : string)
    : option CacheEntry :=
  match cache c !! k with
  | Some e => if isCacheValid w e then Some e else None
  | None => None
  end.

Definition cache_hit (e : CacheEntry) : DistanceMatrixResult :=
  {| ok := true; distanceMeters := Some (ce_distanceMeters e);
     durationSeconds := Some (ce_durationSeconds e); raw := None;
     errorMessage := None; fromCache := Some true |}.

(** The counters as the roll-over at the start of a call leaves them. *)
Definition rolled (w : World) (s : Sys) : UsageStats :=
  resetCounters_on (today w) (stats s).

Definition with_stats (u : UsageStats) (s : Sys) : Sys :=
  {| client := {| apiKey := apiKey (client s); cache := cache (client s); usageStats := u |};
     sent := sent s; calls := calls s |}.

Record Call := {
  call_world : World;
  call_origin : string;
  call_dest : string;
  call_mode : TravelMode
}.

Definition call_key (c : Call) : string :=
  cacheKey_of (call_origin c) (call_dest c) (call_mode c).

Fixpoint run_calls (g : Graph) (cs : list Call) (s : Sys)
    : list (Outcome DistanceMatrixResult) * Sys :=
  match cs with
  | [] => ([], s)
  | c :: cs' =>
      let '(r, s1) := getLocalSegment g (call_world c) (call_origin c) (call_dest c)
                        (call_mode c) s in
      let '(rs, s2) := run_calls g cs' s1 in
      (r :: rs, s2)
  end.

Definition served_without_network (cl : DistanceMatrixClient) (c : Call)
    : DistanceMatrixResult :=
  match fresh_entry (call_world c) cl (call_key c) with
  | Some e => cache_hit e
  | None =>
      if MONTHLY_LIMIT <=? monthlyCount (usageStats cl)
      then failure "Monthly API quota exceeded"
      else failure "Daily API quota exceeded"
  end.

Definition the_request (g : Graph) (s : Sys) (o d : string) (m : TravelMode) : option Request :=
  match getNode g o, getNode g d with
  | Some originNode, Some destNode =>
      Some {| origins := gmaps_address originNode; destinations := gmaps_address destNode;
              req_mode := m; key := apiKey (client s); timeout := 10000 |}
  | _, _ => None
  end.

Definition network_failure (message : string) : DistanceMatrixResult :=
  failure ("Network error: " +:+ message).


(** The state once a request has been answered: the request is logged and
    both counters are bumped. *)
Definition answered (req : Request) (s : Sys) : Sys :=
  {| client := {| apiKey := apiKey (client s); cache := cache (client s);
                  usageStats := with_dailyCount (dailyCount (stats s) + 1)
                                  (with_monthlyCount (monthlyCount (stats s) + 1) (stats s)) |};
     sent := sent s ++ [req]; calls := calls s |}.

Definition logged (req : Request) (s : Sys) : Sys :=
  {| client := client s; sent := sent s ++ [req]; calls := calls s |}.

Definition missed (s : Sys) : Sys :=
  with_stats (with_cacheMisses (cacheMisses (stats s) + 1) (stats s)) s.

Definition on_error (message : string) : M DistanceMatrixResult :=
  mret (network_failure message).

(** The ways a call that is not served from the cache can end. *)
Inductive fresh_outcome (g : Graph) (w : World) (o d : string) (m : TravelMode)
    (k : string) (s : Sys) : DistanceMatrixResult -> Sys -> Prop :=
| fo_monthly :
    MONTHLY_LIMIT <= monthlyCount (stats s) ->
    fresh_outcome g w o d m k s (failure "Monthly API quota exceeded") s
| fo_daily :
    monthlyCount (stats s) < MONTHLY_LIMIT ->
    DAILY_LIMIT <= dailyCount (stats s) ->
    fresh_outcome g w o d m k s (failure "Daily API quota exceeded") s
| fo_invalid :
    monthlyCount (stats s) < MONTHLY_LIMIT ->
    dailyCount (stats s) < DAILY_LIMIT ->
    the_request g s o d m = None ->
    fresh_outcome g w o d m k s (failure "Invalid node IDs") s
| fo_rejected req message :
    monthlyCount (stats s) < MONTHLY_LIMIT ->
    dailyCount (stats s) < DAILY_LIMIT ->
    the_request g s o d m = Some req ->
    axios_get w req = Rejected message ->
    fresh_outcome g w o d m k s (network_failure message) (logged req (missed s))
| fo_resolved req data r s' :
    monthlyCount (stats s) < MONTHLY_LIMIT ->
    dailyCount (stats s) < DAILY_LIMIT ->
    the_request g s o d m = Some req ->
    axios_get w req = Resolved data ->
    try_catch (request_segment w k req) on_error (missed s) = (Returns r, s') ->
    fresh_outcome g w o d m k s r s'.

(** The ways a call of [getLocalSegment] can end. *)
Inductive segment_outcome (g : Graph) (w : World) (o d : string) (m : TravelMode)
    (s : Sys) : DistanceMatrixResult -> Sys -> Prop :=
| so_unconfigured :
    apiKey (client s) = "" ->
    segment_outcome g w o d m s (failure "Distance Matrix API key not configured") s
| so_hit e :
    configured s ->
    fresh_entry w (client s) (cacheKey_of o d m) = Some e ->
    segment_outcome g w o d m s (cache_hit e)
      (with_stats (with_cacheHits (cacheHits (rolled w s) + 1) (rolled w s)) s)
| so_fresh r s' :
    configured s ->
    fresh_entry w (client s) (cacheKey_of o d m) = None ->
    fresh_outcome g w o d m (cacheKey_of o d m) (with_stats (rolled w s) s) r s' ->
    segment_outcome g w o d m s r s'.

Definition quota_exhausted (u : UsageStats) : Prop :=
  DAILY_LIMIT <= dailyCount u \/ MONTHLY_LIMIT <= monthlyCount u.

(** ** The planner *)

Definition scenario_trip (tid : string) (dir : Direction) : Trip :=
  {| trip_id := tid; direction := dir; stops := ["A"; "B"; "C"];
     departure_time := "08:00" |}.

Definition scenario_option (rid tid : string) : RouteOption :=
  {| label := "Fastest Route"; category := fastest; option_type := direct;
     transfers := 0; totalTimeMin := Num 15; opt_totalCost := 0;
     localTimeMin := Num 0; localDistanceMeters := 0; usesDistanceMatrix := false;
     legs := [ {| leg_mode := bus; leg_submode := None; leg_route_id := Some rid;
                  leg_trip_id := Some tid; leg_from := "A"; leg_to := "C";
                  leg_departure := Some "08:00"; leg_arrival := Some "08:10";
                  leg_durationMin := Some (Num 10); leg_distanceMeters := None;
                  leg_cost := Some 0; leg_source := Some graph_source |} ] |}.

Definition scenario_route (rid name tid : string) (dir : Direction) : Route :=
  {| route_id := rid; route_name := name; trips := [scenario_trip tid dir] |}.

(** The state after [n] more calls of [getLocalSegment] that changed
    nothing else. *)
Definition counted (n : nat) (s : Sys) : Sys :=
  {| client := client s; sent := sent s; calls := (n + calls s)%nat |}.

(** The identity of an option, as the specification words it: the
    sequence of (from, to, mode) of its legs. *)
Definition leg_identity (o : RouteOption) : list (string * string * Mode) :=
  map (fun leg => (leg_from leg, leg_to leg, leg_mode leg)) (legs o).

(** A trip qualifies for the Direct strategy, as the specification words
    it: it calls at both stops, boarding before alighting, and its estimated
    boarding time is not earlier than the requested time. *)
Definition qualifies (from to : string) (requestMin : Z) (trip : Trip) : bool :=
  let boarding := indexOf from (stops trip) in
  let alighting := indexOf to (stops trip) in
  negb (boarding =? -1) && negb (alighting =? -1) && (boarding <? alighting) &&
  match minutesOf (departure_time trip) with
  | Some dep => requestMin <=? dep + boarding * 5
  | None => false
  end.

(** The option rides this trip of this route. *)
Definition carries_trip (route : Route) (trip : Trip) (o : RouteOption) : bool :=
  existsb (fun leg => bool_decide (leg_route_id leg = Some (route_id route) /\
                                   leg_trip_id leg = Some (trip_id trip)))
          (legs o).

(* ===================================================================== *)
(** * Vocabulary of the further properties *)
(* ===================================================================== *)

(** The minutes of a day. *)
Definition day_minutes : list Z := map Z.of_nat (seq 0 1440).

(** ** The adjacency list a data set denotes *)

(** The [EdgeInfo] pushed for an edge at its [from] end, and the one pushed
    at its [to] end when the edge is two-way. *)
Definition forward_info (edge : Edge) : EdgeInfo :=
  {| ei_to := edge_to edge; ei_mode := edge_mode edge;
     ei_route_ids := edge_route_ids edge;
     ei_time_min := edge_time_min edge; ei_cost := edge_cost edge |}.

Definition backward_info (edge : Edge) : EdgeInfo :=
  {| ei_to := edge_from edge; ei_mode := edge_mode edge;
     ei_route_ids := edge_route_ids edge;
     ei_time_min := edge_time_min edge; ei_cost := edge_cost edge |}.

(** What one edge contributes to the neighbours of [x]. *)
Definition contribution (x : string) (edge : Edge) : list EdgeInfo :=
  (if String.eqb (edge_from edge) x then [forward_info edge] else []) ++
  (if negb (one_way edge) && String.eqb (edge_to edge) x then [backward_info edge] else []).

Definition known (d : GraphData) (x : string) : Prop := x ∈ map node_id (gd_nodes d).

(** The names [Object.prototype] defines.  The adjacency list is a plain
    object: looking up one of these names in it finds the inherited property
    although no node has the name, and with a node called "__proto__" the
    object inherits from that node's array instead. *)
Definition Object_prototype_keys : list string :=
  ["constructor"; "__defineGetter__"; "__defineSetter__"; "hasOwnProperty";
   "__lookupGetter__"; "__lookupSetter__"; "isPrototypeOf"; "propertyIsEnumerable";
   "toString"; "valueOf"; "__proto__"; "toLocaleString"].

(** The ends of an edge at which [buildAdjacencyList] pushes are nodes. *)
Definition anchored (d : GraphData) (edge : Edge) : Prop :=
  known d (edge_from edge) /\ (one_way edge = false -> known d (edge_to edge)).

(** ** The shortest-path tree *)

(** [follows g modes p es]: the edges [es] lead along the nodes [p], edge [i]
    from [p[i]] to [p[i + 1]], each an allowed edge of the adjacency list. *)
Fixpoint follows (g : Graph) (modes : list Mode) (p : list string) (es : list EdgeInfo)
    : Prop :=
  match p, es with
  | [_], [] => True
  | x :: ((y :: _) as p'), e :: es' =>
      e ∈ getNeighbors g x /\ ei_mode e ∈ modes /\ ei_to e = y /\ follows g modes p' es'
  | _, _ => False
  end.

(** The sum of a quantity over a list of edges. *)
Definition total (f : EdgeInfo -> Z) (es : list EdgeInfo) : Z :=
  fold_right (fun e acc => f e + acc) 0 es.

(** What [previous], [edgeMap], [distances] and [costs] record together:
    the edge stored for a node leads to it from its predecessor, which has
    been visited, and accounts for the node's tentative time and cost. *)
Record Tree (g : Graph) (modes : list Mode) (src : string) (st : Dijkstra) : Prop := {
  tr_src_dist : distances st !! src = Some (Num 0);
  tr_src_cost : costs st !! src = Some 0;
  tr_src_prev : forall p, previous st !! src <> Some (Some p);
  tr_nonneg : forall v d, distances st !! v = Some (Num d) -> 0 <= d;
  tr_root : forall v d, distances st !! v = Some (Num d) -> v <> src ->
            exists p, previous st !! v = Some (Some p);
  tr_link : forall v p, previous st !! v = Some (Some p) ->
            exists e dp cp,
              edgeMap st !! v = Some e /\ e ∈ getNeighbors g p /\
              ei_mode e ∈ modes /\ ei_to e = v /\
              distances st !! p = Some (Num dp) /\
              distances st !! v = Some (Num (dp + ei_time_min e)) /\
              costs st !! p = Some cp /\ costs st !! v = Some (cp + ei_cost e) /\
              p ∉ unvisited st
}.

Arguments tr_src_dist {g modes src st} _.
Arguments tr_src_cost {g modes src st} _.
Arguments tr_src_prev {g modes src st} _.
Arguments tr_nonneg {g modes src st} _.
Arguments tr_root {g modes src st} _.
Arguments tr_link {g modes src st} _.

(** Neither counter is above its limit. *)
Definition within_quota (u : UsageStats) : Prop :=
  monthlyCount u <= MONTHLY_LIMIT /\ dailyCount u <= DAILY_LIMIT.

(** ** Runs of the client with calls in flight *)

(** The client with the calls that are suspended, oldest first, and the
    outcomes of the calls that have ended. *)
Record Pool := {
  sys : Sys;
  in_flight : list Pending;
  finished : list (Outcome DistanceMatrixResult)
}.

Definition idle (s : Sys) : Pool := {| sys := s; in_flight := []; finished := [] |}.

(** What the event loop runs next: a handler calls [getLocalSegment], or
    the promise of the call in flight at index [i] settles. *)
Inductive Event :=
| Start (c : Call)
| Settle (i : nat).

Definition step (g : Graph) (p : Pool) (e : Event) : Pool :=
  match e with
  | Start c =>
      let '(r, s1) := segment_begin g (call_world c) (call_origin c) (call_dest c)
                        (call_mode c) (sys p) in
      match r with
      | Returns (inr pending) =>
          {| sys := s1; in_flight := in_flight p ++ [pending]; finished := finished p |}
      | Returns (inl result) =>
          {| sys := s1; in_flight := in_flight p;
             finished := finished p ++ [Returns result] |}
      | Throws message =>
          {| sys := s1; in_flight := in_flight p;
             finished := finished p ++ [Throws message] |}
      | Diverges =>
          {| sys := s1; in_flight := in_flight p; finished := finished p ++ [Diverges] |}
      | Unmodelled =>
          {| sys := s1; in_flight := in_flight p; finished := finished p ++ [Unmodelled] |}
      end
  | Settle i =>
      match in_flight p !! i with
      | Some pending =>
          let '(r, s1) := segment_settle pending (sys p) in
          {| sys := s1; in_flight := delete i (in_flight p);
             finished := finished p ++ [r] |}
      | None => p
      end
  end.

Definition run_events (g : Graph) (es : list Event) (p : Pool) : Pool :=
  fold_left (step g) es p.

(** The largest number of calls in flight at any point of the run. *)
Fixpoint peak (g : Graph) (es : list Event) (p : Pool) : nat :=
  match es with
  | [] => length (in_flight p)
  | e :: es' => Nat.max (length (in_flight p)) (peak g es' (step g p e))
  end.

(** The calls made one after the other, each awaited before the next. *)
Definition one_by_one (cs : list Call) : list Event :=
  flat_map (fun c => [Start c; Settle 0]) cs.

(** The invariant of a run with at most [k] calls in flight: each counter
    and the number of calls in flight add up to less than the limit plus
    [k]. *)
Definition bounded (k : nat) (p : Pool) : Prop :=
  (length (in_flight p) <= k)%nat /\
  monthlyCount (stats (sys p)) + Z.of_nat (length (in_flight p))
    <= MONTHLY_LIMIT + Z.of_nat k - 1 /\
  dailyCount (stats (sys p)) + Z.of_nat (length (in_flight p))
    <= DAILY_LIMIT + Z.of_nat k - 1.

(** The entry a successful answer is stored as. *)
Definition stored (w : World) (r : DistanceMatrixResult) : CacheEntry :=
  {| ce_distanceMeters := default 0 (distanceMeters r);
     ce_durationSeconds := default 0 (durationSeconds r);
     timestamp := now_after w |}.

(** ** Itineraries *)

(** The legs lead from [a] to [b], each one starting where the one before
    it ends. *)
Fixpoint connects (a : string) (ls : list RouteLeg) (b : string) : Prop :=
  match ls with
  | [] => a = b
  | leg :: ls' => leg_from leg = a /\ connects (leg_to leg) ls' b
  end.

(** Every trip of the timetable leaves at a time [parseTime] reads. *)
Definition timetabled (g : Graph) : Prop :=
  forall route trip, route ∈ getAllRoutes g -> trip ∈ trips route ->
    is_Some (parseTime (departure_time trip)).

(** One bus leg from [from] to [to], with its times. *)
Definition direct_shape (from to : string) (o : RouteOption) : Prop :=
  exists leg dep arr,
    legs o = [leg] /\ leg_mode leg = bus /\ leg_from leg = from /\ leg_to leg = to /\
    leg_departure leg = Some dep /\ leg_arrival leg = Some arr /\
    is_Some (leg_durationMin leg) /\
    is_Some (parseTime dep) /\ is_Some (parseTime arr).

(** ** Reasoning about the monad *)

(** [m] keeps the property [P] of the state, however it ends. *)
Definition preserves {A} (P : Sys -> Prop) (m : M A) : Prop :=
  forall s, P s -> P (snd (m s)).

(** What [m] returns, when it returns, satisfies [Q]. *)
Definition ensures {A} (Q : A -> Prop) (m : M A) : Prop :=
  forall s a s', m s = (Returns a, s') -> Q a.

(** [m] returns: it neither throws nor diverges nor leaves the model. *)
Definition returns {A} (m : M A) : Prop :=
  forall s, exists a s', m s = (Returns a, s').



(* ===================================================================== *)
(** * Sample data *)
(* ===================================================================== *)

Definition sample_node (i : string) : Node :=
  {| node_id := i; node_name := i; node_type := stop; gmaps_address := i +:+ ", Sylhet" |}.

Definition sample_edge (f t : string) (m : Mode) (time cost : Z) : Edge :=
  {| edge_from := f; edge_to := t; edge_mode := m; edge_route_ids := None;
     edge_time_min := time; edge_cost := cost; one_way := false |}.

Definition sample_trip (i : string) (ss : list string) (dep : string) : Trip :=
  {| trip_id := i; direction := to_campus; stops := ss; departure_time := dep |}.

Definition load (d : GraphData) : Graph := default emptyGraph (loadData d).

(** Two stops joined by a local edge and by one bus trip. *)
Definition duplicate_graph : Graph :=
  load {| gd_nodes := [sample_node "A"; sample_node "C"];
          gd_edges := [sample_edge "A" "C" local 10 20];
          gd_routes := [ {| route_id := "bus1"; route_name := "Bus 1";
                            trips := [sample_trip "bus1_0900" ["A"; "C"] "09:00"] |} ] |}.

(** One route with two trips that both serve A then B. *)
Definition later_trip : Trip := sample_trip "bus1_0900" ["A"; "B"] "09:00".

Definition two_trips_route : Route :=
  {| route_id := "bus1"; route_name := "Bus 1";
     trips := [sample_trip "bus1_0800" ["A"; "B"] "08:00"; later_trip] |}.

Definition two_trips_graph : Graph :=
  load {| gd_nodes := [sample_node "A"; sample_node "B"];
          gd_edges := [];
          gd_routes := [two_trips_route] |}.

(** A small network of local and walking edges. *)
Definition local_data : GraphData :=
  {| gd_nodes := [sample_node "A"; sample_node "B"; sample_node "C"; sample_node "D"];
     gd_edges := [sample_edge "A" "B" local 10 30; sample_edge "B" "C" walk 3 0;
                  sample_edge "A" "C" local 20 50; sample_edge "C" "D" bus 1 0];
     gd_routes := [] |}.

Definition local_graph : Graph := load local_data.

Definition sample_stats (monthly daily : Z) : UsageStats :=
  {| monthlyCount := monthly; dailyCount := daily; lastReset := "2024-03-10";
     cacheHits := 0; cacheMisses := 0 |}.

(** An entry stored on 2024-03-10 at 07:00 UTC. *)
Definition sample_entry : CacheEntry :=
  {| ce_distanceMeters := 1500; ce_durationSeconds := 360;
     timestamp := 1710054000000 |}.

Definition sample_sys (k : string) (c : gmap string CacheEntry) (monthly daily : Z) : Sys :=
  {| client := {| apiKey := k; cache := c; usageStats := sample_stats monthly daily |};
     sent := []; calls := 0 |}.

Definition ok_body : ResponseData :=
  {| status := Some "OK";
     rows := Some [ {| elements := Some [ {| el_status := Some "OK";
                                            el_distance := Some 1500;
                                            el_duration := Some 360 |} ] |} ] |}.


Definition sample_world (iso : string) (t : Z) (answer : AxiosOutcome) : World :=
  {| isoDate := iso; now := t; axios_get := fun _ => answer; now_after := t + 200 |}.

Definition unconfigured : Sys := sample_sys "" ∅ 0 0.
Definition offline (n : nat) : World :=
  sample_world "2024-03-10T08:00:00.000Z" 1710057600000
    (Rejected "timeout of 10000ms exceeded").

(** The graph of the scenario: three stops along one bus line. *)
Definition scenario_data : GraphData :=
  {| gd_nodes := [sample_node "A"; sample_node "B"; sample_node "C"];
     gd_edges := [sample_edge "A" "B" bus 4 0; sample_edge "B" "C" bus 6 0];
     gd_routes := [scenario_route "bus1" "Bus 1" "bus1_0800" to_campus] |}.

Definition scenario_graph : Graph := load scenario_data.

(** Calls made on 2024-03-10 and on 2024-03-11 at 08:00 UTC. *)
Definition same_day (answer : AxiosOutcome) : World :=
  sample_world "2024-03-10T08:00:00.000Z" 1710057600000 answer.
Definition next_day (answer : AxiosOutcome) : World :=
  sample_world "2024-03-11T08:00:00.000Z" 1710144000000 answer.

Definition warm_cache : gmap string CacheEntry := {[ "A|B|driving" := sample_entry ]}.

Definition sample_calls : list Call :=
  [ {| call_world := same_day (Resolved (Some ok_body)); call_origin := "A";
       call_dest := "B"; call_mode := driving |};
    {| call_world := same_day (Resolved (Some ok_body)); call_origin := "A";
       call_dest := "C"; call_mode := driving |};
    {| call_world := same_day (Rejected "timeout"); call_origin := "B";
       call_dest := "C"; call_mode := walking |} ].


Definition sample_request : Request :=
  {| origins := "A, Sylhet"; destinations := "B, Sylhet"; req_mode := driving;
     key := "key"; timeout := 10000 |}.




(** A provider that answers every request with [ok_body]. *)
Definition answering (n : nat) : World := same_day (Resolved (Some ok_body)).

(** ** Samples for the further properties *)

(** Two calls for different pairs, made while the counters stand one below
    their limits; the second starts before the first has been answered. *)
Definition call_AB : Call :=
  {| call_world := same_day (Resolved (Some ok_body)); call_origin := "A";
     call_dest := "B"; call_mode := driving |}.
Definition call_AC : Call :=
  {| call_world := same_day (Resolved (Some ok_body)); call_origin := "A";
     call_dest := "C"; call_mode := driving |}.
Definition overlapping : list Event := [Start call_AB; Start call_AC; Settle 0; Settle 0].

(** The shortest local path from A to C in [local_graph]. *)
Definition sample_path : PathResult :=
  {| found := true; path := ["A"; "B"; "C"]; totalTime := Num 13; totalCost := 30;
     pr_edges := [ {| ei_to := "B"; ei_mode := local; ei_route_ids := None;
                      ei_time_min := 10; ei_cost := 30 |};
                   {| ei_to := "C"; ei_mode := walk; ei_route_ids := None;
                      ei_time_min := 3; ei_cost := 0 |} ] |}.

(** The result of a call the provider answered with [ok_body]. *)
Definition ok_result : DistanceMatrixResult :=
  {| ok := true; distanceMeters := Some 1500; durationSeconds := Some 360;
     raw := Some ok_body; errorMessage := None; fromCache := Some false |}.

(** Two lines that meet at B: a bus reaches B at 08:05, the other leaves
    B at 08:15. *)
Definition feeder_route : Route :=
  {| route_id := "bus1"; route_name := "Bus 1";
     trips := [sample_trip "bus1_0800" ["A"; "B"] "08:00"] |}.

Definition trunk_route : Route :=
  {| route_id := "bus2"; route_name := "Bus 2";
     trips := [sample_trip "bus2_0815" ["B"; "C"] "08:15"] |}.

Definition bus_leg (rid tid from to dep arr : string) (duration : Z) : RouteLeg :=
  {| leg_mode := bus; leg_submode := None; leg_route_id := Some rid;
     leg_trip_id := Some tid; leg_from := from; leg_to := to;
     leg_departure := Some dep; leg_arrival := Some arr;
     leg_durationMin := Some (Num duration); leg_distanceMeters := None;
     leg_cost := Some 0; leg_source := Some graph_source |}.

Definition transfer_option : RouteOption :=
  {| label := "Transfer at B"; category := fastest; option_type := transfer;
     transfers := 1; totalTimeMin := Num 30; opt_totalCost := 0;
     localTimeMin := Num 0; localDistanceMeters := 0; usesDistanceMatrix := false;
     legs := [bus_leg "bus1" "bus1_0800" "A" "B" "08:00" "08:05" 5;
              bus_leg "bus2" "bus2_0815" "B" "C" "08:15" "08:20" 5] |}.

(** A bus from A to B, and a local edge from B to C. *)
Definition hybrid_data : GraphData :=
  {| gd_nodes := [sample_node "A"; sample_node "B"; sample_node "C"];
     gd_edges := [sample_edge "B" "C" local 7 20];
     gd_routes := [feeder_route] |}.

Definition hybrid_graph : Graph := load hybrid_data.

Definition hybrid_option : RouteOption :=
  {| label := "Bus 1 + Local"; category := fastest; option_type := direct;
     transfers := 0; totalTimeMin := Num 22; opt_totalCost := 20;
     localTimeMin := Num 7; localDistanceMeters := 0; usesDistanceMatrix := false;
     legs := [bus_leg "bus1" "bus1_0800" "A" "B" "08:00" "08:05" 5;
              {| leg_mode := local; leg_submode := Some driving; leg_route_id := None;
                 leg_trip_id := None; leg_from := "B"; leg_to := "C";
                 leg_departure := None; leg_arrival := None;
                 leg_durationMin := Some (Num 7); leg_distanceMeters := Some 0;
                 leg_cost := Some 20; leg_source := Some graph_source |}] |}.

Definition hybrid_response : RouteResponse :=
  {| resp_from := "A"; resp_to := "C"; resp_requestTime := "07:50";
     options := [mark fastest "Fastest Route" hybrid_option] |}.

(* ===================================================================== *)
(** * The Distance Matrix client: proofs *)
(* ===================================================================== *)

Lemma isCacheValid_spec w e :
  isCacheValid w e = true <-> now w - timestamp e < TTL_MS.
Proof.
  unfold isCacheValid, TTL_MS, CACHE_TTL_DAYS.
  rewrite negb_true_iff, <- not_true_iff_false, Qle_bool_iff.
  change (1000 * 60 * 60 * 24) with 86400000.
  unfold Qle, Qdiv, Qmult, Qinv, inject_Z; simpl.
  lia.
Qed.

Lemma isCacheValid_stale w e :
  isCacheValid w e = false <-> TTL_MS <= now w - timestamp e.
Proof.
  rewrite <- not_true_iff_false, isCacheValid_spec. lia.
Qed.

(** ** Unfolding lemmas *)

Lemma eqb_empty_false (k : string) : k <> "" -> String.eqb k "" = false.
Proof. intros H. apply String.eqb_neq. exact H. Qed.

Lemma getLocalSegment_unconfigured g w o d m s :
  apiKey (client s) = "" ->
  getLocalSegment g w o d m s =
    (Returns (failure "Distance Matrix API key not configured"), s).
Proof.
  intros H. unfold getLocalSegment, mbind, M_bind, get_client. simpl.
  rewrite H. reflexivity.
Qed.

Lemma getLocalSegment_configured g w o d m s :
  configured s ->
  getLocalSegment g w o d m s =
    match fresh_entry w (client s) (cacheKey_of o d m) with
    | Some e =>
        (Returns (cache_hit e),
         with_stats (with_cacheHits (cacheHits (rolled w s) + 1) (rolled w s)) s)
    | None => fresh_segment g w o d m (cacheKey_of o d m) (with_stats (rolled w s) s)
    end.
Proof.
  intros H. unfold getLocalSegment, mbind, M_bind, get_client. simpl.
  rewrite (eqb_empty_false _ H).
  unfold fresh_entry, checkAndResetCounters, set_stats, mbind, M_bind, get_client,
    put_client. simpl.
  destruct (cache (client s) !! cacheKey_of o d m) as [e|] eqn:E; [|reflexivity].
  destruct (isCacheValid w e); reflexivity.
Qed.

Ltac run_monad :=
  unfold set_stats, set_cache, get_client, put_client, defined, throw, lift,
    axios_get_call, try_catch, first_element;
  unfold mbind, M_bind, mret, M_ret; simpl.

Ltac leaf :=
  eexists _, _; split; [reflexivity|]; simpl;
  repeat split; try discriminate; eauto;
  intros; simplify_eq; try congruence; try reflexivity.

Lemma fresh_segment_monthly g w o d m k s :
  MONTHLY_LIMIT <= monthlyCount (stats s) ->
  fresh_segment g w o d m k s = (Returns (failure "Monthly API quota exceeded"), s).
Proof.
  intros H. unfold fresh_segment. run_monad.
  destruct (Z.leb_spec MONTHLY_LIMIT (monthlyCount (usageStats (client s))));
    [reflexivity | unfold stats in H; lia].
Qed.

Lemma fresh_segment_daily g w o d m k s :
  monthlyCount (stats s) < MONTHLY_LIMIT ->
  DAILY_LIMIT <= dailyCount (stats s) ->
  fresh_segment g w o d m k s = (Returns (failure "Daily API quota exceeded"), s).
Proof.
  intros Hm Hd. unfold fresh_segment. run_monad. unfold stats in *.
  destruct (Z.leb_spec MONTHLY_LIMIT (monthlyCount (usageStats (client s)))); [lia|].
  destruct (Z.leb_spec DAILY_LIMIT (dailyCount (usageStats (client s)))); [reflexivity|lia].
Qed.

Lemma fresh_segment_invalid g w o d m k s :
  monthlyCount (stats s) < MONTHLY_LIMIT ->
  dailyCount (stats s) < DAILY_LIMIT ->
  the_request g s o d m = None ->
  fresh_segment g w o d m k s = (Returns (failure "Invalid node IDs"), s).
Proof.
  intros Hm Hd Hr. unfold fresh_segment. run_monad. unfold stats, the_request in *.
  destruct (Z.leb_spec MONTHLY_LIMIT (monthlyCount (usageStats (client s)))); [lia|].
  destruct (Z.leb_spec DAILY_LIMIT (dailyCount (usageStats (client s)))); [lia|].
  destruct (getNode g o); [destruct (getNode g d)|]; try discriminate; reflexivity.
Qed.

Lemma fresh_segment_request g w o d m k s req :
  monthlyCount (stats s) < MONTHLY_LIMIT ->
  dailyCount (stats s) < DAILY_LIMIT ->
  the_request g s o d m = Some req ->
  fresh_segment g w o d m k s =
    try_catch (request_segment w k req)
      (fun message => mret (network_failure message))
      (with_stats (with_cacheMisses (cacheMisses (stats s) + 1) (stats s)) s).
Proof.
  intros Hm Hd Hr. unfold fresh_segment. unfold stats, the_request in *.
  unfold mbind at 1. unfold M_bind at 1. unfold get_client at 1.
  destruct (Z.leb_spec MONTHLY_LIMIT (monthlyCount (usageStats (client s)))); [lia|].
  destruct (Z.leb_spec DAILY_LIMIT (dailyCount (usageStats (client s)))); [lia|].
  destruct (getNode g o); [destruct (getNode g d)|]; try discriminate.
  injection Hr as <-. reflexivity.
Qed.

Lemma request_rejected w k req s message :
  axios_get w req = Rejected message ->
  try_catch (request_segment w k req) (fun message => mret (network_failure message)) s
  = (Returns (network_failure message), logged req s).
Proof.
  intros H. unfold request_segment. run_monad. rewrite H. reflexivity.
Qed.

Lemma request_resolved w k req s data :
  axios_get w req = Resolved data ->
  exists r s',
    try_catch (request_segment w k req) (fun message => mret (network_failure message)) s
      = (Returns r, s') /\
    sent s' = sent s ++ [req] /\ calls s' = calls s /\
    apiKey (client s') = apiKey (client s) /\
    usageStats (client s') = usageStats (client (answered req s)) /\
    (ok r = false -> is_Some (errorMessage r) /\ cache (client s') = cache (client s)) /\
    (forall body, data = Some body -> is_OK (status body) = false ->
       r = {| ok := false; distanceMeters := None; durationSeconds := None;
              raw := Some body;
              errorMessage := Some ("API status: " +:+ show_undefined (status body));
              fromCache := None |}) /\
    (forall body row rs el els, data = Some body -> is_OK (status body) = true ->
       rows body = Some (row :: rs) -> elements row = Some (el :: els) ->
       is_OK (el_status el) = false ->
       r = {| ok := false; distanceMeters := None; durationSeconds := None;
              raw := Some body;
              errorMessage := Some ("Element status: " +:+ status_or_missing (Some el));
              fromCache := None |}) /\
    fromCache r <> Some true.
Proof.
  intros H. unfold request_segment. run_monad. rewrite H.
  destruct data as [body|]; simpl; [|leaf].
  destruct (is_OK (status body)) eqn:Hst; simpl; [|leaf].
  run_monad.
  destruct (rows body) as [[|row rs]|] eqn:Hrows; simpl; [leaf| |leaf].
  destruct (elements row) as [[|el els]|] eqn:Hels; simpl; [leaf| |leaf].
  destruct (is_OK (el_status el)) eqn:Hel; simpl; leaf.
Qed.

Lemma fresh_segment_outcome g w o d m k s :
  exists r s', fresh_segment g w o d m k s = (Returns r, s') /\
               fresh_outcome g w o d m k s r s'.
Proof.
  destruct (Z.le_gt_cases MONTHLY_LIMIT (monthlyCount (stats s))) as [Hm|Hm].
  { eexists _, _. split; [apply fresh_segment_monthly; assumption|].
    constructor; assumption. }
  destruct (Z.le_gt_cases DAILY_LIMIT (dailyCount (stats s))) as [Hd|Hd].
  { eexists _, _. split; [apply fresh_segment_daily; assumption|].
    constructor; assumption. }
  destruct (the_request g s o d m) as [req|] eqn:Hreq.
  2:{ eexists _, _. split; [apply fresh_segment_invalid; assumption|].
      constructor; assumption. }
  rewrite (fresh_segment_request _ _ _ _ _ _ _ req Hm Hd Hreq).
  fold (missed s).
  destruct (axios_get w req) as [message|data] eqn:Hax.
  - rewrite (request_rejected _ _ _ _ _ Hax).
    eexists _, _. split; [reflexivity|]. eapply fo_rejected; eassumption.
  - destruct (request_resolved w k req (missed s) data Hax) as (r & s' & Heq & _).
    exists r, s'. split; [exact Heq|]. eapply fo_resolved; eassumption.
Qed.

Lemma getLocalSegment_outcome g w o d m s :
  exists r s', getLocalSegment g w o d m s = (Returns r, s') /\
               segment_outcome g w o d m s r s'.
Proof.
  destruct (String.eqb_spec (apiKey (client s)) "") as [Hk|Hk].
  { eexists _, _. split; [apply getLocalSegment_unconfigured; assumption|].
    constructor; assumption. }
  rewrite (getLocalSegment_configured _ _ _ _ _ _ Hk).
  destruct (fresh_entry w (client s) (cacheKey_of o d m)) as [e|] eqn:He.
  { eexists _, _. split; [reflexivity|]. apply so_hit; assumption. }
  destruct (fresh_segment_outcome g w o d m (cacheKey_of o d m)
              (with_stats (rolled w s) s)) as (r & s' & Heq & Ho).
  exists r, s'. split; [exact Heq|]. apply so_fresh; assumption.
Qed.

(** A call that sends nothing leaves the log as it was; a call that sends
    a request appends exactly this request. *)
Lemma fresh_outcome_sent g w o d m k s r s' :
  fresh_outcome g w o d m k s r s' ->
  sent s' = sent s \/
  exists req data_or_error, the_request g s o d m = Some req /\
                  sent s' = sent s ++ [req] /\ axios_get w req = data_or_error.
Proof.
  intros H. destruct H; auto.
  - right. eexists _, _. repeat split; eauto.
  - right.
    destruct (request_resolved w k req (missed s) data H2) as (r' & s'' & Heq & Hs & _).
    unfold on_error in H3. rewrite Heq in H3. simplify_eq.
    eexists _, _. repeat split; eauto.
Qed.

Lemma rolled_same_day w s :
  lastReset (stats s) = today w -> rolled w s = stats s.
Proof.
  intros H. unfold rolled, resetCounters_on. rewrite H, String.eqb_refl. reflexivity.
Qed.

Lemma rolled_misses w s : cacheMisses (rolled w s) = cacheMisses (stats s).
Proof.
  unfold rolled, resetCounters_on.
  destruct (negb _); [|reflexivity]. simpl. destruct (negb _); reflexivity.
Qed.

Lemma rolled_hits w s : cacheHits (rolled w s) = cacheHits (stats s).
Proof.
  unfold rolled, resetCounters_on.
  destruct (negb _); [|reflexivity]. simpl. destruct (negb _); reflexivity.
Qed.

Lemma stats_with_stats u s : stats (with_stats u s) = u.
Proof. reflexivity. Qed.

Lemma with_stats_id s : with_stats (stats s) s = s.
Proof. destruct s as [[k c u] l n]. reflexivity. Qed.

Lemma fresh_entry_valid w c k e :
  cache c !! k = Some e -> now w - timestamp e < TTL_MS -> fresh_entry w c k = Some e.
Proof.
  intros H1 H2. unfold fresh_entry. rewrite H1.
  apply isCacheValid_spec in H2. rewrite H2. reflexivity.
Qed.

Lemma fresh_entry_stale w c k e :
  cache c !! k = Some e -> TTL_MS <= now w - timestamp e -> fresh_entry w c k = None.
Proof.
  intros H1 H2. unfold fresh_entry. rewrite H1.
  apply isCacheValid_stale in H2. rewrite H2. reflexivity.
Qed.

Lemma fresh_outcome_not_from_cache g w o d m k s r s' :
  fresh_outcome g w o d m k s r s' -> fromCache r <> Some true.
Proof.
  intros H. destruct H; try discriminate.
  destruct (request_resolved w k req (missed s) data H2)
    as (r' & s'' & Heq & _ & _ & _ & _ & _ & _ & _ & Hfc).
  unfold on_error in H3. rewrite Heq in H3. simplify_eq. exact Hfc.
Qed.

Lemma fresh_outcome_misses g w o d m k s r s' :
  fresh_outcome g w o d m k s r s' ->
  cacheMisses (stats s') =
    if (monthlyCount (stats s) <? MONTHLY_LIMIT) && (dailyCount (stats s) <? DAILY_LIMIT)
       && bool_decide (is_Some (the_request g s o d m))
    then cacheMisses (stats s) + 1 else cacheMisses (stats s).
Proof.
  intros H. destruct H.
  - destruct (Z.ltb_spec (monthlyCount (stats s)) MONTHLY_LIMIT); [lia|reflexivity].
  - destruct (Z.ltb_spec (monthlyCount (stats s)) MONTHLY_LIMIT); [|lia].
    destruct (Z.ltb_spec (dailyCount (stats s)) DAILY_LIMIT); [lia|reflexivity].
  - destruct (Z.ltb_spec (monthlyCount (stats s)) MONTHLY_LIMIT); [|lia].
    destruct (Z.ltb_spec (dailyCount (stats s)) DAILY_LIMIT); [|lia].
    rewrite H1. rewrite bool_decide_eq_false_2; [reflexivity|].
    intros [? ?]; discriminate.
  - destruct (Z.ltb_spec (monthlyCount (stats s)) MONTHLY_LIMIT); [|lia].
    destruct (Z.ltb_spec (dailyCount (stats s)) DAILY_LIMIT); [|lia].
    rewrite H1. rewrite bool_decide_eq_true_2; [reflexivity|eauto].
  - destruct (Z.ltb_spec (monthlyCount (stats s)) MONTHLY_LIMIT); [|lia].
    destruct (Z.ltb_spec (dailyCount (stats s)) DAILY_LIMIT); [|lia].
    rewrite H1. rewrite bool_decide_eq_true_2; [|eauto]. simpl.
    destruct (request_resolved w k req (missed s) data H2)
      as (r' & s'' & Heq & _ & _ & _ & Hu & _).
    unfold on_error in H3. rewrite Heq in H3. simplify_eq.
    unfold stats at 1. rewrite Hu. reflexivity.
Qed.


(** C6, amended.  A configured call whose cache entry for the key exists
    and is younger than seven days returns the entry's distance and duration
    marked [fromCache = true], adds one to [cacheHits], sends nothing and
    does not increment [dailyCount] or [monthlyCount]: they are as the
    roll-over at the start of the call leaves them, hence unchanged when
    [lastReset] is today.  An entry aged seven days or more is never served
    as a hit. *)
Theorem cache_hit_served g w o d m s e :
  configured s ->
  cache (client s) !! cacheKey_of o d m = Some e ->
  (now w - timestamp e < TTL_MS ->
     exists s', getLocalSegment g w o d m s = (Returns (cache_hit e), s') /\
       cacheHits (stats s') = cacheHits (stats s) + 1 /\
       dailyCount (stats s') = dailyCount (rolled w s) /\
       monthlyCount (stats s') = monthlyCount (rolled w s) /\
       (lastReset (stats s) = today w ->
          dailyCount (stats s') = dailyCount (stats s) /\
          monthlyCount (stats s') = monthlyCount (stats s)) /\
       sent s' = sent s /\ cache (client s') = cache (client s)) /\
  (TTL_MS <= now w - timestamp e ->
     forall r s', getLocalSegment g w o d m s = (Returns r, s') ->
                  fromCache r <> Some true).
Proof.
  intros Hk Hc. split.
  - intros Hage.
    rewrite (getLocalSegment_configured _ _ _ _ _ _ Hk).
    rewrite (fresh_entry_valid _ _ _ _ Hc Hage).
    eexists. split; [reflexivity|]. rewrite !stats_with_stats.
    cbn [cacheHits dailyCount monthlyCount with_cacheHits].
    rewrite rolled_hits. repeat split; try reflexivity.
    + rewrite (rolled_same_day _ _ H). reflexivity.
    + rewrite (rolled_same_day _ _ H). reflexivity.
  - intros Hage r s' Heq.
    rewrite (getLocalSegment_configured _ _ _ _ _ _ Hk) in Heq.
    rewrite (fresh_entry_stale _ _ _ _ Hc Hage) in Heq.
    destruct (fresh_segment_outcome g w o d m (cacheKey_of o d m)
                (with_stats (rolled w s) s)) as (r1 & s1 & Heq1 & Ho).
    rewrite Heq1 in Heq. simplify_eq.
    eapply fresh_outcome_not_from_cache; eassumption.
Qed.

(** ** Quota *)

Lemma quota_call g w o d m s :
  configured s ->
  today w = lastReset (stats s) ->
  quota_exhausted (stats s) ->
  exists s',
    getLocalSegment g w o d m s =
      (Returns (served_without_network (client s)
                  {| call_world := w; call_origin := o; call_dest := d; call_mode := m |}),
       s') /\
    sent s' = sent s /\ apiKey (client s') = apiKey (client s) /\
    cache (client s') = cache (client s) /\
    monthlyCount (stats s') = monthlyCount (stats s) /\
    dailyCount (stats s') = dailyCount (stats s) /\
    lastReset (stats s') = lastReset (stats s).
Proof.
  intros Hk Hday Hq.
  rewrite (getLocalSegment_configured _ _ _ _ _ _ Hk).
  unfold served_without_network, call_key. simpl.
  rewrite (rolled_same_day w s (eq_sym Hday)), with_stats_id.
  destruct (fresh_entry w (client s) (cacheKey_of o d m)) as [e|].
  { eexists. split; [reflexivity|]. repeat split. }
  destruct (Z.leb_spec MONTHLY_LIMIT (monthlyCount (usageStats (client s)))) as [Hm|Hm].
  { rewrite fresh_segment_monthly by exact Hm. eexists. repeat split. }
  destruct Hq as [Hd|Hm']; [|unfold stats in Hm'; lia].
  rewrite fresh_segment_daily by assumption. eexists. repeat split.
Qed.

Lemma served_without_network_ext c1 c2 call :
  cache c1 = cache c2 -> monthlyCount (usageStats c1) = monthlyCount (usageStats c2) ->
  served_without_network c1 call = served_without_network c2 call.
Proof.
  intros Hc Hm. unfold served_without_network, fresh_entry. rewrite Hc, Hm. reflexivity.
Qed.

(** C4, amended.  Once a quota is used up, no configured call of the same
    calendar day sends a request: each is served from a fresh cache entry if
    there is one, and otherwise fails, with the monthly message when
    [monthlyCount] has reached its limit (this check comes first) and with
    the daily message when only [dailyCount] has; the counters stay as they
    are. *)
Theorem quota_discipline g cs s :
  configured s ->
  Forall (fun c => today (call_world c) = lastReset (stats s)) cs ->
  quota_exhausted (stats s) ->
  exists s',
    run_calls g cs s =
      (map (fun c => Returns (served_without_network (client s) c)) cs, s') /\
    sent s' = sent s /\
    dailyCount (stats s') = dailyCount (stats s) /\
    monthlyCount (stats s') = monthlyCount (stats s) /\
    lastReset (stats s') = lastReset (stats s).
Proof.
  intros Hk Hday Hq.
  enough (exists s',
    run_calls g cs s =
      (map (fun c => Returns (served_without_network (client s) c)) cs, s') /\
    sent s' = sent s /\ apiKey (client s') = apiKey (client s) /\
    cache (client s') = cache (client s) /\
    monthlyCount (stats s') = monthlyCount (stats s) /\
    dailyCount (stats s') = dailyCount (stats s) /\
    lastReset (stats s') = lastReset (stats s)) as (s' & ? & ? & ? & ? & ? & ? & ?)
    by (exists s'; repeat split; assumption).
  revert s Hk Hday Hq. induction cs as [|[w o d m] cs IH]; intros s Hk Hday Hq.
  { exists s. repeat split. }
  apply Forall_cons in Hday as [Hw Hrest]. simpl in Hw.
  destruct (quota_call g w o d m s Hk Hw Hq)
    as (s1 & Heq & Hs & Hkey & Hc & Hm & Hd & Hl).
  destruct (IH s1) as (s2 & Heq2 & Hs2 & Hkey2 & Hc2 & Hm2 & Hd2 & Hl2).
  - unfold configured. rewrite Hkey. exact Hk.
  - rewrite Hl. exact Hrest.
  - unfold quota_exhausted. rewrite Hm, Hd. exact Hq.
  - exists s2. simpl. rewrite Heq, Heq2. split.
    + f_equal. f_equal. apply map_ext. intros c.
      f_equal. apply served_without_network_ext; assumption.
    + repeat split; congruence.
Qed.

(** ** Cache misses *)

Lemma the_request_is_Some g s o d m :
  is_Some (the_request g s o d m) <-> hasNode g o = true /\ hasNode g d = true.
Proof.
  unfold the_request, hasNode, Map_has, getNode.
  destruct (Map_get o (nodes g)), (Map_get d (nodes g)); split;
    try (intros [? ?]; discriminate); intros; try (split; reflexivity); eauto;
    destruct H; discriminate.
Qed.

(** C7, amended.  [cacheMisses] is incremented after the two quota checks
    and the resolution of the nodes: a configured call that is not served
    from the cache adds one to it exactly when both counters are below their
    limits and both nodes are known, that is when it goes on to the network;
    a call that fails on a quota or on the nodes leaves it unchanged. *)
Theorem cacheMisses_counted g w o d m s r s' :
  configured s ->
  fresh_entry w (client s) (cacheKey_of o d m) = None ->
  getLocalSegment g w o d m s = (Returns r, s') ->
  cacheMisses (stats s') =
    if (monthlyCount (rolled w s) <? MONTHLY_LIMIT)
       && (dailyCount (rolled w s) <? DAILY_LIMIT)
       && hasNode g o && hasNode g d
    then cacheMisses (stats s) + 1
    else cacheMisses (stats s).
Proof.
  intros Hk He Heq.
  rewrite (getLocalSegment_configured _ _ _ _ _ _ Hk), He in Heq.
  destruct (fresh_segment_outcome g w o d m (cacheKey_of o d m)
              (with_stats (rolled w s) s)) as (r1 & s1 & Heq1 & Ho).
  rewrite Heq1 in Heq. simplify_eq.
  rewrite (fresh_outcome_misses _ _ _ _ _ _ _ _ _ Ho).
  change (stats (with_stats (rolled w s) s)) with (rolled w s).
  rewrite rolled_misses, <- (andb_assoc _ (hasNode g o)).
  replace (bool_decide (is_Some (the_request g (with_stats (rolled w s) s) o d m)))
    with (hasNode g o && hasNode g d); [reflexivity|].
  destruct (hasNode g o && hasNode g d) eqn:E; symmetry.
  - apply bool_decide_eq_true_2, the_request_is_Some, andb_true_iff, E.
  - apply bool_decide_eq_false_2. rewrite the_request_is_Some, <- andb_true_iff, E.
    discriminate.
Qed.




(* ===================================================================== *)
(** * Dijkstra's algorithm: proofs *)
(* ===================================================================== *)

(** ** Sets and maps in insertion order *)

Lemma Set_has_true x s : Set_has x s = true <-> x ∈ s.
Proof.
  unfold Set_has. rewrite existsb_exists. split.
  - intros (y & Hy & E). apply String.eqb_eq in E. subst. apply list_elem_of_In, Hy.
  - intros H. exists x. split; [apply list_elem_of_In, H|apply String.eqb_refl].
Qed.

Lemma Set_has_false x s : Set_has x s = false <-> x ∉ s.
Proof. rewrite <- Set_has_true. destruct (Set_has x s); split; congruence. Qed.

Lemma elem_of_Set_add x y s : x ∈ Set_add y s <-> x = y \/ x ∈ s.
Proof.
  unfold Set_add. destruct (Set_has y s) eqn:E.
  - apply Set_has_true in E. split; [auto|]. intros [->|H]; assumption.
  - rewrite elem_of_app, list_elem_of_singleton. tauto.
Qed.

Lemma elem_of_Set_delete x y s : x ∈ Set_delete y s <-> x ∈ s /\ x <> y.
Proof.
  unfold Set_delete. rewrite list_elem_of_In, filter_In, <- list_elem_of_In.
  rewrite negb_true_iff, String.eqb_neq. split; intros [? ?]; split; auto.
Qed.

Lemma Set_delete_length x s : x ∈ s -> (length (Set_delete x s) < length s)%nat.
Proof.
  unfold Set_delete. induction s as [|y s IH]; intros H.
  - inversion H.
  - simpl. destruct (String.eqb_spec x y) as [->|Hne]; simpl.
    + assert (length (List.filter (fun y0 => negb (y =? y0)%string) s) <= length s)%nat
        by apply List.filter_length_le.
      lia.
    + apply elem_of_cons in H as [->|H]; [congruence|]. specialize (IH H). lia.
Qed.

Lemma Map_has_keys {V} x (m : list (string * V)) : Map_has x m = true <-> x ∈ Map_keys m.
Proof.
  unfold Map_has, Map_keys. induction m as [|[k v] m IH]; simpl.
  - split; [discriminate|]. intros H; inversion H.
  - destruct (String.eqb_spec k x) as [->|Hne].
    + split; [intros _; left|reflexivity].
    + rewrite IH, elem_of_cons. split; [auto|]. intros [->|H]; [congruence|assumption].
Qed.

(** ** Paths *)

Lemma path_time_nonneg g modes a b w :
  nonneg_times g modes -> path_time g modes a b w -> 0 <= w.
Proof.
  intros Hn H. induction H as [|b e w H IH He Hm Hb]; [lia|].
  specialize (Hn _ _ He Hm). lia.
Qed.

Lemma path_time_nodes g modes a b w :
  path_time g modes a b w -> hasNode g a = true /\ hasNode g b = true.
Proof. intros H. induction H; tauto. Qed.

(** ** The scan for the minimum *)

Lemma num_lt_Num a b : num_lt (Num a) (Num b) = true <-> a < b.
Proof. simpl. apply Z.ltb_lt. Qed.

Lemma find_min_spec (ds : gmap string number) (l : list string) c0 m0 c m :
  fold_left (scan_min ds) l (c0, m0) = (c, m) ->
  match m with
  | Infinity =>
      m0 = Infinity /\ c = c0 /\ forall y d, y ∈ l -> ds !! y = Some (Num d) -> False
  | Num d =>
      (forall y dy, y ∈ l -> ds !! y = Some (Num dy) -> d <= dy) /\
      ((m0 = Num d /\ c = c0) \/
       (exists x, c = Some x /\ x ∈ l /\ ds !! x = Some (Num d))) /\
      (forall d0, m0 = Num d0 -> d <= d0)
  end.
Proof.
  revert c0 m0. induction l as [|y l IH]; intros c0 m0 H; simpl in H.
  - simplify_eq. destruct m as [d|].
    + repeat split; [intros ? ? Hy; inversion Hy|auto|intros; simplify_eq; lia].
    + repeat split. intros ? ? Hy; inversion Hy.
  - unfold scan_min at 2 in H. simpl in H.
    destruct (ds !! y) as [dist|] eqn:Hy.
    + destruct (num_lt dist m0) eqn:Hlt.
      * apply IH in H. destruct dist as [dv|]; [|discriminate].
        destruct m as [d|].
        -- destruct H as (Hmin & Hwho & Hle). repeat split.
           ++ intros z dz Hz Hdz. apply elem_of_cons in Hz as [->|Hz]; [|eauto].
              simplify_eq. apply Hle. reflexivity.
           ++ right. destruct Hwho as [[E ->]|(x & -> & Hx & Hdx)].
              ** simplify_eq. exists y. repeat split; [left|assumption].
              ** exists x. repeat split; [right; assumption|assumption].
           ++ intros d0 ->. specialize (Hle dv eq_refl).
              apply Z.ltb_lt in Hlt. lia.
        -- destruct H as (E & _). discriminate.
      * apply IH in H. destruct m as [d|].
        -- destruct H as (Hmin & Hwho & Hle). repeat split.
           ++ intros z dz Hz Hdz. apply elem_of_cons in Hz as [->|Hz]; [|eauto].
              simplify_eq. destruct m0 as [d0|]; [|destruct dz; discriminate].
              specialize (Hle d0 eq_refl). simpl in Hlt. apply Z.ltb_ge in Hlt. lia.
           ++ destruct Hwho as [?|(x & -> & Hx & Hdx)]; [left; assumption|].
              right. exists x. repeat split; [right; assumption|assumption].
           ++ assumption.
        -- destruct H as (-> & -> & Hno). repeat split.
           intros z dz Hz Hdz. apply elem_of_cons in Hz as [->|Hz]; [|eauto].
           simplify_eq; try discriminate.
    + apply IH in H. destruct m as [d|].
      * destruct H as (Hmin & Hwho & Hle). repeat split.
        -- intros z dz Hz Hdz. apply elem_of_cons in Hz as [->|Hz]; [congruence|eauto].
        -- destruct Hwho as [?|(x & -> & Hx & Hdx)]; [left; assumption|].
           right. exists x. repeat split; [right; assumption|assumption].
        -- assumption.
      * destruct H as (-> & -> & Hno). repeat split.
        intros z dz Hz Hdz. apply elem_of_cons in Hz as [->|Hz]; [congruence|eauto].
Qed.

Lemma find_min_finite st c d :
  find_min st = (c, Num d) ->
  exists x, c = Some x /\ x ∈ unvisited st /\ distances st !! x = Some (Num d) /\
    forall y dy, y ∈ unvisited st -> distances st !! y = Some (Num dy) -> d <= dy.
Proof.
  intros H. apply find_min_spec in H. destruct H as (Hmin & [[? _]|(x & ? & ? & ?)] & _).
  - discriminate.
  - exists x. auto.
Qed.

Lemma find_min_infinite st c :
  find_min st = (c, Infinity) ->
  forall y d, y ∈ unvisited st -> distances st !! y = Some (Num d) -> False.
Proof. intros H. apply find_min_spec in H. tauto. Qed.

Lemma find_min_None st m : find_min st = (None, m) -> m = Infinity.
Proof.
  intros H. destruct m as [d|]; [|reflexivity].
  apply find_min_finite in H. destruct H as (x & ? & _). discriminate.
Qed.

(** ** Relaxing the edges of the current node *)

Lemma relax_unvisited modes cur st e : unvisited (relax modes cur st e) = unvisited st.
Proof. unfold relax. repeat case_match; reflexivity. Qed.

Lemma fold_relax_unvisited modes cur es st :
  unvisited (fold_left (relax modes cur) es st) = unvisited st.
Proof.
  revert st. induction es as [|e es IH]; intros st; [reflexivity|].
  simpl. rewrite IH. apply relax_unvisited.
Qed.

Section Relax.
Variable modes : list Mode.
Variable cur : string.
Variable dcur : Z.

Lemma relax_cases st e :
  distances st !! cur = Some (Num dcur) ->
  is_Some (costs st !! cur) ->
  (forall v, v ∈ unvisited st -> is_Some (distances st !! v)) ->
  (relax modes cur st e = st /\
   (ei_mode e ∉ modes \/ ei_to e ∉ unvisited st \/
    exists d, distances st !! ei_to e = Some (Num d) /\ d <= dcur + ei_time_min e))
  \/
  (ei_mode e ∈ modes /\ ei_to e ∈ unvisited st /\
   exists ccur dto,
     costs st !! cur = Some ccur /\ distances st !! ei_to e = Some dto /\
     num_lt (Num (dcur + ei_time_min e)) dto = true /\
     relax modes cur st e =
       {| distances := <[ei_to e := Num (dcur + ei_time_min e)]> (distances st);
          costs := <[ei_to e := ccur + ei_cost e]> (costs st);
          previous := <[ei_to e := Some cur]> (previous st);
          edgeMap := <[ei_to e := e]> (edgeMap st);
          unvisited := unvisited st |}).
Proof.
  intros Hcur [ccur Hc] Hdom. unfold relax.
  destruct (bool_decide (ei_mode e ∈ modes)) eqn:Hm; simpl.
  2:{ left. split; [reflexivity|]. left. apply bool_decide_eq_false in Hm. exact Hm. }
  apply bool_decide_eq_true in Hm.
  destruct (Set_has (ei_to e) (unvisited st)) eqn:Hu; simpl.
  2:{ left. split; [reflexivity|]. right. left. apply Set_has_false, Hu. }
  apply Set_has_true in Hu.
  rewrite Hcur, Hc. destruct (Hdom _ Hu) as [dto Hdto]. rewrite Hdto. cbn [num_add].
  destruct (num_lt (Num (dcur + ei_time_min e)) dto) eqn:Hlt.
  - right. repeat split; try assumption. exists ccur, dto. repeat split; assumption.
  - left. split; [reflexivity|]. right. right.
    destruct dto as [d|]; [|discriminate]. exists d. split; [reflexivity|].
    simpl in Hlt. apply Z.ltb_ge in Hlt. lia.
Qed.

Lemma relaxed_refl st : relaxed modes cur dcur st st [].
Proof.
  split; auto.
  - intros v d1 H. exists d1. split; [assumption|lia].
  - intros e He. inversion He.
Qed.

Lemma relaxed_snoc st1 st2 es e :
  distances st1 !! cur = Some (Num dcur) ->
  is_Some (costs st1 !! cur) ->
  cur ∉ unvisited st1 ->
  (forall v, v ∈ unvisited st1 -> is_Some (distances st1 !! v)) ->
  relaxed modes cur dcur st1 st2 es ->
  relaxed modes cur dcur st1 (relax modes cur st2 e) (es ++ [e]).
Proof.
  intros Hcur Hc Hnot Hdom R.
  assert (Hcur2 : distances st2 !! cur = Some (Num dcur))
    by (rewrite (rx_frame_d R); assumption).
  assert (Hc2 : is_Some (costs st2 !! cur))
    by (rewrite (rx_frame_c R); assumption).
  assert (Hdom2 : forall v, v ∈ unvisited st2 -> is_Some (distances st2 !! v)).
  { intros v Hv. rewrite (rx_unvisited R) in Hv.
    apply (rx_dom_d R), Hdom, Hv. }
  destruct (relax_cases st2 e Hcur2 Hc2 Hdom2)
    as [[-> Hwhy]|(Hm & Hu & ccur & dto & Hcc & Hdto & Hlt & ->)].
  - (* nothing changes *)
    destruct R. split; auto.
    + intros v d2 Hv. destruct (rx_origin0 v d2 Hv) as [?|(e' & ? & ? & ? & ? & ?)];
        [left; assumption|].
      right. exists e'. rewrite elem_of_app. auto.
    + intros e' He' Hm' Hu'. apply elem_of_app in He' as [He'|He']; [auto|].
      apply list_elem_of_singleton in He' as ->.
      destruct Hwhy as [?|[Hn|?]]; [contradiction| |assumption].
      rewrite rx_unvisited0 in Hn. contradiction.
  - (* the edge improves the tentative distance of its target *)
    rewrite (rx_unvisited R) in Hu.
    destruct R. split; simpl; auto.
    + intros v Hv. rewrite lookup_insert_ne; [auto|]. intros <-. contradiction.
    + intros v Hv. rewrite lookup_insert_ne; [auto|]. intros <-. contradiction.
    + intros v Hv. rewrite lookup_insert_ne; [auto|]. intros <-. contradiction.
    + intros v Hv. destruct (decide (ei_to e = v)) as [<-|Hne].
      * rewrite lookup_insert_eq. eauto.
      * rewrite lookup_insert_ne by assumption. auto.
    + intros v Hv. destruct (decide (ei_to e = v)) as [<-|Hne].
      * rewrite lookup_insert_eq. eauto.
      * rewrite lookup_insert_ne by assumption. auto.
    + intros v Hv. destruct (decide (ei_to e = v)) as [<-|Hne].
      * rewrite lookup_insert_eq. eauto.
      * rewrite lookup_insert_ne by assumption. auto.
    + intros v d1 Hv. destruct (rx_le0 v d1 Hv) as (d2 & Hd2 & Hle).
      destruct (decide (ei_to e = v)) as [<-|Hne].
      * rewrite lookup_insert_eq. eexists. split; [reflexivity|].
        rewrite Hd2 in Hdto. simplify_eq. apply Z.ltb_lt in Hlt. lia.
      * rewrite lookup_insert_ne by assumption. eauto.
    + intros v d2 Hv. destruct (decide (ei_to e = v)) as [<-|Hne].
      * rewrite lookup_insert_eq in Hv. simplify_eq. right.
        exists e. rewrite elem_of_app, list_elem_of_singleton. auto.
      * rewrite lookup_insert_ne in Hv by assumption.
        destruct (rx_origin0 v d2 Hv) as [?|(e' & ? & ? & ? & ? & ?)];
          [left; assumption|].
        right. exists e'. rewrite elem_of_app. auto.
    + intros e' He' Hm' Hu'.
      destruct (decide (ei_to e = ei_to e')) as [Heq|Hne].
      * rewrite Heq, lookup_insert_eq. eexists. split; [reflexivity|].
        apply elem_of_app in He' as [He'|He'].
        -- destruct (rx_done0 e' He' Hm' Hu') as (d2 & Hd2 & Hle).
           rewrite <- Heq, Hdto in Hd2. simplify_eq. apply Z.ltb_lt in Hlt. lia.
        -- apply list_elem_of_singleton in He' as ->. lia.
      * rewrite lookup_insert_ne by assumption.
        apply elem_of_app in He' as [He'|He']; [auto|].
        apply list_elem_of_singleton in He' as ->. congruence.
    + intros v p Hv. destruct (decide (ei_to e = v)) as [<-|Hne].
      * rewrite lookup_insert_eq in Hv. simplify_eq. right.
        rewrite lookup_insert_eq. eauto.
      * rewrite lookup_insert_ne in Hv by assumption.
        destruct (rx_prev0 v p Hv) as [?|(? & ? & ?)]; [left; assumption|].
        right. rewrite lookup_insert_ne by assumption. auto.
Qed.

Lemma relaxed_fold st1 es :
  distances st1 !! cur = Some (Num dcur) ->
  is_Some (costs st1 !! cur) ->
  cur ∉ unvisited st1 ->
  (forall v, v ∈ unvisited st1 -> is_Some (distances st1 !! v)) ->
  relaxed modes cur dcur st1 (fold_left (relax modes cur) es st1) es.
Proof.
  intros Hcur Hc Hnot Hdom. induction es as [|e es IH] using rev_ind.
  - apply relaxed_refl.
  - rewrite fold_left_app. simpl. apply relaxed_snoc; assumption.
Qed.
End Relax.

(** ** The invariant of the main loop *)

Section Loop.
Variable g : Graph.
Variable modes : list Mode.
Variable src dst : string.
Variable n0 : nat.
Hypothesis nonneg : nonneg_times g modes.

(** Every path from the source is bounded below: by the distance of its
    end if this end is visited, by the distance of some unvisited node
    otherwise. *)
Lemma lower_bound vis st x w :
  Inv g modes src n0 vis st -> path_time g modes src x w ->
  (x ∈ vis -> exists d, distances st !! x = Some (Num d) /\ d <= w) /\
  (x ∈ unvisited st ->
     exists z d, z ∈ unvisited st /\ distances st !! z = Some (Num d) /\ d <= w).
Proof.
  intros I P. induction P as [Hs|b e w P IH He Hm Hn].
  - split; intros Hx.
    + exists 0. split; [apply (inv_src I)|lia].
    + exists src, 0. repeat split; [assumption|apply (inv_src I)|lia].
  - pose proof (path_time_nonneg _ _ _ _ _ nonneg P) as Hw.
    pose proof (nonneg _ _ He Hm) as Ht.
    destruct IH as [IHv IHu].
    destruct (proj1 (inv_nodes I b) (proj2 (path_time_nodes _ _ _ _ _ P))) as [Hb|Hb].
    + (* the last edge leaves a visited node *)
      destruct (IHv Hb) as (db & Hdb & Hle).
      destruct (inv_relaxed I b e Hb He Hm Hn) as (dx & dy & Hdx & Hdy & Hrel).
      rewrite Hdb in Hdx. simplify_eq.
      split; intros Hx.
      * exists dy. split; [assumption|lia].
      * exists (ei_to e), dy. repeat split; [assumption|assumption|lia].
    + (* the last edge leaves an unvisited node *)
      destruct (IHu Hb) as (z & dz & Hz & Hdz & Hle).
      split; intros Hx.
      * destruct (inv_finite I _ Hx) as (dx & Hdx).
        exists dx. split; [assumption|].
        pose proof (inv_order I _ _ _ _ Hx Hz Hdx Hdz). lia.
      * exists z, dz. repeat split; [assumption|assumption|lia].
Qed.

Lemma sound_node vis st x d :
  Inv g modes src n0 vis st -> distances st !! x = Some (Num d) -> hasNode g x = true.
Proof.
  intros I H. apply (inv_sound I) in H. apply path_time_nodes in H. tauto.
Qed.

(** The loop exits because nothing is left, or nothing reachable is. *)
Lemma final_exhausted vis st :
  Inv g modes src n0 vis st ->
  (forall y d, y ∈ unvisited st -> distances st !! y = Some (Num d) -> False) ->
  Final g modes src dst n0 vis st.
Proof.
  intros I Hno. split.
  - apply (inv_dom I).
  - apply (inv_sound I).
  - intros w P.
    destruct (proj1 (inv_nodes I dst) (proj2 (path_time_nodes _ _ _ _ _ P))) as [H|H].
    + apply (proj1 (lower_bound _ _ _ _ I P) H).
    + destruct (proj2 (lower_bound _ _ _ _ I P) H) as (z & d & Hz & Hd & _).
      exfalso. eapply Hno; eassumption.
  - intros d Hd.
    destruct (proj1 (inv_nodes I dst) (sound_node _ _ _ _ I Hd)) as [H|H];
      [assumption|]. exfalso. eapply Hno; eassumption.
  - apply (inv_prev_visited I).
  - apply (inv_edge I).
  - pose proof (inv_size I). lia.
Qed.

Lemma prev_visited_cons vis st cur :
  Inv g modes src n0 vis st -> cur ∈ unvisited st ->
  forall l1 x l2 p, cur :: vis = l1 ++ x :: l2 ->
    previous st !! x = Some (Some p) -> p ∈ l2.
Proof.
  intros I Hcur l1 x l2 p E Hp. destruct l1 as [|y l1]; simpl in E; simplify_eq.
  - eapply (inv_prev_unvisited I); eassumption.
  - eapply (inv_prev_visited I); [reflexivity|eassumption].
Qed.

(** The loop exits because the target has been selected. *)
Lemma final_target vis st d :
  Inv g modes src n0 vis st ->
  dst ∈ unvisited st ->
  distances st !! dst = Some (Num d) ->
  (forall y dy, y ∈ unvisited st -> distances st !! y = Some (Num dy) -> d <= dy) ->
  Final g modes src dst n0 (dst :: vis) (visit dst st).
Proof.
  intros I Hu Hd Hmin. split; simpl.
  - apply (inv_dom I).
  - apply (inv_sound I).
  - intros w P. exists d. split; [assumption|].
    destruct (proj2 (lower_bound _ _ _ _ I P) Hu) as (z & dz & Hz & Hdz & Hle).
    specialize (Hmin _ _ Hz Hdz). lia.
  - intros _ _. left.
  - apply (prev_visited_cons _ _ _ I Hu).
  - apply (inv_edge I).
  - pose proof (inv_size I). pose proof (Set_delete_length _ _ Hu).
    destruct (unvisited st); simpl in *; lia.
Qed.

(** One iteration that goes on: the selected node is marked visited and
    its edges are relaxed. *)
Lemma step_invariant vis st cur dcur :
  Inv g modes src n0 vis st ->
  cur ∈ unvisited st ->
  distances st !! cur = Some (Num dcur) ->
  (forall y dy, y ∈ unvisited st -> distances st !! y = Some (Num dy) -> dcur <= dy) ->
  Inv g modes src n0 (cur :: vis)
      (fold_left (relax modes cur) (getNeighbors g cur) (visit cur st)).
Proof.
  intros I Hu Hd Hmin.
  set (st1 := visit cur st).
  assert (Hnode : hasNode g cur = true) by (apply (inv_nodes I); auto).
  assert (Hnot : cur ∉ unvisited st1).
  { simpl. rewrite elem_of_Set_delete. tauto. }
  assert (Hdom1 : forall v, v ∈ unvisited st1 -> is_Some (distances st1 !! v)).
  { simpl. intros v Hv. apply elem_of_Set_delete in Hv as [Hv _].
    apply (inv_dom I). apply (inv_nodes I). auto. }
  pose proof (relaxed_fold modes cur dcur st1 (getNeighbors g cur) Hd
                (proj2 (inv_dom I _ Hnode)) Hnot Hdom1) as R.
  set (st2 := fold_left (relax modes cur) (getNeighbors g cur) st1) in *.
  assert (Hun2 : forall x, x ∈ unvisited st2 <-> x ∈ unvisited st /\ x <> cur).
  { intros x. rewrite (rx_unvisited R). simpl. apply elem_of_Set_delete. }
  assert (Hvis_frame : forall x, x ∈ cur :: vis -> distances st2 !! x = distances st !! x).
  { intros x Hx. rewrite (rx_frame_d R); [reflexivity|].
    simpl. rewrite elem_of_Set_delete. apply elem_of_cons in Hx as [->|Hx]; [tauto|].
    intros [Hx' _]. eapply (inv_disjoint I); eassumption. }
  assert (Hcur_nonneg : 0 <= dcur).
  { eapply path_time_nonneg; [exact nonneg|]. apply (inv_sound I), Hd. }
  assert (Hsound2 : forall x d, distances st2 !! x = Some (Num d) ->
                                path_time g modes src x d).
  { intros x d Hx.
    destruct (rx_origin R x d Hx) as [Hold|(e & He & Hm & <- & Hv & ->)].
    - apply (inv_sound I), Hold.
    - apply (path_step g modes src cur e dcur); try assumption.
      + apply (inv_sound I), Hd.
      + simpl in Hv. apply elem_of_Set_delete in Hv as [Hv _].
        apply (inv_nodes I). auto. }
  split.
  - (* inv_nodes *)
    intros x. rewrite (inv_nodes I), elem_of_cons, Hun2.
    destruct (decide (x = cur)) as [->|Hne]; tauto.
  - (* inv_disjoint *)
    intros x Hx. rewrite Hun2. apply elem_of_cons in Hx as [->|Hx]; [tauto|].
    intros [Hx' _]. eapply (inv_disjoint I); eassumption.
  - (* inv_dom *)
    intros x Hx. destruct (inv_dom I x Hx) as [H1 H2]. split.
    + apply (rx_dom_d R), H1.
    + apply (rx_dom_c R), H2.
  - (* inv_src *)
    destruct (rx_le R src 0 (inv_src I)) as (d2 & Hd2 & Hle).
    pose proof (path_time_nonneg _ _ _ _ _ nonneg (Hsound2 _ _ Hd2)).
    replace d2 with 0 in Hd2 by lia. exact Hd2.
  - exact Hsound2.
  - (* inv_relaxed *)
    intros x e Hx He Hm Hn. pose proof (nonneg _ _ He Hm) as Ht.
    rewrite (Hvis_frame x Hx).
    apply elem_of_cons in Hx as [->|Hx].
    + (* the edges of the current node *)
      destruct (decide (ei_to e ∈ unvisited st1)) as [Hin|Hout].
      * destruct (rx_done R e He Hm Hin) as (d2 & Hd2 & Hle).
        exists dcur, d2. auto.
      * rewrite (rx_frame_d R _ Hout).
        simpl in Hout. rewrite elem_of_Set_delete in Hout.
        destruct (decide (ei_to e = cur)) as [E|Hne].
        -- rewrite E. exists dcur, dcur. repeat split; [assumption|assumption|lia].
        -- destruct (proj1 (inv_nodes I _) Hn) as [Hv|Hv]; [|tauto].
           destruct (inv_finite I _ Hv) as (dv & Hdv).
           pose proof (inv_order I _ _ _ _ Hv Hu Hdv Hd).
           exists dcur, dv. repeat split; [assumption|assumption|lia].
    + (* the edges of the nodes visited before *)
      destruct (inv_relaxed I x e Hx He Hm Hn) as (dx & dy & Hdx & Hdy & Hle).
      destruct (rx_le R _ _ Hdy) as (d2 & Hd2 & Hle2).
      exists dx, d2. repeat split; [assumption|assumption|lia].
  - (* inv_finite *)
    intros x Hx. rewrite (Hvis_frame x Hx).
    apply elem_of_cons in Hx as [->|Hx]; [eauto|apply (inv_finite I), Hx].
  - (* inv_order *)
    intros x y dx dy Hx Hy Hdx Hdy. rewrite (Hvis_frame x Hx) in Hdx.
    apply Hun2 in Hy as [Hy Hne].
    destruct (rx_origin R y dy Hdy) as [Hold|(e & He & Hm & <- & Hv & ->)].
    + apply elem_of_cons in Hx as [->|Hx].
      * simplify_eq. eauto.
      * eapply (inv_order I); eassumption.
    + pose proof (nonneg _ _ He Hm) as Ht.
      apply elem_of_cons in Hx as [->|Hx].
      * simplify_eq. lia.
      * pose proof (inv_order I _ _ _ _ Hx Hu Hdx Hd). lia.
  - (* inv_prev_unvisited *)
    intros x p Hp Hx. apply Hun2 in Hx as [Hx Hne].
    destruct (rx_prev R x p Hp) as [Hold|(-> & _)]; [|left].
    right. eapply (inv_prev_unvisited I); eassumption.
  - (* inv_prev_visited *)
    intros l1 x l2 p E Hp.
    assert (Hx : x ∈ cur :: vis) by (rewrite E, elem_of_app, elem_of_cons; auto).
    rewrite (rx_frame_p R) in Hp.
    + eapply prev_visited_cons; eassumption.
    + simpl. rewrite elem_of_Set_delete. apply elem_of_cons in Hx as [->|Hx]; [tauto|].
      intros [Hx' _]. eapply (inv_disjoint I); eassumption.
  - (* inv_edge *)
    intros x p Hp.
    destruct (rx_prev R x p Hp) as [Hold|(_ & _ & He)]; [|exact He].
    apply (rx_dom_e R). eapply (inv_edge I), Hold.
  - (* inv_size *)
    pose proof (inv_size I). pose proof (Set_delete_length _ _ Hu).
    rewrite (rx_unvisited R). simpl in *. lia.
Qed.

(** The loop exits within its fuel, in a final state. *)
Lemma dijkstra_loop_final fuel vis st :
  Inv g modes src n0 vis st ->
  (length (unvisited st) < fuel)%nat ->
  exists vis' st', dijkstra_loop g dst modes fuel st = Some st' /\ Final g modes src dst n0 vis' st'.
Proof.
  revert vis st. induction fuel as [|fuel IH]; intros vis st I Hfuel; [lia|].
  simpl. destruct (unvisited st) as [|u us] eqn:Hus.
  { exists vis, st. split; [reflexivity|]. apply final_exhausted; [assumption|].
    intros y d Hy. rewrite Hus in Hy. inversion Hy. }
  destruct (find_min st) as [c m] eqn:Hmin.
  destruct m as [d|].
  2:{ assert (Hno := find_min_infinite _ _ Hmin).
      exists vis, st. split; [destruct c; reflexivity|].
      apply final_exhausted; assumption. }
  destruct (find_min_finite _ _ _ Hmin) as (cur & -> & Hcur & Hd & Hleast).
  destruct (String.eqb_spec cur dst) as [->|Hne].
  - exists (dst :: vis), (visit dst st). split; [reflexivity|].
    eapply final_target; eassumption.
  - apply (IH (cur :: vis)).
    + eapply step_invariant; eassumption.
    + rewrite fold_relax_unvisited. simpl.
      pose proof (Set_delete_length _ _ Hcur).
      rewrite Hus in *. simpl in *. lia.
Qed.
End Loop.

(** ** Initialisation *)

Lemma init_fold keys st :
  let st' := fold_left init_node keys st in
  (forall x, x ∈ unvisited st' <-> x ∈ keys \/ x ∈ unvisited st) /\
  (forall x, x ∈ keys ->
     distances st' !! x = Some Infinity /\ costs st' !! x = Some 0 /\
     previous st' !! x = Some None) /\
  (forall x, x ∉ keys ->
     distances st' !! x = distances st !! x /\ costs st' !! x = costs st !! x /\
     previous st' !! x = previous st !! x) /\
  edgeMap st' = edgeMap st.
Proof.
  revert st. induction keys as [|k keys IH]; intros st; simpl.
  - split; [|split; [|split]]; try reflexivity.
    + intros x. rewrite elem_of_nil. tauto.
    + intros x Hx. inversion Hx.
    + intros x _. auto.
  - destruct (IH (init_node st k)) as (Hu & Hin & Hout & He).
    split; [|split; [|split]].
    + intros x. rewrite Hu. simpl. rewrite elem_of_Set_add, elem_of_cons. tauto.
    + intros x Hx. destruct (decide (x ∈ keys)) as [Hk|Hk]; [apply Hin, Hk|].
      apply elem_of_cons in Hx as [->|Hx]; [|contradiction].
      destruct (Hout k Hk) as (-> & -> & ->). simpl.
      rewrite !lookup_insert_eq. auto.
    + intros x Hx. rewrite not_elem_of_cons in Hx. destruct Hx as [Hne Hx].
      destruct (Hout x Hx) as (-> & -> & ->). simpl.
      rewrite !lookup_insert_ne by congruence. auto.
    + rewrite He. reflexivity.
Qed.

Lemma dijkstra_init_Inv g modes src :
  hasNode g src = true ->
  Inv g modes src (length (unvisited (dijkstra_init g src))) [] (dijkstra_init g src).
Proof.
  intros Hs. unfold dijkstra_init.
  destruct (init_fold (Map_keys (nodes g))
              {| distances := ∅; costs := ∅; previous := ∅; edgeMap := ∅; unvisited := [] |})
    as (Hu & Hin & Hout & He).
  simpl in Hu, Hin, Hout, He.
  set (st := fold_left init_node (Map_keys (nodes g)) _) in *.
  assert (Hprev : forall x p, previous st !! x = Some (Some p) -> False).
  { intros x p Hp. destruct (decide (x ∈ Map_keys (nodes g))) as [Hx|Hx].
    - destruct (Hin x Hx) as (_ & _ & E). congruence.
    - destruct (Hout x Hx) as (_ & _ & E). rewrite E, lookup_empty in Hp. discriminate. }
  split; simpl.
  - intros x. unfold hasNode. rewrite Map_has_keys, Hu, !elem_of_nil. tauto.
  - intros x Hx. inversion Hx.
  - intros x Hx. unfold hasNode in Hx. apply Map_has_keys in Hx.
    destruct (Hin x Hx) as (Hd & Hc & _). split; [|rewrite Hc; eauto].
    destruct (decide (src = x)) as [->|Hne].
    + rewrite lookup_insert_eq. eauto.
    + rewrite lookup_insert_ne by assumption. rewrite Hd. eauto.
  - apply lookup_insert_eq.
  - intros x d Hx. destruct (decide (src = x)) as [->|Hne].
    + rewrite lookup_insert_eq in Hx. simplify_eq. apply path_here, Hs.
    + rewrite lookup_insert_ne in Hx by assumption.
      destruct (decide (x ∈ Map_keys (nodes g))) as [Hk|Hk].
      * destruct (Hin x Hk) as (E & _). congruence.
      * destruct (Hout x Hk) as (E & _). rewrite E, lookup_empty in Hx. discriminate.
  - intros x e Hx. inversion Hx.
  - intros x Hx. inversion Hx.
  - intros x y dx dy Hx. inversion Hx.
  - intros x p Hp. exfalso. eapply Hprev, Hp.
  - intros l1 x l2 p E. destruct l1; discriminate.
  - intros x p Hp. exfalso. eapply Hprev, Hp.
  - lia.
Qed.

(** ** Rebuilding the path *)

Lemma truthy_Some o p : truthy o = Some p -> o = Some (Some p).
Proof.
  unfold truthy. destruct o as [[q|]|]; try discriminate.
  destruct (String.eqb q ""); [discriminate|]. congruence.
Qed.

Lemma reconstruct_total st vis :
  (forall l1 x l2 p, vis = l1 ++ x :: l2 -> previous st !! x = Some (Some p) -> p ∈ l2) ->
  (forall x p, previous st !! x = Some (Some p) -> is_Some (edgeMap st !! x)) ->
  forall fuel l1 x l2 p es,
    vis = l1 ++ x :: l2 -> (length l2 < fuel)%nat ->
    is_Some (reconstruct fuel st x p es).
Proof.
  intros Hprev Hedge. induction fuel as [|fuel IH]; intros l1 x l2 p es E Hlen; [lia|].
  simpl. destruct (truthy (previous st !! x)) as [q|] eqn:Hq; [|eauto].
  apply truthy_Some in Hq.
  destruct (Hedge _ _ Hq) as [e ->].
  pose proof (Hprev _ _ _ _ E Hq) as Hin.
  apply list_elem_of_split in Hin as (la & lb & ->).
  apply (IH (l1 ++ x :: la) q lb).
  - rewrite E, <- app_assoc. reflexivity.
  - rewrite length_app in Hlen. simpl in Hlen. lia.
Qed.

(** ** [localShortestPath] *)

Lemma localShortestPath_spec g from to modes :
  nonneg_times g modes ->
  exists r, localShortestPath g from to modes = Some r /\
    ((r = notFound /\ forall w, ~ path_time g modes from to w) \/
     (found r = true /\ exists d, totalTime r = Num d /\ shortest_time g modes from to d)).
Proof.
  intros Hn. unfold localShortestPath.
  destruct (hasNode g from) eqn:Hf; cbn [negb orb].
  2:{ exists notFound. split; [reflexivity|]. left. split; [reflexivity|].
      intros w P. apply path_time_nodes in P. destruct P. congruence. }
  destruct (hasNode g to) eqn:Ht; cbn [negb orb].
  2:{ exists notFound. split; [reflexivity|]. left. split; [reflexivity|].
      intros w P. apply path_time_nodes in P. destruct P. congruence. }
  destruct (String.eqb_spec from to) as [->|Hne].
  { eexists. split; [reflexivity|]. right. split; [reflexivity|].
    exists 0. split; [reflexivity|]. split; [apply path_here, Hf|].
    intros w P. eapply path_time_nonneg; eassumption. }
  set (st0 := dijkstra_init g from).
  destruct (dijkstra_loop_final g modes from to (length (unvisited st0)) Hn
              (S (length (unvisited st0))) [] st0 (dijkstra_init_Inv g modes from Hf)
              (Nat.lt_succ_diag_r _)) as (vis & st & -> & F).
  destruct (fin_dom F Ht) as [[dt Hdt] [c Hc]]. rewrite Hdt, Hc.
  destruct dt as [d|].
  - pose proof (fin_visited F _ Hdt) as Hin.
    apply list_elem_of_split in Hin as (l1 & l2 & E).
    destruct (reconstruct_total st vis (fin_prev F) (fin_edge F)
                (length (unvisited st0)) l1 to l2 [] [] E) as [[p es] ->].
    { pose proof (fin_size F) as Hsz. rewrite E, length_app in Hsz.
      cbn [length] in Hsz. lia. }
    eexists. split; [reflexivity|]. right. split; [reflexivity|].
    exists d. split; [reflexivity|]. split.
    + apply (fin_sound F), Hdt.
    + intros w P. destruct (fin_least F w P) as (d' & Hd' & Hle).
      congruence.
  - exists notFound. split; [reflexivity|]. left. split; [reflexivity|].
    intros w P. destruct (fin_least F w P) as (d' & Hd' & _). congruence.
Qed.

Lemma localShortestPath_total g from to modes :
  nonneg_times g modes -> is_Some (localShortestPath g from to modes).
Proof.
  intros Hn. destruct (localShortestPath_spec g from to modes Hn) as (r & -> & _). eauto.
Qed.

(** C1.  When the edges a search restricted to [modes] can follow have
    non-negative times, and some path from [from] to [to] along such edges
    exists, [localShortestPath] returns a result with [found = true] whose
    [totalTime] is the least total time over all these paths. *)
Theorem localShortestPath_minimum g from to modes w :
  nonneg_times g modes ->
  path_time g modes from to w ->
  exists r d, localShortestPath g from to modes = Some r /\
              found r = true /\ totalTime r = Num d /\
              shortest_time g modes from to d.
Proof.
  intros Hn P. destruct (localShortestPath_spec g from to modes Hn)
    as (r & Heq & [[_ Hno]|(Hf & d & Ht & Hs)]).
  - exfalso. eapply Hno, P.
  - exists r, d. auto.
Qed.

Lemma localShortestPath_unreachable g from to modes :
  nonneg_times g modes ->
  (forall w, ~ path_time g modes from to w) ->
  localShortestPath g from to modes = Some notFound.
Proof.
  intros Hn Hno. destruct (localShortestPath_spec g from to modes Hn)
    as (r & Heq & [[-> _]|(_ & d & _ & [P _])]); [exact Heq|].
  exfalso. eapply Hno, P.
Qed.

(** ** Loaded graphs *)

Section Loaded.
Variable P : Mode -> Z -> Prop.

Lemma adj_push_satisfy k e adj adj' :
  edges_satisfy P adj -> P (ei_mode e) (ei_time_min e) ->
  adj_push k e adj = Some adj' -> edges_satisfy P adj'.
Proof.
  intros Hadj He Hpush. unfold adj_push in Hpush.
  destruct (adj !! k) as [l|] eqn:Hk; [|discriminate]. injection Hpush as <-.
  intros k' l' e' Hl' He'. destruct (decide (k = k')) as [<-|Hne].
  - rewrite lookup_insert_eq in Hl'. injection Hl' as <-.
    apply elem_of_app in He' as [He'|He']; [eapply Hadj; eassumption|].
    apply list_elem_of_singleton in He' as ->. exact He.
  - rewrite lookup_insert_ne in Hl' by assumption. eapply Hadj; eassumption.
Qed.

Lemma add_edges_satisfy es adj adj' :
  edges_satisfy P adj ->
  Forall (fun e => P (edge_mode e) (edge_time_min e)) es ->
  add_edges adj es = Some adj' -> edges_satisfy P adj'.
Proof.
  intros Hadj Hes. revert adj Hadj. induction Hes as [|e es He Hes IH]; intros adj Hadj H.
  - simpl in H. injection H as <-. exact Hadj.
  - simpl in H. destruct (add_edge adj e) as [adj1|] eqn:H1; [|discriminate].
    apply (IH adj1); [|exact H]. clear IH H.
    unfold add_edge in H1.
    destruct (adj_push (edge_from e) _ adj) as [adj0|] eqn:H0; [|discriminate].
    assert (Hadj0 : edges_satisfy P adj0)
      by (eapply adj_push_satisfy; [exact Hadj| |exact H0]; exact He).
    destruct (one_way e); [injection H1 as <-; exact Hadj0|].
    eapply adj_push_satisfy; [exact Hadj0| |exact H1]. exact He.
Qed.

Lemma init_adjacency_satisfy keys adj :
  edges_satisfy P adj ->
  edges_satisfy P (fold_left (fun adj nodeId => <[nodeId := []]> adj) keys adj).
Proof.
  revert adj. induction keys as [|k keys IH]; intros adj Hadj; [exact Hadj|].
  simpl. apply IH. intros k' l e Hl He. destruct (decide (k = k')) as [<-|Hne].
  - rewrite lookup_insert_eq in Hl. injection Hl as <-. inversion He.
  - rewrite lookup_insert_ne in Hl by assumption. eapply Hadj; eassumption.
Qed.

Lemma loadData_neighbors d g :
  loadData d = Some g ->
  Forall (fun e => P (edge_mode e) (edge_time_min e)) (gd_edges d) ->
  forall x e, e ∈ getNeighbors g x -> P (ei_mode e) (ei_time_min e).
Proof.
  intros Hload Hes x e He. unfold loadData in Hload.
  destruct (buildAdjacencyList _ (gd_edges d)) as [adj|] eqn:Hb; [|discriminate].
  injection Hload as <-. unfold getNeighbors in He. simpl in He.
  destruct (adj !! x) as [l|] eqn:Hx; simpl in He; [|inversion He].
  unfold buildAdjacencyList in Hb.
  assert (Hempty : edges_satisfy P ∅).
  { intros k l' e' Hl. rewrite lookup_empty in Hl. discriminate. }
  eapply (add_edges_satisfy _ _ _ (init_adjacency_satisfy _ ∅ Hempty) Hes Hb);
    eassumption.
Qed.
End Loaded.

Lemma loadData_nonneg_times d g modes :
  loadData d = Some g ->
  Forall (fun e => 0 <= edge_time_min e) (gd_edges d) ->
  nonneg_times g modes.
Proof.
  intros Hload Hes x e He _.
  exact (loadData_neighbors (fun _ t => 0 <= t) d g Hload Hes x e He).
Qed.

Lemma loadData_bus_only d g :
  loadData d = Some g ->
  Forall (fun e => edge_mode e = bus) (gd_edges d) ->
  bus_only g.
Proof.
  intros Hload Hes x e He.
  exact (loadData_neighbors (fun m _ => m = bus) d g Hload Hes x e He).
Qed.

(* ===================================================================== *)
(** * The planner: proofs *)
(* ===================================================================== *)

(** C9.  When an endpoint is not a node of the graph, or the origin is the
    destination, [planRoute] returns a response with no option, and touches
    neither the client nor the network. *)
Theorem planRoute_no_solution g oracle from to requestTime currentRoute s :
  hasNode g from = false \/ hasNode g to = false \/ from = to ->
  planRoute g oracle from to requestTime currentRoute s =
    (Returns {| resp_from := from; resp_to := to; resp_requestTime := requestTime;
                options := [] |}, s).
Proof.
  intros H. unfold planRoute.
  destruct (hasNode g from); [|reflexivity].
  destruct (hasNode g to); [|reflexivity]. simpl.
  destruct H as [H|[H|H]]; try discriminate.
  subst. rewrite String.eqb_refl. reflexivity.
Qed.

(** ** Ranking *)

Lemma add_other_eq r ids io :
  add_other (r, ids) io =
    if (3 <=? length r)%nat then (r, ids)
    else if Set_has (getOptionId (snd io)) ids then (r, ids)
         else (r ++ [fst io], Set_add (getOptionId (snd io)) ids).
Proof. reflexivity. Qed.

Lemma add_other_length l r ids :
  (length (fst (fold_left add_other l (r, ids))) <= Nat.max 3 (length r))%nat.
Proof.
  revert r ids. induction l as [|io l IH]; intros r ids; cbn [fold_left]; [apply Nat.le_max_r|].
  rewrite add_other_eq.
  destruct (Nat.leb_spec 3 (length r)); [apply IH|].
  destruct (Set_has (getOptionId (snd io)) ids); [apply IH|].
  etransitivity; [apply IH|]. rewrite length_app. cbn [length]. lia.
Qed.

Lemma omap_length {A B} (f : A -> option B) l : (length (omap f l) <= length l)%nat.
Proof.
  induction l as [|a l IH]; [reflexivity|].
  change (omap f (a :: l)) with (match f a with Some y => y :: omap f l | None => omap f l end).
  destruct (f a); cbn [length]; lia.
Qed.

Lemma compareRoutes_at_most_three options : (length (compareRoutes options) <= 3)%nat.
Proof.
  unfold compareRoutes. destruct options as [|o os]; [simpl; lia|].
  set (unique := deduplicateOptions (o :: os)).
  destruct (unique !! argmin totalTimeMin unique) as [f|]; [|simpl; lia].
  destruct (unique !! argmin localTimeMin unique) as [l|]; [|simpl; lia].
  destruct (negb (String.eqb (getOptionId l) (getOptionId f)));
    (etransitivity; [apply omap_length|]);
    (etransitivity; [apply add_other_length|]); simpl; lia.
Qed.

Lemma planRoute_at_most_three g oracle from to requestTime currentRoute s resp s' :
  planRoute g oracle from to requestTime currentRoute s = (Returns resp, s') ->
  (length (options resp) <= 3)%nat.
Proof.
  unfold planRoute.
  destruct (negb (hasNode g from) || negb (hasNode g to)).
  { intros [= <- _]. simpl. lia. }
  destruct (String.eqb from to).
  { intros [= <- _]. simpl. lia. }
  unfold mbind, M_bind.
  destruct (enumerate g oracle from to requestTime s) as [[opts| | |] s1];
    try discriminate.
  intros [= <- _]. apply compareRoutes_at_most_three.
Qed.

(** ** The scenario of one bus trip A, B, C *)

Lemma bus_not_default : bus ∉ defaultModes.
Proof. unfold defaultModes. rewrite !elem_of_cons, elem_of_nil. intros [|[|]]; congruence. Qed.

Lemma bus_only_nonneg g : bus_only g -> nonneg_times g defaultModes.
Proof.
  intros Hb x e He Hm. exfalso. rewrite (Hb x e He) in Hm. apply bus_not_default, Hm.
Qed.

Lemma bus_only_no_path g a b w :
  bus_only g -> a <> b -> ~ path_time g defaultModes a b w.
Proof.
  intros Hb Hne P. inversion P as [|c e w' P' He Hm Hn]; subst; [congruence|].
  rewrite (Hb c e He) in Hm. apply bus_not_default, Hm.
Qed.

Lemma bus_only_notFound g a b :
  bus_only g -> a <> b -> localShortestPath g a b defaultModes = Some notFound.
Proof.
  intros Hb Hne. apply localShortestPath_unreachable; [apply bus_only_nonneg, Hb|].
  intros w. apply bus_only_no_path; assumption.
Qed.

Lemma callSegment_unconfigured g oracle o d m s :
  apiKey (client s) = "" ->
  callSegment g oracle o d m s =
    (Returns (failure "Distance Matrix API key not configured"),
     {| client := client s; sent := sent s; calls := S (calls s) |}).
Proof.
  intros H. unfold callSegment. apply getLocalSegment_unconfigured. exact H.
Qed.

Lemma M_bind_eq {A B} (m : M A) (f : A -> M B) s a s' :
  m s = (Returns a, s') -> (m ≫= f) s = f a s'.
Proof. intros H. unfold mbind, M_bind. rewrite H. reflexivity. Qed.

Section Scenario.
Variables (g : Graph) (oracle : nat -> World).
Variables (nA nB nC : Node) (k rid name tid : string) (dir : Direction).
Hypothesis Hnodes : nodes g = [("A", nA); ("B", nB); ("C", nC)].
Hypothesis Hroutes : routes g = [(k, scenario_route rid name tid dir)].
Hypothesis Hbus : bus_only g.

Lemma hybrid_dropoff_destination route trip from to requestTime fromIndex acc i s :
  hybrid_dropoff g oracle route trip from to requestTime fromIndex acc (i, to) s =
    (Returns acc, s).
Proof. unfold hybrid_dropoff. rewrite String.eqb_refl. reflexivity. Qed.

Lemma hybrid_dropoff_unavailable route trip from to requestTime fromIndex acc i stop s :
  stop <> to ->
  apiKey (client s) = "" ->
  hybrid_dropoff g oracle route trip from to requestTime fromIndex acc (i, stop) s =
    (Returns acc, counted 1 s).
Proof.
  intros Hne Hkey. unfold hybrid_dropoff.
  rewrite (proj2 (String.eqb_neq stop to) Hne).
  unfold shortest. rewrite (bus_only_notFound g stop to Hbus Hne).
  erewrite M_bind_eq; [|reflexivity]. cbn [found notFound].
  erewrite M_bind_eq;
    [|erewrite M_bind_eq; [|apply callSegment_unconfigured, Hkey]; reflexivity].
  reflexivity.
Qed.

Lemma foldM_cons {A B} (f : A -> B -> M A) a b l s a' s' :
  f a b s = (Returns a', s') -> foldM f a (b :: l) s = foldM f a' l s'.
Proof.
  intros H. cbn [foldM].
  exact (M_bind_eq (f a b) (fun x => foldM f x l) s a' s' H).
Qed.

Lemma scenario_hybrid_trip s acc :
  apiKey (client s) = "" ->
  hybrid_trip g oracle (scenario_route rid name tid dir) "A" "C" "07:55" acc
    (scenario_trip tid dir) s = (Returns acc, counted 1 s).
Proof.
  intros Hkey. unfold hybrid_trip, scenario_trip. cbn [stops].
  change (indexOf "A" ["A"; "B"; "C"]) with 0.
  cbn [Z.eqb Z.add indexed_from].
  change (drop (Z.to_nat (0 + 1)) [(0, "A"); (0 + 1, "B"); (0 + 1 + 1, "C")])
    with [(1, "B"); (2, "C")].
  erewrite foldM_cons; [|apply hybrid_dropoff_unavailable; [discriminate|exact Hkey]].
  erewrite foldM_cons; [|apply hybrid_dropoff_destination].
  reflexivity.
Qed.

Lemma scenario_hybrid s :
  apiKey (client s) = "" ->
  busToLocalRoute g oracle (scenario_route rid name tid dir) "A" "C" "07:55" s =
    (Returns None, counted 1 s).
Proof.
  intros Hkey. unfold busToLocalRoute.
  erewrite M_bind_eq; cycle 1.
  { change (trips (scenario_route rid name tid dir)) with [scenario_trip tid dir].
    erewrite foldM_cons; [|apply scenario_hybrid_trip, Hkey].
    reflexivity. }
  reflexivity.
Qed.

Lemma scenario_local s :
  apiKey (client s) = "" ->
  localOnlyRoute g oracle "A" "C" s = (Returns None, counted 1 s).
Proof.
  intros Hkey. unfold localOnlyRoute, shortest.
  rewrite (bus_only_notFound g "A" "C" Hbus) by discriminate.
  erewrite M_bind_eq; [|reflexivity]. cbn [found notFound].
  erewrite M_bind_eq; [|apply callSegment_unconfigured, Hkey].
  reflexivity.
Qed.

Lemma scenario_transfers :
  findTransferRoutes g "A" "C" "07:55" = Returns [].
Proof.
  unfold findTransferRoutes, getAllRoutes. rewrite Hroutes.
  cbn [Map_values map snd concatM]. rewrite String.eqb_refl. reflexivity.
Qed.

Lemma scenario_direct_candidate :
  directBusRoute (scenario_route rid name tid dir) "A" "C" "07:55" =
    Returns (Some {| label := name +:+ " Direct"; category := fastest;
                     option_type := direct; transfers := 0; totalTimeMin := Num 15;
                     opt_totalCost := 0; localTimeMin := Num 0;
                     localDistanceMeters := 0; usesDistanceMatrix := false;
                     legs := legs (scenario_option rid tid) |}).
Proof. vm_compute. reflexivity. Qed.

Lemma scenario_plan s currentRoute :
  apiKey (client s) = "" ->
  planRoute g oracle "A" "C" "07:55" currentRoute s =
    (Returns {| resp_from := "A"; resp_to := "C"; resp_requestTime := "07:55";
                options := [scenario_option rid tid] |},
     counted 2 s).
Proof.
  intros Hkey.
  unfold planRoute, hasNode. rewrite Hnodes.
  cbn [Map_has Map_get String.eqb Ascii.eqb Bool.eqb negb orb].
  unfold enumerate, getAllRoutes. rewrite Hroutes. cbn [Map_values map snd foldM].
  rewrite scenario_direct_candidate, scenario_transfers.
  erewrite M_bind_eq; cycle 1.
  { erewrite M_bind_eq; cycle 1.
    { erewrite M_bind_eq; cycle 1.
      { erewrite M_bind_eq; [|reflexivity].
        erewrite M_bind_eq; [|apply scenario_hybrid, Hkey].
        reflexivity. }
      reflexivity. }
    erewrite M_bind_eq; [|reflexivity].
    erewrite M_bind_eq; [|apply scenario_local; exact Hkey].
    reflexivity. }
  reflexivity.
Qed.
End Scenario.

(** C5, amended.  On a graph whose nodes are A, B and C, with one route of
    a single trip calling at A, B, C and leaving at 08:00, with no local or
    walking edge and with no provider configured, [planRoute] from A to C at
    07:55 returns exactly one option: the direct one, leaving at 08:00,
    arriving at 08:10, of total time 15. *)
Theorem scenario_direct g oracle s nA nB nC k rid name tid dir currentRoute :
  nodes g = [("A", nA); ("B", nB); ("C", nC)] ->
  routes g = [(k, scenario_route rid name tid dir)] ->
  bus_only g ->
  apiKey (client s) = "" ->
  planRoute g oracle "A" "C" "07:55" currentRoute s =
    (Returns {| resp_from := "A"; resp_to := "C"; resp_requestTime := "07:55";
                options := [scenario_option rid tid] |},
     counted 2 s).
Proof.
  intros Hnodes Hroutes Hbus Hkey.
  exact (scenario_plan g oracle nA nB nC k rid name tid dir Hnodes Hroutes Hbus
           s currentRoute Hkey).
Qed.

(** ** The Direct strategy *)

Lemma direct_trip_spec route from to requestTime requestMin trip :
  minutesOf requestTime = Some requestMin ->
  is_Some (parseTime (departure_time trip)) ->
  if qualifies from to requestMin trip then
    exists o leg dep,
      direct_trip route from to requestTime trip = Returns (Some o) /\
      legs o = [leg] /\ option_type o = direct /\
      leg_route_id leg = Some (route_id route) /\
      leg_trip_id leg = Some (trip_id trip) /\
      leg_from leg = from /\ leg_to leg = to /\
      minutesOf (departure_time trip) = Some dep /\
      leg_durationMin leg =
        Some (Num ((indexOf to (stops trip) - indexOf from (stops trip)) * 5)) /\
      totalTimeMin o =
        Num ((indexOf to (stops trip) - indexOf from (stops trip)) * 5 +
             (dep + indexOf from (stops trip) * 5 - requestMin))
  else direct_trip route from to requestTime trip = Returns None.
Proof.
  intros Hrq [t Ht]. unfold minutesOf in Hrq.
  destruct (parseTime requestTime) as [rq|] eqn:Hp; [|discriminate].
  simpl in Hrq. injection Hrq as <-.
  unfold qualifies, direct_trip, minutesOf, parseTime_, addMinutes_, addMinutes.
  rewrite Ht, Hp. cbn [fmap option_fmap option_map].
  set (b := indexOf from (stops trip)). set (a := indexOf to (stops trip)).
  destruct (b =? -1); [reflexivity|].
  destruct (a =? -1); [reflexivity|].
  cbn [negb andb orb].
  destruct (Z.ltb_spec b a) as [Hlt|Hge].
  2:{ destruct (Z.leb_spec a b); [reflexivity|lia]. }
  destruct (Z.leb_spec a b); [lia|].
  cbn [mbind Outcome_bind].
  destruct (Z.leb_spec (timeToMinutes rq) (timeToMinutes t + b * 5)) as [Hle|Hgt].
  - destruct (Z.ltb_spec (timeToMinutes t + b * 5) (timeToMinutes rq)); [lia|].
    eexists _, _, _. split; [reflexivity|]. cbn [legs option_type totalTimeMin].
    repeat split; reflexivity.
  - destruct (Z.ltb_spec (timeToMinutes t + b * 5) (timeToMinutes rq)); [|lia].
    reflexivity.
Qed.

(** C3, amended.  For every route the Direct strategy yields at most one
    candidate: the one of the first trip, in the order of the route, that
    qualifies (it calls at both stops, boarding before alighting, and boards
    no earlier than the requested time), with ride time 5 minutes per hop and
    total time wait plus ride; it yields none when no trip qualifies. *)
Theorem directBusRoute_first_qualifying route from to requestTime requestMin :
  minutesOf requestTime = Some requestMin ->
  Forall (fun trip => is_Some (parseTime (departure_time trip))) (trips route) ->
  match List.find (qualifies from to requestMin) (trips route) with
  | Some trip =>
      exists o leg dep,
        directBusRoute route from to requestTime = Returns (Some o) /\
        legs o = [leg] /\ option_type o = direct /\
        leg_route_id leg = Some (route_id route) /\
        leg_trip_id leg = Some (trip_id trip) /\
        leg_from leg = from /\ leg_to leg = to /\
        minutesOf (departure_time trip) = Some dep /\
        leg_durationMin leg =
          Some (Num ((indexOf to (stops trip) - indexOf from (stops trip)) * 5)) /\
        totalTimeMin o =
          Num ((indexOf to (stops trip) - indexOf from (stops trip)) * 5 +
               (dep + indexOf from (stops trip) * 5 - requestMin))
  | None => directBusRoute route from to requestTime = Returns None
  end.
Proof.
  intros Hrq Hall. unfold directBusRoute.
  induction Hall as [|trip ts Ht Hts IH]; [reflexivity|].
  cbn [List.find first_trip].
  pose proof (direct_trip_spec route from to requestTime requestMin trip Hrq Ht) as Hd.
  destruct (qualifies from to requestMin trip).
  - destruct Hd as (o & leg & dep & -> & Hrest). exists o, leg, dep.
    split; [reflexivity|exact Hrest].
  - rewrite Hd. exact IH.
Qed.

(* ===================================================================== *)
(** * Witnesses and counterexamples *)
(* ===================================================================== *)

Example localShortestPath_sample :
  localShortestPath local_graph "A" "C" defaultModes =
    Some {| found := true; path := ["A"; "B"; "C"]; totalTime := Num 13; totalCost := 30;
            pr_edges := [ {| ei_to := "B"; ei_mode := local; ei_route_ids := None;
                             ei_time_min := 10; ei_cost := 30 |};
                          {| ei_to := "C"; ei_mode := walk; ei_route_ids := None;
                             ei_time_min := 3; ei_cost := 0 |} ] |}.
Proof. vm_compute. reflexivity. Qed.

Lemma localShortestPath_minimum_witness :
  exists r d, localShortestPath local_graph "A" "C" defaultModes = Some r /\
              found r = true /\ totalTime r = Num d /\
              shortest_time local_graph defaultModes "A" "C" d.
Proof.
  apply (localShortestPath_minimum local_graph "A" "C" defaultModes 20).
  - apply (loadData_nonneg_times local_data); [reflexivity|].
    repeat constructor; simpl; lia.
  - exact (path_step local_graph defaultModes "A" "A"
             {| ei_to := "C"; ei_mode := local; ei_route_ids := None;
                ei_time_min := 20; ei_cost := 50 |} 0
             (path_here local_graph defaultModes "A" eq_refl)
             ltac:(apply list_elem_of_In; vm_compute; tauto)
             ltac:(apply list_elem_of_In; vm_compute; tauto)
             eq_refl).
Defined.

(** C2.  On a network of two stops joined by a local edge and by one bus
    trip, [planRoute] returns three entries of which the last two are the
    same option: the least-local option is pushed without being recorded in
    [addedIds], and the closing loop pushes it again. *)
Theorem compareRoutes_repeats_least_local :
  exists resp s',
    planRoute duplicate_graph offline "A" "C" "08:00" None unconfigured = (Returns resp, s') /\
    map label (options resp) =
      ["Fastest Route"; "Least Local Transport"; "Least Local Transport"] /\
    map leg_identity (options resp) =
      [[("A", "C", local)]; [("A", "C", bus)]; [("A", "C", bus)]] /\
    ~ NoDup (map leg_identity (options resp)).
Proof.
  eexists _, _. split; [vm_compute; reflexivity|].
  split; [reflexivity|]. split; [reflexivity|].
  cbn [options]. intros H. apply NoDup_cons in H as [_ H].
  apply NoDup_cons in H as [H _]. apply H. left.
Qed.

Lemma direct_skips_later_trip :
  two_trips_route ∈ getAllRoutes two_trips_graph /\
  later_trip ∈ trips two_trips_route /\
  minutesOf "07:00" = Some 420 /\
  qualifies "A" "B" 420 later_trip = true /\
  exists opts s',
    enumerate two_trips_graph offline "A" "B" "07:00" unconfigured = (Returns opts, s') /\
    length opts = 1%nat /\
    forallb (fun o => negb (carries_trip two_trips_route later_trip o)) opts = true.
Proof.
  split; [apply list_elem_of_In; vm_compute; tauto|].
  split; [apply list_elem_of_In; vm_compute; tauto|].
  split; [reflexivity|]. split; [reflexivity|].
  eexists _, _. split; [vm_compute; reflexivity|]. split; reflexivity.
Qed.

Lemma directBusRoute_first_qualifying_witness :
  match List.find (qualifies "A" "B" 420) (trips two_trips_route) with
  | Some trip =>
      exists o leg dep,
        directBusRoute two_trips_route "A" "B" "07:00" = Returns (Some o) /\
        legs o = [leg] /\ option_type o = direct /\
        leg_route_id leg = Some (route_id two_trips_route) /\
        leg_trip_id leg = Some (trip_id trip) /\
        leg_from leg = "A" /\ leg_to leg = "B" /\
        minutesOf (departure_time trip) = Some dep /\
        leg_durationMin leg =
          Some (Num ((indexOf "B" (stops trip) - indexOf "A" (stops trip)) * 5)) /\
        totalTimeMin o =
          Num ((indexOf "B" (stops trip) - indexOf "A" (stops trip)) * 5 +
               (dep + indexOf "A" (stops trip) * 5 - 420))
  | None => directBusRoute two_trips_route "A" "B" "07:00" = Returns None
  end.
Proof.
  apply (directBusRoute_first_qualifying two_trips_route "A" "B" "07:00" 420).
  - reflexivity.
  - repeat constructor; vm_compute; eauto.
Defined.

Lemma quota_reached_cache_hit :
  configured (sample_sys "key" warm_cache 12 50) /\
  today (same_day (Rejected "timeout")) = lastReset (stats (sample_sys "key" warm_cache 12 50)) /\
  DAILY_LIMIT <= dailyCount (stats (sample_sys "key" warm_cache 12 50)) /\
  fst (getLocalSegment local_graph (same_day (Rejected "timeout")) "A" "B" driving
         (sample_sys "key" warm_cache 12 50))
    = Returns (cache_hit sample_entry) /\
  fst (getLocalSegment local_graph (same_day (Rejected "timeout")) "A" "B" driving
         (sample_sys "key" warm_cache 12 50))
    <> Returns (failure "Daily API quota exceeded").
Proof.
  split; [discriminate|]. split; [reflexivity|]. split; [vm_compute; discriminate|].
  split; [vm_compute; reflexivity|]. vm_compute. discriminate.
Qed.

Lemma quota_discipline_witness :
  exists s',
    run_calls local_graph sample_calls (sample_sys "key" warm_cache 12 50) =
      (map (fun c => Returns (served_without_network
                                (client (sample_sys "key" warm_cache 12 50)) c))
           sample_calls, s') /\
    sent s' = sent (sample_sys "key" warm_cache 12 50) /\
    dailyCount (stats s') = dailyCount (stats (sample_sys "key" warm_cache 12 50)) /\
    monthlyCount (stats s') = monthlyCount (stats (sample_sys "key" warm_cache 12 50)) /\
    lastReset (stats s') = lastReset (stats (sample_sys "key" warm_cache 12 50)).
Proof.
  apply (quota_discipline local_graph sample_calls (sample_sys "key" warm_cache 12 50)).
  - discriminate.
  - repeat constructor.
  - left. vm_compute. discriminate.
Defined.

(** The same graph and query with a provider that is configured and
    answers: the hybrid and the local-only strategy find an option each, the
    local-only one is the fastest, and the direct option comes second and
    third. *)
Lemma scenario_with_provider :
  nodes scenario_graph = [("A", sample_node "A"); ("B", sample_node "B");
                          ("C", sample_node "C")] /\
  routes scenario_graph = [("bus1", scenario_route "bus1" "Bus 1" "bus1_0800" to_campus)] /\
  bus_only scenario_graph /\
  exists resp s',
    planRoute scenario_graph answering "A" "C" "07:55" None (sample_sys "key" ∅ 0 0)
      = (Returns resp, s') /\
    map (fun o => (label o, option_type o, totalTimeMin o)) (options resp) =
      [("Fastest Route", local_only, Num 6);
       ("Least Local Transport", direct, Num 15);
       ("Least Local Transport", direct, Num 15)].
Proof.
  split; [reflexivity|]. split; [reflexivity|]. split.
  { apply (loadData_bus_only scenario_data); [reflexivity|]. repeat constructor. }
  eexists _, _. split; [vm_compute; reflexivity|]. reflexivity.
Qed.

Lemma scenario_direct_witness :
  planRoute scenario_graph offline "A" "C" "07:55" None unconfigured =
    (Returns {| resp_from := "A"; resp_to := "C"; resp_requestTime := "07:55";
                options := [scenario_option "bus1" "bus1_0800"] |},
     counted 2 unconfigured).
Proof.
  apply (scenario_direct scenario_graph offline unconfigured (sample_node "A")
           (sample_node "B") (sample_node "C") "bus1" "bus1" "Bus 1" "bus1_0800"
           to_campus None).
  - reflexivity.
  - reflexivity.
  - apply (loadData_bus_only scenario_data); [reflexivity|].
    repeat constructor.
  - reflexivity.
Defined.

Lemma cache_hit_after_rollover :
  configured (sample_sys "key" warm_cache 5 5) /\
  cache (client (sample_sys "key" warm_cache 5 5)) !! cacheKey_of "A" "B" driving
    = Some sample_entry /\
  now (next_day (Rejected "timeout")) - timestamp sample_entry < TTL_MS /\
  fst (getLocalSegment local_graph (next_day (Rejected "timeout")) "A" "B" driving
         (sample_sys "key" warm_cache 5 5))
    = Returns (cache_hit sample_entry) /\
  dailyCount (stats (sample_sys "key" warm_cache 5 5)) = 5 /\
  dailyCount (stats (snd (getLocalSegment local_graph (next_day (Rejected "timeout"))
                            "A" "B" driving (sample_sys "key" warm_cache 5 5)))) = 0.
Proof.
  split; [discriminate|]. split; [vm_compute; reflexivity|].
  split; [vm_compute; reflexivity|]. split; [vm_compute; reflexivity|].
  split; vm_compute; reflexivity.
Qed.

Lemma cache_hit_served_witness :
  (now (same_day (Rejected "timeout")) - timestamp sample_entry < TTL_MS ->
     exists s',
       getLocalSegment local_graph (same_day (Rejected "timeout")) "A" "B" driving
         (sample_sys "key" warm_cache 5 5) = (Returns (cache_hit sample_entry), s') /\
       cacheHits (stats s') = cacheHits (stats (sample_sys "key" warm_cache 5 5)) + 1 /\
       dailyCount (stats s') =
         dailyCount (rolled (same_day (Rejected "timeout")) (sample_sys "key" warm_cache 5 5)) /\
       monthlyCount (stats s') =
         monthlyCount (rolled (same_day (Rejected "timeout")) (sample_sys "key" warm_cache 5 5)) /\
       (lastReset (stats (sample_sys "key" warm_cache 5 5)) = today (same_day (Rejected "timeout")) ->
          dailyCount (stats s') = dailyCount (stats (sample_sys "key" warm_cache 5 5)) /\
          monthlyCount (stats s') = monthlyCount (stats (sample_sys "key" warm_cache 5 5))) /\
       sent s' = sent (sample_sys "key" warm_cache 5 5) /\
       cache (client s') = cache (client (sample_sys "key" warm_cache 5 5))) /\
  (TTL_MS <= now (same_day (Rejected "timeout")) - timestamp sample_entry ->
     forall r s',
       getLocalSegment local_graph (same_day (Rejected "timeout")) "A" "B" driving
         (sample_sys "key" warm_cache 5 5) = (Returns r, s') ->
       fromCache r <> Some true).
Proof.
  apply (cache_hit_served local_graph (same_day (Rejected "timeout")) "A" "B" driving
           (sample_sys "key" warm_cache 5 5) sample_entry).
  - discriminate.
  - vm_compute. reflexivity.
Defined.

Lemma quota_failure_not_counted :
  configured (sample_sys "key" ∅ 700 3) /\
  fresh_entry (same_day (Rejected "timeout")) (client (sample_sys "key" ∅ 700 3))
    (cacheKey_of "A" "B" driving) = None /\
  fst (getLocalSegment local_graph (same_day (Rejected "timeout")) "A" "B" driving
         (sample_sys "key" ∅ 700 3))
    = Returns (failure "Monthly API quota exceeded") /\
  cacheMisses (stats (snd (getLocalSegment local_graph (same_day (Rejected "timeout"))
                             "A" "B" driving (sample_sys "key" ∅ 700 3))))
    = cacheMisses (stats (sample_sys "key" ∅ 700 3)).
Proof.
  split; [discriminate|]. split; [vm_compute; reflexivity|].
  split; vm_compute; reflexivity.
Qed.

Lemma cacheMisses_counted_witness :
  cacheMisses (stats (logged sample_request (missed (sample_sys "key" ∅ 3 3)))) =
    if (monthlyCount (rolled (same_day (Rejected "timeout")) (sample_sys "key" ∅ 3 3))
          <? MONTHLY_LIMIT)
       && (dailyCount (rolled (same_day (Rejected "timeout")) (sample_sys "key" ∅ 3 3))
             <? DAILY_LIMIT)
       && hasNode local_graph "A" && hasNode local_graph "B"
    then cacheMisses (stats (sample_sys "key" ∅ 3 3)) + 1
    else cacheMisses (stats (sample_sys "key" ∅ 3 3)).
Proof.
  apply (cacheMisses_counted local_graph (same_day (Rejected "timeout")) "A" "B" driving
           (sample_sys "key" ∅ 3 3) (network_failure "timeout")).
  - discriminate.
  - vm_compute. reflexivity.
  - vm_compute. reflexivity.
Defined.



Lemma planRoute_no_solution_witness :
  planRoute local_graph offline "A" "A" "08:00" None unconfigured =
    (Returns {| resp_from := "A"; resp_to := "A"; resp_requestTime := "08:00";
                options := [] |}, unconfigured).
Proof.
  apply (planRoute_no_solution local_graph offline "A" "A" "08:00" None unconfigured).
  right. right. reflexivity.
Defined.

(* ===================================================================== *)
(** * Further properties of the code *)
(* ===================================================================== *)

(** ** Times of the day *)

Lemma Number_go_nonneg s acc n : 0 <= acc -> Number_go acc s = Some n -> 0 <= n.
Proof.
  revert acc. induction s as [|c s IH]; simpl; intros acc Hacc H.
  - congruence.
  - destruct (digit_of c) as [d|] eqn:Hd; [|discriminate].
    apply IH in H; [exact H|].
    unfold digit_of in Hd.
    destruct ((48 <=? _) && _) eqn:Hb; [|discriminate].
    apply andb_true_iff in Hb as [H1 _]. simplify_eq. lia.
Qed.

Lemma parseTime_nonneg s t : parseTime s = Some t -> 0 <= hours t /\ 0 <= minutes t.
Proof.
  unfold parseTime. intros H.
  destruct (split ":" s) as [|h [|m l]]; try discriminate.
  destruct (Number h) as [hh|] eqn:Hh; [|discriminate].
  destruct (Number m) as [mm|] eqn:Hm; [|discriminate].
  simplify_eq. simpl.
  split; eapply Number_go_nonneg; try eassumption; lia.
Qed.

Lemma minutesOf_nonneg s m : minutesOf s = Some m -> 0 <= m.
Proof.
  unfold minutesOf. destruct (parseTime s) as [t|] eqn:Ht; [|discriminate].
  simpl. intros [= <-]. apply parseTime_nonneg in Ht. unfold timeToMinutes. lia.
Qed.

Lemma day_minutes_round_trip :
  forallb (fun m => bool_decide (minutesOf (minutesToTime m) = Some m)) day_minutes = true.
Proof. vm_compute. reflexivity. Qed.

Lemma elem_of_day_minutes m : 0 <= m < 1440 -> m ∈ day_minutes.
Proof.
  intros Hm. unfold day_minutes.
  apply list_elem_of_fmap. exists (Z.to_nat m). split; [lia|].
  apply list_elem_of_In, in_seq. lia.
Qed.

Lemma minutesOf_minutesToTime m :
  0 <= m < 1440 -> minutesOf (minutesToTime m) = Some m.
Proof.
  intros Hm.
  pose proof day_minutes_round_trip as H.
  rewrite forallb_forall in H.
  specialize (H m). rewrite <- list_elem_of_In in H.
  specialize (H (elem_of_day_minutes m Hm)).
  apply bool_decide_eq_true_1 in H. exact H.
Qed.

Lemma addMinutes_minutesOf s m n :
  minutesOf s = Some m -> 0 <= m + n ->
  exists r, addMinutes s n = Some r /\ minutesOf r = Some ((m + n) mod 1440).
Proof.
  unfold minutesOf, addMinutes. intros Hs Hn.
  destruct (parseTime s) as [t|] eqn:Ht; [|discriminate].
  simpl in Hs. injection Hs as <-.
  eexists. split; [reflexivity|].
  rewrite Z.rem_mod_nonneg by lia.
  change (timeToMinutes <$> parseTime ?x) with (minutesOf x).
  apply minutesOf_minutesToTime. apply Z.mod_pos_bound. lia.
Qed.

Lemma minutesOf_parseTime s : is_Some (minutesOf s) <-> is_Some (parseTime s).
Proof.
  unfold minutesOf. destruct (parseTime s); simpl; split; intros [? ?]; eauto; discriminate.
Qed.

Lemma addMinutes_parses s n r :
  addMinutes s n = Some r -> 0 <= n -> is_Some (parseTime r).
Proof.
  intros H Hn.
  destruct (minutesOf s) as [m|] eqn:Hm.
  - pose proof (minutesOf_nonneg _ _ Hm) as H0.
    destruct (addMinutes_minutesOf s m n Hm) as (r' & Hr & Hp); [lia|].
    rewrite Hr in H. simplify_eq. apply minutesOf_parseTime. eauto.
  - unfold addMinutes in H. unfold minutesOf in Hm.
    destruct (parseTime s); [discriminate|discriminate].
Qed.

Lemma addMinutes_Some s n : is_Some (parseTime s) -> is_Some (addMinutes s n).
Proof. unfold addMinutes. intros [t ->]. eauto. Qed.

(** ** The time format of the validation *)

Lemma in_class_spec lo hi c :
  in_class lo hi c = true <->
  (nat_of_ascii lo <= nat_of_ascii c <= nat_of_ascii hi)%nat.
Proof.
  unfold in_class. rewrite andb_true_iff, !Nat.leb_le. tauto.
Qed.

Lemma digit_of_code c :
  (48 <= nat_of_ascii c <= 57)%nat ->
  digit_of c = Some (Z.of_nat (nat_of_ascii c) - 48) /\ Ascii.eqb c ":" = false.
Proof.
  intros Hc. split.
  - unfold digit_of.
    replace ((48 <=? Z.of_nat (nat_of_ascii c)) && (Z.of_nat (nat_of_ascii c) <=? 57))
      with true; [reflexivity|].
    symmetry. apply andb_true_iff. split; apply Z.leb_le; lia.
  - apply Ascii.eqb_neq. intros ->. change (nat_of_ascii ":") with 58%nat in Hc. lia.
Qed.

Lemma nullable_matches r : nullable r = true -> matches r "".
Proof.
  induction r; simpl; intros H; try discriminate.
  - constructor.
  - apply andb_true_iff in H as [H1 H2].
    change "" with ("" +:+ ""). constructor; auto.
  - apply orb_true_iff in H as [H|H]; [apply matches_Or_l|apply matches_Or_r]; auto.
  - constructor.
Qed.

Lemma derive_matches c r s : matches (derive c r) s -> matches r (String c s).
Proof.
  revert s. induction r; simpl; intros s H.
  - inversion H.
  - inversion H.
  - destruct (Ascii.eqb c0 c) eqn:Hc; inversion H; subst.
    apply Ascii.eqb_eq in Hc as ->. constructor.
  - destruct (in_class lo hi c) eqn:Hc; inversion H; subst. constructor. exact Hc.
  - destruct (nullable r1) eqn:Hn.
    + inversion H; subst.
      * match goal with Hs : matches (Cat _ _) _ |- _ => inversion Hs; subst end.
        change (String c (?a +:+ ?b)) with (String c a +:+ b).
        constructor; auto.
      * change (String c s) with ("" +:+ String c s).
        constructor; [apply nullable_matches; exact Hn|auto].
    + inversion H; subst.
      change (String c (?a +:+ ?b)) with (String c a +:+ b).
      constructor; auto.
  - inversion H; subst; [apply matches_Or_l|apply matches_Or_r]; auto.
  - apply matches_Maybe_some. auto.
Qed.

Lemma regex_test_matches r s : regex_test r s = true -> matches r s.
Proof.
  revert r. induction s as [|c s IH]; simpl; intros r H.
  - apply nullable_matches. exact H.
  - apply derive_matches, IH, H.
Qed.

Lemma matches_Range_inv lo hi s :
  matches (Range lo hi) s -> exists c, s = String c "" /\ in_class lo hi c = true.
Proof. inversion 1; subst; eauto. Qed.

Lemma digit_class lo hi c :
  (48 <= nat_of_ascii lo)%nat -> (nat_of_ascii hi <= 57)%nat ->
  in_class lo hi c = true ->
  exists d, digit_of c = Some d /\ Ascii.eqb c ":" = false /\
            Z.of_nat (nat_of_ascii lo) - 48 <= d <= Z.of_nat (nat_of_ascii hi) - 48.
Proof.
  intros Hlo Hhi Hc. apply in_class_spec in Hc.
  destruct (digit_of_code c) as [Hd Hcolon]; [lia|].
  eexists. split; [exact Hd|]. split; [exact Hcolon|]. lia.
Qed.

Lemma timeRegex_parseTime s :
  regex_test timeRegex s = true ->
  exists h m, parseTime s = Some {| hours := h; minutes := m |} /\
              0 <= h <= 23 /\ 0 <= m <= 59.
Proof.
  intros H. apply regex_test_matches in H. unfold timeRegex in H.
  inversion H as [| | |r1 r2 sh st Hh Ht| | | |]; subst. clear H.
  inversion Ht as [| | |r1 r2 sc sm Hc Hm| | | |]; subst. clear Ht.
  inversion Hc; subst. clear Hc.
  inversion Hm as [| | |r1 r2 s1 s2 H1 H2| | | |]; subst. clear Hm.
  apply matches_Range_inv in H1 as (m1 & -> & Hm1).
  apply matches_Range_inv in H2 as (m2 & -> & Hm2).
  apply digit_class in Hm1 as (d1 & Hd1 & Hk1 & Hr1); [|apply Nat.leb_le; reflexivity..].
  apply digit_class in Hm2 as (d2 & Hd2 & Hk2 & Hr2); [|apply Nat.leb_le; reflexivity..].
  change (Z.of_nat (nat_of_ascii "0")) with 48 in *.
  change (Z.of_nat (nat_of_ascii "5")) with 53 in *.
  change (Z.of_nat (nat_of_ascii "9")) with 57 in *.
  assert (Hmin : forall hs h, Number hs = Some h ->
            (forall c, In c (list_ascii_of_string hs) -> Ascii.eqb c ":" = false) ->
            parseTime (hs +:+ String ":" (String m1 (String m2 ""))) =
              Some {| hours := h; minutes := 10 * d1 + d2 |}).
  { intros hs h Hn Hcs. unfold parseTime.
    assert (Hsplit : split ":" (hs +:+ String ":" (String m1 (String m2 ""))) =
                     [hs; String m1 (String m2 "")]).
    { clear Hn. induction hs as [|c hs IH]; simpl.
      - rewrite Hk1, Hk2. reflexivity.
      - rewrite (Hcs c) by (simpl; auto).
        change (append hs ?x) with (hs +:+ x).
        rewrite IH; [reflexivity|]. intros c' Hc'. apply Hcs. simpl. auto. }
    rewrite Hsplit, Hn. unfold Number. simpl. rewrite Hd1. simpl. rewrite Hd2.
    reflexivity. }
  inversion Hh as [| | | |r1 r2 s0 Ha|r1 r2 s0 Hb| |]; subst; clear Hh.
  - inversion Ha as [| | |r1 r2 so s9 Ho H9| | | |]; subst. clear Ha.
    apply matches_Range_inv in H9 as (h2 & -> & Hh2).
    apply digit_class in Hh2 as (e2 & He2 & Hke2 & Hre2); [|apply Nat.leb_le; reflexivity..].
    change (Z.of_nat (nat_of_ascii "0")) with 48 in *.
    change (Z.of_nat (nat_of_ascii "9")) with 57 in *.
    inversion Ho as [| | | | | |r|r s0 Hopt]; subst; clear Ho.
    + exists e2, (10 * d1 + d2). split; [|lia].
      apply (Hmin (String h2 "") e2).
      * unfold Number. simpl. rewrite He2. reflexivity.
      * simpl. intros c [<-|[]]. exact Hke2.
    + apply matches_Range_inv in Hopt as (h1 & -> & Hh1).
      apply digit_class in Hh1 as (e1 & He1 & Hke1 & Hre1); [|apply Nat.leb_le; reflexivity..].
      change (Z.of_nat (nat_of_ascii "0")) with 48 in *.
      change (Z.of_nat (nat_of_ascii "1")) with 49 in *.
      exists (10 * e1 + e2), (10 * d1 + d2). split; [|lia].
      apply (Hmin (String h1 (String h2 "")) (10 * e1 + e2)).
      * unfold Number. simpl. rewrite He1. simpl. rewrite He2. reflexivity.
      * simpl. intros c [<-|[<-|[]]]; assumption.
  - inversion Hb as [| | |r1 r2 s2' s3 H2c H3| | | |]; subst. clear Hb.
    inversion H2c; subst. clear H2c.
    apply matches_Range_inv in H3 as (h2 & -> & Hh2).
    apply digit_class in Hh2 as (e2 & He2 & Hke2 & Hre2); [|apply Nat.leb_le; reflexivity..].
    change (Z.of_nat (nat_of_ascii "0")) with 48 in *.
    change (Z.of_nat (nat_of_ascii "3")) with 51 in *.
    exists (20 + e2), (10 * d1 + d2). split; [|lia].
    apply (Hmin (String "2" (String h2 "")) (20 + e2)).
    + unfold Number. simpl. rewrite He2. reflexivity.
    + simpl. intros c [<-|[<-|[]]]; [reflexivity|assumption].
Qed.

(** ** Times of the day and the time format *)

Lemma day_minutes_format :
  forallb (fun m => regex_test timeRegex (minutesToTime m)) day_minutes = true.
Proof. vm_compute. reflexivity. Qed.

(** X1.  [minutesToTime] and [parseTime] are inverse on the minutes of a
    day: for 0 <= m < 1440 the string [minutesToTime m] reads back as minute
    [m], and it has the HH:MM format the request validation admits. *)
Theorem minutesToTime_round_trip m :
  0 <= m < 1440 ->
  minutesOf (minutesToTime m) = Some m /\ regex_test timeRegex (minutesToTime m) = true.
Proof.
  intros Hm. split; [apply minutesOf_minutesToTime, Hm|].
  pose proof day_minutes_format as H. rewrite forallb_forall in H.
  apply H. apply list_elem_of_In, elem_of_day_minutes, Hm.
Qed.

(** X2.  [addMinutes] wraps at 24 hours: for a time string that reads
    as minute [m] and an offset with [0 <= m + n], the result reads as
    [(m + n) mod 1440]. *)
Theorem addMinutes_wraps s m n :
  minutesOf s = Some m -> 0 <= m + n ->
  exists r, addMinutes s n = Some r /\ minutesOf r = Some ((m + n) mod 1440).
Proof.
  intros Hs Hn. destruct (addMinutes_minutesOf s m n Hs Hn) as (r & Hr & Hm).
  exists r. split; assumption.
Qed.


(** The conversion to a string returns or throws. *)
Lemma toString_ends v :
  (exists s, toString v = Returns s) \/ (exists message, toString v = Throws message).
Proof.
  revert v. fix IH 1. intros [x|items|fields].
  - left. eexists. reflexivity.
  - assert (Hall : Forall (fun y => (exists s, toString y = Returns s) \/
                                    (exists message, toString y = Throws message)) items).
    { induction items as [|y l IHl]; constructor; [apply IH|exact IHl]. }
    clear IH. cbn [toString]. induction Hall as [|y l Hy Hl IHl].
    + left. eexists. reflexivity.
    + destruct l as [|z l']; [exact Hy|].
      destruct Hy as [[a Ha]|[ma Ha]]; rewrite Ha; cbn [mbind Outcome_bind].
      * destruct IHl as [[b Hb]|[mb Hb]]; rewrite Hb; cbn [mbind Outcome_bind];
          [left|right]; eexists; reflexivity.
      * right. eexists. reflexivity.
  - cbn [toString]. destruct (existsb _ fields); [right|left]; eexists; reflexivity.
Qed.

(** The validation answers 400, calls [next()] or throws. *)
Lemma validateRouteQuery_ends g from to time :
  (exists v, validateRouteQuery g from to time = Returns v) \/
  (exists message, validateRouteQuery g from to time = Throws message).
Proof.
  unfold validateRouteQuery.
  destruct from as [f|]; [|left; eexists; reflexivity].
  destruct to as [t|]; [|left; eexists; reflexivity].
  destruct time as [tm|]; [|left; eexists; reflexivity].
  destruct (_ || _); [left; eexists; reflexivity|].
  destruct (negb (hasNode_value g f)).
  { destruct (toString_ends f) as [[x ->]|[x ->]]; [left|right]; eexists; reflexivity. }
  destruct (negb (hasNode_value g t)).
  { destruct (toString_ends t) as [[x ->]|[x ->]]; [left|right]; eexists; reflexivity. }
  destruct (toString_ends tm) as [[x ->]|[x ->]]; cbn [mbind Outcome_bind].
  - destruct (negb _); left; eexists; reflexivity.
  - right. eexists. reflexivity.
Qed.

(** The validation throws only on a value that is no string. *)
Lemma validateRouteQuery_throws g from to time message :
  validateRouteQuery g from to time = Throws message ->
  (exists v, from = Some v /\ forall s, v <> QString s) \/
  (exists v, to = Some v /\ forall s, v <> QString s) \/
  (exists v, time = Some v /\ forall s, v <> QString s).
Proof.
  unfold validateRouteQuery.
  destruct from as [f|]; [|discriminate].
  destruct to as [t|]; [|discriminate].
  destruct time as [tm|]; [|discriminate].
  destruct (_ || _); [discriminate|].
  destruct (hasNode_value g f) eqn:Hf; cbn [negb].
  2:{ destruct f as [fs| |]; [simpl; discriminate| |];
        intros _; left; eexists; (split; [reflexivity|]); discriminate. }
  destruct (hasNode_value g t) eqn:Ht; cbn [negb].
  2:{ destruct t as [ts| |]; [simpl; discriminate| |];
        intros _; right; left; eexists; (split; [reflexivity|]); discriminate. }
  destruct tm as [ts| |].
  - simpl. destruct (regex_test timeRegex ts); discriminate.
  - intros _. right. right. eexists. split; [reflexivity|]. discriminate.
  - intros _. right. right. eexists. split; [reflexivity|]. discriminate.
Qed.

Lemma validateRouteQuery_parses g from to time :
  validateRouteQuery g from to time = Returns Next ->
  exists f t tv ts, from = Some (QString f) /\ to = Some (QString t) /\ time = Some tv /\
                    toString tv = Returns ts /\ is_Some (parseTime ts).
Proof.
  unfold validateRouteQuery.
  destruct from as [f|]; [|discriminate].
  destruct to as [t|]; [|discriminate].
  destruct time as [tm|]; [|discriminate].
  destruct (_ || _); [discriminate|].
  destruct f as [f| |]; cbn [hasNode_value negb];
    try (destruct (toString _); discriminate).
  destruct (hasNode g f); cbn [negb]; [|discriminate].
  destruct t as [t| |]; cbn [hasNode_value negb];
    try (destruct (toString _); discriminate).
  destruct (hasNode g t); cbn [negb]; [|discriminate].
  destruct (toString tm) as [ts| | |] eqn:Hts; cbn [mbind Outcome_bind]; try discriminate.
  destruct (regex_test timeRegex ts) eqn:Hre; [|discriminate].
  intros _. destruct (timeRegex_parseTime ts Hre) as (h & m & Hp & _).
  exists f, t, tm, ts. split_and!; eauto.
Qed.

(** X4.  A query that [validateRouteQuery] lets through has a [from]
    and a [to] that are strings and name nodes of the graph, and a [time]
    whose string form [parseTime] reads, with hours in 0..23 and minutes in
    0..59.  The time itself need not be a string: the validation tests the
    string form of whatever value it is given
    ([validateRouteQuery_array_time]). *)
Theorem validateRouteQuery_admits g from to time :
  validateRouteQuery g from to time = Returns Next ->
  exists f t tv ts h m,
    from = Some (QString f) /\ to = Some (QString t) /\ time = Some tv /\
    hasNode g f = true /\ hasNode g t = true /\
    toString tv = Returns ts /\
    parseTime ts = Some {| hours := h; minutes := m |} /\
    0 <= h <= 23 /\ 0 <= m <= 59.
Proof.
  unfold validateRouteQuery.
  destruct from as [f|]; [|discriminate].
  destruct to as [t|]; [|discriminate].
  destruct time as [tm|]; [|discriminate].
  destruct (_ || _); [discriminate|].
  destruct f as [f| |]; cbn [hasNode_value negb];
    try (destruct (toString _); discriminate).
  destruct (hasNode g f) eqn:Hf; cbn [negb]; [|discriminate].
  destruct t as [t| |]; cbn [hasNode_value negb];
    try (destruct (toString _); discriminate).
  destruct (hasNode g t) eqn:Ht; cbn [negb]; [|discriminate].
  destruct (toString tm) as [ts| | |] eqn:Hts; cbn [mbind Outcome_bind]; try discriminate.
  destruct (regex_test timeRegex ts) eqn:Hre; [|discriminate].
  intros _. destruct (timeRegex_parseTime ts Hre) as (h & m & Hp & Hh & Hm).
  exists f, t, tm, ts, h, m. split_and!; auto; lia.
Qed.

(** ** Maps *)

Lemma Map_get_set {V} k k' (v : V) m :
  Map_get k' (Map_set k v m) = if String.eqb k k' then Some v else Map_get k' m.
Proof.
  induction m as [|[k0 v0] m IH]; simpl.
  - reflexivity.
  - destruct (String.eqb k0 k) eqn:E0; simpl.
    + apply String.eqb_eq in E0 as ->. destruct (String.eqb k k'); reflexivity.
    + rewrite IH. destruct (String.eqb k0 k') eqn:E1; [|reflexivity].
      apply String.eqb_eq in E1 as ->. rewrite String.eqb_sym, E0. reflexivity.
Qed.

Lemma Map_set_fresh {V} k (v : V) m :
  k ∉ Map_keys m -> Map_set k v m = m ++ [(k, v)].
Proof.
  induction m as [|[k0 v0] m IH]; simpl; intros Hk.
  - reflexivity.
  - apply not_elem_of_cons in Hk as [Hne Hk].
    destruct (String.eqb k0 k) eqn:E0.
    + apply String.eqb_eq in E0. congruence.
    + rewrite IH by exact Hk. reflexivity.
Qed.

Lemma Map_keys_set {V} k (v : V) m x :
  x ∈ Map_keys (Map_set k v m) <-> x = k \/ x ∈ Map_keys m.
Proof.
  rewrite <- !Map_has_keys. unfold Map_has. rewrite Map_get_set.
  destruct (String.eqb k x) eqn:E.
  - apply String.eqb_eq in E. subst. tauto.
  - apply String.eqb_neq in E. split; [tauto|]. intros [->|H]; [congruence|exact H].
Qed.

Section Keyed.
Context {V : Type}.
Variable key : V -> string.

Lemma fold_Map_set_get x (l : list V) m :
  Map_get x (fold_left (fun m v => Map_set (key v) v m) l m) =
    match last (List.filter (fun v => String.eqb (key v) x) l) with
    | Some v => Some v
    | None => Map_get x m
    end.
Proof.
  revert m. induction l as [|a l IH]; intros m; simpl.
  - reflexivity.
  - rewrite IH, Map_get_set.
    destruct (String.eqb (key a) x) eqn:E.
    + destruct (List.filter _ l) as [|b l'] eqn:Hf; simpl; [reflexivity|].
      change (last (a :: b :: l')) with (last (b :: l')).
      destruct (last (b :: l')) eqn:Hl; [reflexivity|].
      apply last_None in Hl. discriminate.
    + reflexivity.
Qed.

Lemma fold_Map_set_keys x (l : list V) m :
  x ∈ Map_keys (fold_left (fun m v => Map_set (key v) v m) l m) <->
  x ∈ map key l \/ x ∈ Map_keys m.
Proof.
  revert m. induction l as [|a l IH]; intros m; simpl.
  - rewrite elem_of_nil. tauto.
  - rewrite IH, Map_keys_set, elem_of_cons. tauto.
Qed.

Lemma fold_Map_set_NoDup (l : list V) m :
  NoDup (map key l) -> (forall x, x ∈ map key l -> x ∉ Map_keys m) ->
  fold_left (fun m v => Map_set (key v) v m) l m = m ++ map (fun v => (key v, v)) l.
Proof.
  revert m. induction l as [|a l IH]; intros m Hnd Hfresh; simpl.
  - rewrite app_nil_r. reflexivity.
  - apply NoDup_cons in Hnd as [Ha Hnd].
    rewrite Map_set_fresh by (apply Hfresh; simpl; left).
    rewrite IH; [rewrite <- app_assoc; reflexivity|exact Hnd|].
    intros x Hx. unfold Map_keys. rewrite map_app, elem_of_app. simpl.
    rewrite list_elem_of_singleton. intros [Hm| ->].
    + apply (Hfresh x); [simpl; right; exact Hx|exact Hm].
    + exact (Ha Hx).
Qed.
End Keyed.

(** ** The adjacency list *)

Lemma init_adjacency keys (adj : gmap string (list EdgeInfo)) x :
  fold_left (fun adj nodeId => <[nodeId := []]> adj) keys adj !! x =
    if bool_decide (x ∈ keys) then Some [] else adj !! x.
Proof.
  revert adj. induction keys as [|k keys IH]; intros adj; simpl.
  - reflexivity.
  - rewrite IH. destruct (decide (x ∈ keys)) as [Hin|Hnin].
    + rewrite !bool_decide_eq_true_2; [reflexivity|right; exact Hin|exact Hin].
    + rewrite (bool_decide_eq_false_2 _ Hnin).
      destruct (decide (x = k)) as [->|Hne].
      * rewrite lookup_insert_eq, bool_decide_eq_true_2 by left. reflexivity.
      * rewrite lookup_insert_ne by congruence.
        rewrite bool_decide_eq_false_2; [reflexivity|].
        rewrite elem_of_cons. tauto.
Qed.

Lemma adj_push_lookup k e adj adj' x :
  adj_push k e adj = Some adj' ->
  is_Some (adj !! k) /\
  (is_Some (adj' !! x) <-> is_Some (adj !! x)) /\
  default [] (adj' !! x) = default [] (adj !! x) ++ (if String.eqb k x then [e] else []).
Proof.
  unfold adj_push. destruct (adj !! k) as [l|] eqn:Hk; [|discriminate].
  intros [= <-]. split; [eauto|].
  destruct (String.eqb k x) eqn:E.
  - apply String.eqb_eq in E as <-. rewrite lookup_insert_eq, Hk. simpl.
    split; [split; eauto|reflexivity].
  - apply String.eqb_neq in E. rewrite lookup_insert_ne by exact E.
    rewrite app_nil_r. split; [tauto|reflexivity].
Qed.

Lemma adj_push_Some k e (adj : gmap string (list EdgeInfo)) :
  is_Some (adj !! k) -> is_Some (adj_push k e adj).
Proof. unfold adj_push. intros [l ->]. eauto. Qed.

Lemma add_edge_lookup adj edge adj' x :
  add_edge adj edge = Some adj' ->
  (is_Some (adj !! edge_from edge) /\ (one_way edge = false -> is_Some (adj !! edge_to edge))) /\
  (is_Some (adj' !! x) <-> is_Some (adj !! x)) /\
  default [] (adj' !! x) = default [] (adj !! x) ++ contribution x edge.
Proof.
  unfold add_edge, contribution.
  fold (forward_info edge). fold (backward_info edge).
  destruct (adj_push (edge_from edge) (forward_info edge) adj) as [adj1|] eqn:H1;
    [|discriminate].
  pose proof (adj_push_lookup _ _ _ _ x H1) as (Hf & Hd1 & Hl1).
  destruct (one_way edge); simpl.
  - intros [= <-]. rewrite app_nil_r. split; [split; [exact Hf|discriminate]|].
    split; assumption.
  - intros H2.
    pose proof (adj_push_lookup _ _ _ _ x H2) as (Ht & Hd2 & Hl2).
    pose proof (adj_push_lookup _ _ _ _ (edge_to edge) H1) as (_ & Hd1' & _).
    split; [split; [exact Hf|intros _; apply Hd1'; exact Ht]|].
    split; [rewrite Hd2, Hd1; reflexivity|].
    rewrite Hl2, Hl1, <- app_assoc. reflexivity.
Qed.

Lemma add_edge_Some adj edge :
  is_Some (adj !! edge_from edge) ->
  (one_way edge = false -> is_Some (adj !! edge_to edge)) ->
  is_Some (add_edge adj edge).
Proof.
  intros Hf Ht. unfold add_edge.
  destruct (adj_push_Some (edge_from edge) (forward_info edge) adj Hf) as [adj1 H1].
  unfold forward_info in H1. rewrite H1.
  destruct (one_way edge); [eauto|].
  apply adj_push_Some.
  apply (adj_push_lookup _ _ _ _ (edge_to edge) H1). auto.
Qed.

Lemma add_edges_lookup es adj adj' x :
  add_edges adj es = Some adj' ->
  Forall (fun edge => is_Some (adj !! edge_from edge) /\
                      (one_way edge = false -> is_Some (adj !! edge_to edge))) es /\
  (is_Some (adj' !! x) <-> is_Some (adj !! x)) /\
  default [] (adj' !! x) = default [] (adj !! x) ++ flat_map (contribution x) es.
Proof.
  revert adj. induction es as [|edge es IH]; intros adj; simpl.
  - intros [= <-]. rewrite app_nil_r. split; [constructor|]. split; [tauto|reflexivity].
  - destruct (add_edge adj edge) as [adj1|] eqn:H1; [|discriminate].
    intros H2. apply IH in H2 as (Hall & Hd & Hl).
    pose proof (add_edge_lookup _ _ _ x H1) as (Hanch & Hd1 & Hl1).
    split; [|split].
    + constructor; [exact Hanch|].
      eapply Forall_impl; [exact Hall|]. simpl. intros e [Hf Ht].
      split.
      * apply (add_edge_lookup _ _ _ (edge_from e) H1). exact Hf.
      * intros Hw. apply (add_edge_lookup _ _ _ (edge_to e) H1). auto.
    + rewrite Hd, Hd1. reflexivity.
    + rewrite Hl, Hl1, <- app_assoc. reflexivity.
Qed.

Lemma add_edges_Some es adj :
  Forall (fun edge => is_Some (adj !! edge_from edge) /\
                      (one_way edge = false -> is_Some (adj !! edge_to edge))) es ->
  is_Some (add_edges adj es).
Proof.
  revert adj. induction es as [|edge es IH]; intros adj Hall; simpl.
  - eauto.
  - apply Forall_cons in Hall as [[Hf Ht] Hall].
    destruct (add_edge_Some adj edge Hf Ht) as [adj1 H1]. rewrite H1.
    apply IH. eapply Forall_impl; [exact Hall|]. simpl. intros e [Hf' Ht'].
    split.
    + apply (add_edge_lookup _ _ _ (edge_from e) H1). exact Hf'.
    + intros Hw. apply (add_edge_lookup _ _ _ (edge_to e) H1). auto.
Qed.

Lemma loadData_keys d x :
  x ∈ Map_keys (fold_left (fun m node => Map_set (node_id node) node m) (gd_nodes d) [])
  <-> known d x.
Proof.
  rewrite (fold_Map_set_keys node_id). unfold known, Map_keys. simpl.
  rewrite elem_of_nil. tauto.
Qed.

Lemma loadData_inv d g :
  loadData d = Some g ->
  nodes g = fold_left (fun m node => Map_set (node_id node) node m) (gd_nodes d) [] /\
  routes g = fold_left (fun m route => Map_set (route_id route) route m) (gd_routes d) [] /\
  edges g = gd_edges d /\
  buildAdjacencyList (nodes g) (gd_edges d) = Some (adjacencyList g).
Proof.
  unfold loadData.
  destruct (buildAdjacencyList _ _) as [adj|] eqn:Hadj; [|discriminate].
  intros [= <-]. simpl. auto.
Qed.

Lemma loadData_hasNode d g x :
  loadData d = Some g -> (hasNode g x = true <-> known d x).
Proof.
  intros H. apply loadData_inv in H as (Hn & _). unfold hasNode.
  rewrite Map_has_keys, Hn. apply loadData_keys.
Qed.

Lemma initial_adjacency_key d x :
  is_Some (fold_left (fun adj nodeId => <[nodeId := []]> adj)
             (Map_keys (fold_left (fun m node => Map_set (node_id node) node m)
                          (gd_nodes d) [])) (∅ : gmap string (list EdgeInfo)) !! x)
  <-> known d x.
Proof.
  rewrite init_adjacency, <- loadData_keys.
  destruct (decide (x ∈ Map_keys (fold_left (fun m node => Map_set (node_id node) node m)
                                   (gd_nodes d) []))) as [Hin|Hnin].
  - rewrite bool_decide_eq_true_2 by exact Hin. split; eauto.
  - rewrite bool_decide_eq_false_2 by exact Hnin. rewrite lookup_empty.
    split; [intros [? ?]; discriminate|tauto].
Qed.

(** X5.  [loadData] succeeds exactly when every edge starts at a known
    node and every two-way edge also ends at one; otherwise
    [buildAdjacencyList] pushes onto an undefined entry and the load raises.
    A one-way edge may end at an unknown node. *)
Theorem loadData_succeeds_iff d :
  is_Some (loadData d) <-> Forall (anchored d) (gd_edges d).
Proof.
  unfold loadData, buildAdjacencyList. split.
  - intros [g Hg].
    destruct (add_edges _ _) as [adj|] eqn:Hadj; [|discriminate].
    apply (add_edges_lookup _ _ _ "") in Hadj as (Hall & _).
    eapply Forall_impl; [exact Hall|]. simpl. intros e [Hf Ht].
    split; [apply initial_adjacency_key; exact Hf|].
    intros Hw. apply initial_adjacency_key. auto.
  - intros Hall.
    destruct (add_edges_Some (gd_edges d)
                (fold_left (fun adj nodeId => <[nodeId := []]> adj)
                   (Map_keys (fold_left (fun m node => Map_set (node_id node) node m)
                                (gd_nodes d) [])) ∅)) as [adj Hadj].
    + eapply Forall_impl; [exact Hall|]. simpl. intros e [Hf Ht].
      split; [apply initial_adjacency_key; exact Hf|].
      intros Hw. apply initial_adjacency_key. auto.
    + rewrite Hadj. eauto.
Qed.

Lemma getNeighbors_loadData d g x :
  loadData d = Some g ->
  getNeighbors g x = flat_map (contribution x) (gd_edges d).
Proof.
  intros H. apply loadData_inv in H as (Hn & _ & _ & Hadj).
  unfold buildAdjacencyList in Hadj.
  apply (add_edges_lookup _ _ _ x) in Hadj as (_ & _ & Hl).
  unfold getNeighbors. rewrite Hl, init_adjacency.
  destruct (bool_decide _); simpl; reflexivity.
Qed.

Lemma elem_of_contribution x edge e :
  e ∈ contribution x edge <->
  (edge_from edge = x /\ e = forward_info edge) \/
  (one_way edge = false /\ edge_to edge = x /\ e = backward_info edge).
Proof.
  unfold contribution. rewrite elem_of_app.
  destruct (String.eqb_spec (edge_from edge) x) as [Hf|Hf];
    destruct (one_way edge); simpl;
    destruct (String.eqb_spec (edge_to edge) x) as [Ht|Ht];
    rewrite ?list_elem_of_singleton, ?elem_of_nil; intuition congruence.
Qed.

(** X6.  After [loadData], the neighbours of a node are, in the order
    of the edge list, the forward entry of every edge that starts at it and
    the backward entry of every two-way edge that ends at it, and nothing
    else. *)
Theorem loadData_adjacency d g x :
  loadData d = Some g ->
  getNeighbors g x = flat_map (contribution x) (gd_edges d) /\
  forall e, e ∈ getNeighbors g x <->
    exists edge, edge ∈ gd_edges d /\
      ((edge_from edge = x /\ e = forward_info edge) \/
       (one_way edge = false /\ edge_to edge = x /\ e = backward_info edge)).
Proof.
  intros H. pose proof (getNeighbors_loadData d g x H) as E.
  split; [exact E|]. intros e. rewrite E, list_elem_of_In, in_flat_map.
  split; intros (edge & H1 & H2); exists edge.
  - rewrite list_elem_of_In. split; [exact H1|].
    apply elem_of_contribution, list_elem_of_In, H2.
  - rewrite <- !list_elem_of_In. split; [exact H1|].
    apply elem_of_contribution, H2.
Qed.

Lemma loadData_adjacency_key d g x :
  loadData d = Some g -> (is_Some (adjacencyList g !! x) <-> hasNode g x = true).
Proof.
  intros H. rewrite (loadData_hasNode d g x H).
  apply loadData_inv in H as (Hn & _ & _ & Hadj).
  unfold buildAdjacencyList in Hadj.
  apply (add_edges_lookup _ _ _ x) in Hadj as (_ & Hd & _).
  rewrite Hd, Hn. apply initial_adjacency_key.
Qed.

(** X7.  An id that names no node of a loaded graph has no node
    record; it has no neighbours and no edge either, provided it is none of
    the names [Object.prototype] defines and no node is called "__proto__":
    the adjacency list is a plain object, in which such a name finds an
    inherited property ([getNeighbors] then returns it, and [getEdge]
    raises). *)
Theorem loadData_unknown_node d g x :
  loadData d = Some g -> hasNode g x = false ->
  getNode g x = None /\
  (hasNode g "__proto__" = false -> x ∉ Object_prototype_keys ->
   getNeighbors g x = [] /\ forall to mode, getEdge g x to mode = None).
Proof.
  intros H Hx.
  assert (Hn : getNeighbors g x = []).
  { unfold getNeighbors.
    destruct (adjacencyList g !! x) as [l|] eqn:Hl; [|reflexivity].
    assert (is_Some (adjacencyList g !! x)) as Hs by eauto.
    apply (loadData_adjacency_key d g x H) in Hs. congruence. }
  split.
  - unfold hasNode, Map_has in Hx. unfold getNode.
    destruct (Map_get x (nodes g)); [discriminate|reflexivity].
  - intros _ _. split; [exact Hn|].
    intros to mode. unfold getEdge. rewrite Hn. reflexivity.
Qed.

(** X8.  When several node records share an id, [getNode] returns the
    last of them: [loadData] overwrites the earlier ones. *)
Theorem loadData_getNode d g x :
  loadData d = Some g ->
  getNode g x = last (List.filter (fun node => String.eqb (node_id node) x) (gd_nodes d)).
Proof.
  intros H. apply loadData_inv in H as (Hn & _).
  unfold getNode. rewrite Hn, (fold_Map_set_get node_id). simpl.
  destruct (last _); reflexivity.
Qed.

(** X9.  When the ids of the data set are pairwise distinct,
    [getAllNodes] and [getAllRoutes] return the nodes and the routes of the
    data set, in their order. *)
Theorem loadData_distinct_ids d g :
  loadData d = Some g ->
  NoDup (map node_id (gd_nodes d)) -> NoDup (map route_id (gd_routes d)) ->
  getAllNodes g = gd_nodes d /\ getAllRoutes g = gd_routes d.
Proof.
  intros H Hn Hr. apply loadData_inv in H as (En & Er & _).
  unfold getAllNodes, getAllRoutes, Map_values. rewrite En, Er.
  rewrite (fold_Map_set_NoDup node_id), (fold_Map_set_NoDup route_id);
    try assumption; try (intros; apply not_elem_of_nil).
  simpl. rewrite !map_map. simpl. rewrite !map_id. auto.
Qed.

(** X10.  Every edge of the data set can be looked up with [getEdge]
    from its [from] end, and from its [to] end too when it is two-way; the
    entry found leads to the other end and has the mode asked for. *)
Theorem loadData_getEdge d g edge :
  loadData d = Some g -> edge ∈ gd_edges d ->
  (exists e, getEdge g (edge_from edge) (edge_to edge) (Some (edge_mode edge)) = Some e /\
             e ∈ getNeighbors g (edge_from edge) /\
             ei_to e = edge_to edge /\ ei_mode e = edge_mode edge) /\
  (one_way edge = false ->
   exists e, getEdge g (edge_to edge) (edge_from edge) (Some (edge_mode edge)) = Some e /\
             e ∈ getNeighbors g (edge_to edge) /\
             ei_to e = edge_from edge /\ ei_mode e = edge_mode edge).
Proof.
  intros H Hin.
  assert (Hfind : forall x y m info,
            info ∈ getNeighbors g x -> ei_to info = y -> ei_mode info = m ->
            exists e, getEdge g x y (Some m) = Some e /\ e ∈ getNeighbors g x /\
                      ei_to e = y /\ ei_mode e = m).
  { intros x y m info Hi Hy Hm. unfold getEdge.
    destruct (find _ (getNeighbors g x)) as [e|] eqn:Hf.
    - apply find_some in Hf as [He Hp]. apply andb_true_iff in Hp as [Hp1 Hp2].
      exists e. split; [reflexivity|]. split; [apply list_elem_of_In, He|].
      split; [apply String.eqb_eq, Hp1|apply bool_decide_eq_true in Hp2; exact Hp2].
    - exfalso. apply list_elem_of_In in Hi.
      pose proof (find_none _ _ Hf info Hi) as Hn. simpl in Hn.
      rewrite Hy, String.eqb_refl, bool_decide_eq_true_2 in Hn by exact Hm.
      discriminate. }
  split.
  - apply (Hfind _ _ _ (forward_info edge)); [|reflexivity|reflexivity].
    rewrite (getNeighbors_loadData d g _ H), list_elem_of_In, in_flat_map.
    exists edge. split; [apply list_elem_of_In, Hin|].
    apply list_elem_of_In, elem_of_contribution. auto.
  - intros Hw. apply (Hfind _ _ _ (backward_info edge)); [|reflexivity|reflexivity].
    rewrite (getNeighbors_loadData d g _ H), list_elem_of_In, in_flat_map.
    exists edge. split; [apply list_elem_of_In, Hin|].
    apply list_elem_of_In, elem_of_contribution. auto.
Qed.

(** ** The search keeps a shortest-path tree *)

Section TreeInv.
Variable g : Graph.
Variable modes : list Mode.
Variable src : string.
Hypothesis nonneg : nonneg_times g modes.

Lemma tree_visit cur st : Tree g modes src st -> Tree g modes src (visit cur st).
Proof.
  intros T. destruct T. split; simpl; auto.
  intros v p Hp. destruct (tr_link0 v p Hp) as (e & dp & cp & H).
  exists e, dp, cp. rewrite elem_of_Set_delete. intuition.
Qed.

Lemma tree_relax cur st e :
  Tree g modes src st -> cur ∉ unvisited st -> e ∈ getNeighbors g cur ->
  Tree g modes src (relax modes cur st e).
Proof.
  intros T Hcur He. unfold relax.
  destruct (bool_decide (ei_mode e ∈ modes)) eqn:Hm; simpl; [|exact T].
  apply bool_decide_eq_true in Hm.
  destruct (Set_has (ei_to e) (unvisited st)) eqn:Hu; simpl; [|exact T].
  apply Set_has_true in Hu.
  destruct (distances st !! cur) as [dc|] eqn:Hdc; [|exact T].
  destruct (distances st !! ei_to e) as [dto|] eqn:Hdto; [|exact T].
  destruct (costs st !! cur) as [ccur|] eqn:Hcc; [|exact T].
  destruct (num_lt (num_add dc (Num (ei_time_min e))) dto) eqn:Hlt; [|exact T].
  destruct dc as [dcur|]; [|discriminate]. cbn [num_add] in *.
  pose proof (tr_nonneg T _ _ Hdc) as Hdcur.
  pose proof (nonneg _ _ He Hm) as Ht.
  assert (Hne : ei_to e <> cur) by (intros E; rewrite E in Hu; contradiction).
  assert (Hsrc : ei_to e <> src).
  { intros E. rewrite E, (tr_src_dist T) in Hdto. simplify_eq.
    apply num_lt_Num in Hlt. lia. }
  split; simpl.
  - rewrite lookup_insert_ne by exact Hsrc. apply (tr_src_dist T).
  - rewrite lookup_insert_ne by exact Hsrc. apply (tr_src_cost T).
  - intros p. rewrite lookup_insert_ne by exact Hsrc. apply (tr_src_prev T).
  - intros v d. destruct (decide (ei_to e = v)) as [<-|Hv].
    + rewrite lookup_insert_eq. intros [= <-]. lia.
    + rewrite lookup_insert_ne by exact Hv. apply (tr_nonneg T).
  - intros v d. destruct (decide (ei_to e = v)) as [<-|Hv].
    + rewrite !lookup_insert_eq. eauto.
    + rewrite !lookup_insert_ne by exact Hv. apply (tr_root T).
  - intros v p. destruct (decide (ei_to e = v)) as [<-|Hv].
    + rewrite !lookup_insert_eq. intros [= <-].
      exists e, dcur, ccur. rewrite !lookup_insert_ne by exact Hne.
      split_and!; try assumption; reflexivity.
    + rewrite lookup_insert_ne by exact Hv. intros Hp.
      destruct (tr_link T v p Hp) as (e' & dp & cp & H1 & H2 & H3 & H4 & H5 & H6 & H7 & H8 & H9).
      assert (Hp' : ei_to e <> p) by (intros E; rewrite E in Hu; contradiction).
      exists e', dp, cp. rewrite !lookup_insert_ne by assumption.
      split_and!; assumption.
Qed.

Lemma tree_fold cur es st :
  Tree g modes src st -> cur ∉ unvisited st ->
  (forall e, e ∈ es -> e ∈ getNeighbors g cur) ->
  Tree g modes src (fold_left (relax modes cur) es st).
Proof.
  revert st. induction es as [|e es IH]; intros st T Hcur Hes; simpl; [exact T|].
  apply IH.
  - apply tree_relax; [exact T|exact Hcur|apply Hes; left].
  - rewrite relax_unvisited. exact Hcur.
  - intros e' He'. apply Hes. right. exact He'.
Qed.

Lemma tree_loop dst fuel st st' :
  Tree g modes src st -> dijkstra_loop g dst modes fuel st = Some st' ->
  Tree g modes src st'.
Proof.
  revert st. induction fuel as [|fuel IH]; intros st T; simpl; [discriminate|].
  destruct (unvisited st) as [|u us] eqn:Hus; [intros [= <-]; exact T|].
  destruct (find_min st) as [[cur|] [d|]]; try (intros [= <-]; exact T).
  destruct (String.eqb cur dst).
  - intros [= <-]. apply tree_visit, T.
  - apply IH. apply tree_fold.
    + apply tree_visit, T.
    + simpl. rewrite elem_of_Set_delete. tauto.
    + auto.
Qed.

Lemma tree_init : hasNode g src = true -> Tree g modes src (dijkstra_init g src).
Proof.
  intros Hs. unfold dijkstra_init.
  destruct (init_fold (Map_keys (nodes g))
              {| distances := ∅; costs := ∅; previous := ∅; edgeMap := ∅; unvisited := [] |})
    as (Hu & Hin & Hout & He).
  simpl in Hu, Hin, Hout, He.
  set (st := fold_left init_node (Map_keys (nodes g)) _) in *.
  assert (Hprev : forall x p, previous st !! x = Some (Some p) -> False).
  { intros x p Hp. destruct (decide (x ∈ Map_keys (nodes g))) as [Hx|Hx].
    - destruct (Hin x Hx) as (_ & _ & E). congruence.
    - destruct (Hout x Hx) as (_ & _ & E). rewrite E, lookup_empty in Hp. discriminate. }
  assert (Hfin : forall v d, <[src := Num 0]> (distances st) !! v = Some (Num d) ->
                             v = src /\ d = 0).
  { intros v d. destruct (decide (src = v)) as [->|Hne].
    - rewrite lookup_insert_eq. intros [= <-]. auto.
    - rewrite lookup_insert_ne by exact Hne. intros Hv.
      destruct (decide (v ∈ Map_keys (nodes g))) as [Hk|Hk].
      + destruct (Hin v Hk) as (E & _). congruence.
      + destruct (Hout v Hk) as (E & _). rewrite E, lookup_empty in Hv. discriminate. }
  split; simpl.
  - apply lookup_insert_eq.
  - unfold hasNode in Hs. apply Map_has_keys in Hs. apply (Hin src Hs).
  - intros p Hp. eapply Hprev, Hp.
  - intros v d Hv. apply Hfin in Hv as [_ ->]. lia.
  - intros v d Hv Hne. apply Hfin in Hv as [-> _]. congruence.
  - intros v p Hp. exfalso. eapply Hprev, Hp.
Qed.

(** The loop that rebuilds the path walks the tree back to the source. *)
Lemma reconstruct_follows st :
  Tree g modes src st ->
  (forall p d, distances st !! p = Some (Num d) -> p <> "") ->
  forall fuel x acc es P E dx cx,
    reconstruct fuel st x acc es = Some (P, E) ->
    distances st !! x = Some (Num dx) -> costs st !! x = Some cx ->
    follows g modes (x :: acc) es ->
    head P = Some src /\ last P = last (x :: acc) /\ follows g modes P E /\
    total ei_time_min E = dx + total ei_time_min es /\
    total ei_cost E = cx + total ei_cost es.
Proof.
  intros T Hnames. induction fuel as [|fuel IH]; intros x acc es P E dx cx; simpl;
    [discriminate|].
  destruct (truthy (previous st !! x)) as [p|] eqn:Hp.
  - apply truthy_Some in Hp.
    destruct (tr_link T x p Hp) as (e & dp & cp & He & Hin & Hm & Hto & Hdp & Hdx & Hcp & Hcx & _).
    rewrite He. intros Hrec Hd Hc Hw.
    rewrite Hdx in Hd. rewrite Hcx in Hc. simplify_eq.
    destruct (IH p (ei_to e :: acc) (e :: es) P E dp cp Hrec Hdp Hcp) as (H1 & H2 & H3 & H4 & H5).
    { simpl. auto. }
    split; [exact H1|]. split; [exact H2|]. split; [exact H3|].
    simpl in H4, H5. split; lia.
  - intros [= <- <-] Hd Hc Hw.
    assert (x = src) as ->.
    { destruct (decide (x = src)) as [E|Hne]; [exact E|].
      destruct (tr_root T x dx Hd Hne) as [p Hprev].
      rewrite Hprev in Hp. simpl in Hp.
      destruct (String.eqb p "") eqn:Eq; [|discriminate].
      apply String.eqb_eq in Eq. subst p.
      destruct (tr_link T x "" Hprev) as (e & dp & cp & _ & _ & _ & _ & Hdp & _).
      exfalso. exact (Hnames "" dp Hdp eq_refl). }
    rewrite (tr_src_dist T) in Hd. rewrite (tr_src_cost T) in Hc. simplify_eq.
    split; [reflexivity|]. split; [reflexivity|]. split; [exact Hw|]. split; lia.
Qed.
End TreeInv.

Lemma localShortestPath_follows g from to modes r :
  nonneg_times g modes -> hasNode g "" = false ->
  localShortestPath g from to modes = Some r -> found r = true ->
  head (path r) = Some from /\ last (path r) = Some to /\
  follows g modes (path r) (pr_edges r) /\
  totalTime r = Num (total ei_time_min (pr_edges r)) /\
  totalCost r = total ei_cost (pr_edges r).
Proof.
  intros Hn Hempty. unfold localShortestPath.
  destruct (hasNode g from) eqn:Hf; cbn [negb orb]; [|intros [= <-]; discriminate].
  destruct (hasNode g to) eqn:Ht; cbn [negb orb]; [|intros [= <-]; discriminate].
  destruct (String.eqb_spec from to) as [->|Hne].
  { intros [= <-] _. simpl. auto. }
  set (st0 := dijkstra_init g from).
  destruct (dijkstra_loop_final g modes from to (length (unvisited st0)) Hn
              (S (length (unvisited st0))) [] st0 (dijkstra_init_Inv g modes from Hf)
              (Nat.lt_succ_diag_r _)) as (vis & st & Hloop & F).
  rewrite Hloop.
  pose proof (tree_loop g modes from Hn to _ _ _ (tree_init g modes from Hf) Hloop) as T.
  destruct (distances st !! to) as [[d|]|] eqn:Hd; [|intros [= <-]; discriminate|discriminate].
  destruct (costs st !! to) as [c|] eqn:Hc; [|discriminate].
  destruct (reconstruct _ st to [] []) as [[p es]|] eqn:Hrec; [|discriminate].
  intros [= <-] _. simpl.
  assert (Hnames : forall x dx, distances st !! x = Some (Num dx) -> x <> "").
  { intros x dx Hx ->. apply (fin_sound F) in Hx. apply path_time_nodes in Hx.
    destruct Hx. congruence. }
  destruct (reconstruct_follows g modes from st T Hnames _ _ _ _ _ _ d c Hrec Hd Hc I)
    as (H1 & H2 & H3 & H4 & H5).
  simpl in H4, H5. split_and!; try assumption; [f_equal|]; lia.
Qed.

Lemma follows_length g modes p es : follows g modes p es -> length p = S (length es).
Proof.
  revert p. induction es as [|e es IH]; intros p Hw.
  - destruct p as [|a [|b p]]; simpl in Hw; try contradiction. reflexivity.
  - destruct p as [|a [|b p]]; try contradiction.
    destruct Hw as (_ & _ & _ & Hw). apply IH in Hw.
    cbn [length] in *. lia.
Qed.

(** X11.  The path [localShortestPath] returns is a path of the graph:
    it starts at [from], ends at [to], has one node more than it has edges,
    each edge is an allowed edge of the adjacency list from one node of the
    path to the next, and [totalTime] and [totalCost] are the sums of the
    times and of the costs of these edges.  Hypotheses: non-negative times,
    and no node whose id is the empty string (the loop that rebuilds the path
    stops at a falsy predecessor). *)
Theorem localShortestPath_path g from to modes r :
  nonneg_times g modes -> hasNode g "" = false ->
  localShortestPath g from to modes = Some r -> found r = true ->
  head (path r) = Some from /\ last (path r) = Some to /\
  follows g modes (path r) (pr_edges r) /\
  length (path r) = S (length (pr_edges r)) /\
  totalTime r = Num (total ei_time_min (pr_edges r)) /\
  totalCost r = total ei_cost (pr_edges r).
Proof.
  intros Hn He Hr Hf.
  destruct (localShortestPath_follows g from to modes r Hn He Hr Hf) as (H1 & H2 & H3 & H4 & H5).
  split_and!; try assumption. eapply follows_length, H3.
Qed.

(** X12.  On non-negative times [localShortestPath] always returns, and
    [found] tells whether some allowed path exists; the result of a failed
    search is the constant [notFound], with [totalTime = Infinity]. *)
Theorem localShortestPath_found_iff g from to modes :
  nonneg_times g modes ->
  exists r, localShortestPath g from to modes = Some r /\
            (found r = true <-> exists w, path_time g modes from to w) /\
            (found r = false -> r = notFound).
Proof.
  intros Hn. destruct (localShortestPath_spec g from to modes Hn)
    as (r & Heq & [[-> Hno]|(Hfound & d & Ht & [P _])]).
  - exists notFound. split; [exact Heq|]. split; [|reflexivity].
    simpl. split; [discriminate|]. intros [w P]. exfalso. eapply Hno, P.
  - exists r. split; [exact Heq|]. split.
    + split; [eauto|auto].
    + congruence.
Qed.

(** ** The client: what every call leaves behind *)

Lemma segment_outcome_of g w o d m s r s' :
  getLocalSegment g w o d m s = (Returns r, s') -> segment_outcome g w o d m s r s'.
Proof.
  intros H. destruct (getLocalSegment_outcome g w o d m s) as (r0 & s0 & Heq & Ho).
  rewrite Heq in H. simplify_eq. exact Ho.
Qed.

(** What an answered request leaves behind. *)
Lemma request_answered w k req s data r s' :
  axios_get w req = Resolved data ->
  try_catch (request_segment w k req) on_error s = (Returns r, s') ->
  sent s' = sent s ++ [req] /\ calls s' = calls s /\
  apiKey (client s') = apiKey (client s) /\
  usageStats (client s') = usageStats (client (answered req s)) /\
  (ok r = false -> cache (client s') = cache (client s)) /\
  (ok r = true ->
     fromCache r = Some false /\ is_Some (distanceMeters r) /\
     is_Some (durationSeconds r) /\
     cache (client s') = <[k := stored w r]> (cache (client s))).
Proof.
  intros H. unfold request_segment, on_error. run_monad. rewrite H.
  destruct data as [body|]; simpl;
    [|intros [= <- <-]; simpl; split_and!; auto; discriminate].
  destruct (is_OK (status body)) eqn:Hst; simpl;
    [|intros [= <- <-]; simpl; split_and!; auto; discriminate].
  run_monad.
  destruct (rows body) as [[|row rs]|] eqn:Hrows; simpl;
    try (intros [= <- <-]; simpl; split_and!; auto; discriminate).
  destruct (elements row) as [[|el els]|] eqn:Hels; simpl;
    try (intros [= <- <-]; simpl; split_and!; auto; discriminate).
  destruct (is_OK (el_status el)) eqn:Hel; simpl;
    intros [= <- <-]; simpl; split_and!; auto; try discriminate.
Qed.

Lemma rolled_within w s : within_quota (stats s) -> within_quota (rolled w s).
Proof.
  unfold within_quota, rolled, resetCounters_on, MONTHLY_LIMIT, DAILY_LIMIT.
  intros [H1 H2].
  destruct (negb _); [|auto]. simpl. destruct (negb _); simpl; lia.
Qed.

Lemma rolled_lastReset w s : lastReset (rolled w s) = today w.
Proof.
  unfold rolled, resetCounters_on.
  destruct (String.eqb (lastReset (stats s)) (today w)) eqn:E; simpl.
  - apply String.eqb_eq. exact E.
  - destruct (String.eqb _ _); reflexivity.
Qed.

(** The state every ending of a call leaves, in one statement. *)
Lemma call_effect g w o d m s r s' :
  getLocalSegment g w o d m s = (Returns r, s') ->
  apiKey (client s') = apiKey (client s) /\ calls s' = calls s /\
  (within_quota (stats s) -> within_quota (stats s')) /\
  (configured s -> lastReset (stats s') = today w) /\
  (forall k, k <> cacheKey_of o d m -> cache (client s') !! k = cache (client s) !! k) /\
  (is_Some (cache (client s) !! cacheKey_of o d m) ->
   is_Some (cache (client s') !! cacheKey_of o d m)) /\
  (sent s' = sent s \/
   fresh_entry w (client s) (cacheKey_of o d m) = None /\
   monthlyCount (rolled w s) < MONTHLY_LIMIT /\ dailyCount (rolled w s) < DAILY_LIMIT /\
   fromCache r <> Some true /\
   exists req, the_request g s o d m = Some req /\ sent s' = sent s ++ [req]).
Proof.
  intros H. apply segment_outcome_of in H.
  destruct H as [Hk|e Hk He|r s' Hk He Hf].
  - split_and!; auto. intros Hc. exfalso. exact (Hc Hk).
  - simpl. split_and!; auto.
    + intros Hq. apply (rolled_within w) in Hq. exact Hq.
    + intros _. apply rolled_lastReset.
  - pose proof (rolled_lastReset w s) as Hlast.
    remember (with_stats (rolled w s) s) as s1 eqn:Es1.
    assert (Hs1 : stats s1 = rolled w s) by (subst s1; reflexivity).
    assert (Ha : apiKey (client s1) = apiKey (client s)) by (subst s1; reflexivity).
    assert (Hc : cache (client s1) = cache (client s)) by (subst s1; reflexivity).
    assert (Hn : calls s1 = calls s) by (subst s1; reflexivity).
    assert (Hsent : sent s1 = sent s) by (subst s1; reflexivity).
    assert (Hreq : the_request g s1 o d m = the_request g s o d m) by (subst s1; reflexivity).
    assert (Hq1 : within_quota (stats s) -> within_quota (stats s1)).
    { rewrite Hs1. apply rolled_within. }
    rewrite <- Hs1 in Hlast |- *. rewrite <- Ha, <- Hc, <- Hn, <- Hsent, <- Hreq.
    clear Es1 Hs1 Ha Hc Hn Hsent Hreq.
    destruct Hf as [Hm|Hm Hd|Hm Hd Hr|req message Hm Hd Hr Hax|req data r s' Hm Hd Hr Hax Htry].
    + split_and!; auto.
    + split_and!; auto.
    + split_and!; auto.
    + simpl. split_and!; auto.
      right. split_and!; auto; try discriminate; eauto.
    + destruct (request_answered _ _ _ _ _ _ _ Hax Htry) as (Hs & Hc & Hk' & Hu & Hfail & Hok).
      unfold stats. rewrite Hu. simpl. split_and!; auto.
      * intros Hq. apply Hq1 in Hq. unfold within_quota, stats in *. simpl. lia.
      * intros k Hne. destruct (ok r) eqn:Eok.
        -- destruct (Hok eq_refl) as (_ & _ & _ & ->).
           rewrite lookup_insert_ne by congruence. reflexivity.
        -- rewrite (Hfail eq_refl). reflexivity.
      * destruct (ok r) eqn:Eok.
        -- destruct (Hok eq_refl) as (_ & _ & _ & ->).
           rewrite lookup_insert_eq. eauto.
        -- rewrite (Hfail eq_refl). auto.
      * right. split_and!; auto.
        -- destruct (ok r) eqn:Eok.
           ++ destruct (Hok eq_refl) as (-> & _). discriminate.
           ++ eapply fresh_outcome_not_from_cache. eapply fo_resolved; eassumption.
        -- eauto.
Qed.

Lemma call_returns g w o d m s :
  exists r, getLocalSegment g w o d m s = (Returns r, snd (getLocalSegment g w o d m s)).
Proof.
  destruct (getLocalSegment_outcome g w o d m s) as (r & s' & Heq & _).
  exists r. rewrite Heq. reflexivity.
Qed.

Lemma callSegment_effect g oracle o d m s :
  exists r s', callSegment g oracle o d m s = (Returns r, s') /\
    calls s' = S (calls s) /\ apiKey (client s') = apiKey (client s) /\
    (within_quota (stats s) -> within_quota (stats s')) /\
    (length (sent s') <= S (length (sent s)))%nat.
Proof.
  unfold callSegment.
  destruct (getLocalSegment_outcome g (oracle (calls s)) o d m
              {| client := client s; sent := sent s; calls := S (calls s) |})
    as (r & s' & Heq & _).
  exists r, s'. split; [exact Heq|].
  destruct (call_effect _ _ _ _ _ _ _ _ Heq) as (Ha & Hc & Hq & _ & _ & _ & Hs).
  split_and!; auto.
  destruct Hs as [->|(_ & _ & _ & _ & req & _ & ->)]; simpl.
  - lia.
  - rewrite length_app. simpl. lia.
Qed.

(** X14.  [prewarmCache] returns whatever the provider does: it makes
    one [getLocalSegment] call per pair, sends at most one request per pair,
    keeps the API key and keeps the counters within their limits. *)
Theorem prewarmCache_returns g oracle pairs s :
  exists s', prewarmCache g oracle pairs s = (Returns tt, s') /\
    calls s' = (calls s + length pairs)%nat /\
    (length (sent s') <= length (sent s) + length pairs)%nat /\
    apiKey (client s') = apiKey (client s) /\
    (within_quota (stats s) -> within_quota (stats s')).
Proof.
  unfold prewarmCache. revert s.
  induction pairs as [|[[o d] m] pairs IH]; intros s; simpl.
  - exists s. split; [reflexivity|]. split_and!; auto; lia.
  - destruct (callSegment_effect g oracle o d m s) as (r & s1 & Heq & Hc & Ha & Hq & Hs).
    unfold mbind at 1. unfold M_bind at 1.
    unfold mbind at 1. unfold M_bind at 1. rewrite Heq.
    unfold mret at 1. unfold M_ret at 1.
    destruct (IH s1) as (s' & Heq' & Hc' & Hs' & Ha' & Hq').
    exists s'. split; [exact Heq'|]. split_and!.
    + lia.
    + lia.
    + congruence.
    + auto.
Qed.

(** X15.  What a call fetches, the next call is served from the cache:
    after a call that returned a fresh result ([ok], [fromCache = false]), a
    call for the same origin, destination and mode made less than seven days
    after the entry was stored returns the same distance and duration marked
    [fromCache = true], and sends nothing. *)
Theorem fetched_then_cached g w1 w2 o d m s r s1 :
  getLocalSegment g w1 o d m s = (Returns r, s1) ->
  ok r = true -> fromCache r = Some false ->
  now w2 - now_after w1 < TTL_MS ->
  exists s2,
    getLocalSegment g w2 o d m s1 =
      (Returns {| ok := true; distanceMeters := distanceMeters r;
                  durationSeconds := durationSeconds r; raw := None;
                  errorMessage := None; fromCache := Some true |}, s2) /\
    sent s2 = sent s1.
Proof.
  intros H Hok Hfc Hage. apply segment_outcome_of in H.
  destruct H as [Hk|e Hk He|r s1 Hk He Hf]; try discriminate.
  destruct Hf as [Hm|Hm Hd|Hm Hd Hr|req message Hm Hd Hr Hax|req data r s1 Hm Hd Hr Hax Htry];
    try discriminate.
  destruct (request_answered _ _ _ _ _ _ _ Hax Htry) as (_ & _ & Ha & _ & _ & Hstore).
  destruct (Hstore Hok) as (_ & [dist Hdist] & [dur Hdur] & Hcache).
  assert (Hconf : configured s1).
  { unfold configured. rewrite Ha. exact Hk. }
  rewrite (getLocalSegment_configured _ _ _ _ _ _ Hconf).
  assert (Hfe : fresh_entry w2 (client s1) (cacheKey_of o d m) = Some (stored w1 r)).
  { apply fresh_entry_valid; [rewrite Hcache; apply lookup_insert_eq|exact Hage]. }
  rewrite Hfe. eexists. split.
  - unfold cache_hit, stored. simpl. rewrite Hdist, Hdur. reflexivity.
  - reflexivity.
Qed.

(** X16.  A configured call leaves [lastReset] at today's date, so the
    roll-over of a second call made the same day changes nothing. *)
Theorem rollover_once_a_day g w o d m s r s' :
  configured s ->
  getLocalSegment g w o d m s = (Returns r, s') ->
  lastReset (stats s') = today w /\ rolled w s' = stats s'.
Proof.
  intros Hk H.
  destruct (call_effect _ _ _ _ _ _ _ _ H) as (_ & _ & _ & Hlast & _).
  split; [auto|]. apply rolled_same_day. auto.
Qed.

(** X17.  A call never evicts: it keeps the API key, keeps every cache
    key defined, and leaves the entries of all keys other than its own as
    they were. *)
Theorem cache_never_evicts g w o d m s r s' k :
  getLocalSegment g w o d m s = (Returns r, s') ->
  apiKey (client s') = apiKey (client s) /\
  (is_Some (cache (client s) !! k) -> is_Some (cache (client s') !! k)) /\
  (k <> cacheKey_of o d m -> cache (client s') !! k = cache (client s) !! k).
Proof.
  intros H.
  destruct (call_effect _ _ _ _ _ _ _ _ H) as (Ha & _ & _ & _ & Hother & Hown & _).
  split; [exact Ha|]. split; [|apply Hother].
  destruct (decide (k = cacheKey_of o d m)) as [->|Hne]; [exact Hown|].
  rewrite (Hother k Hne). auto.
Qed.

(** X18.  A call that sends a request is a configured call with no
    fresh cache entry, with both counters (as rolled over) below their limits
    and both nodes known; it sends exactly one request, and its result is not
    marked as coming from the cache. *)
Theorem request_only_when_allowed g w o d m s r s' :
  getLocalSegment g w o d m s = (Returns r, s') ->
  sent s' <> sent s ->
  configured s /\
  fresh_entry w (client s) (cacheKey_of o d m) = None /\
  monthlyCount (rolled w s) < MONTHLY_LIMIT /\
  dailyCount (rolled w s) < DAILY_LIMIT /\
  fromCache r <> Some true /\
  exists req, the_request g s o d m = Some req /\ sent s' = sent s ++ [req].
Proof.
  intros H Hsent.
  destruct (call_effect _ _ _ _ _ _ _ _ H) as (_ & _ & _ & _ & _ & _ & [E|Hreq]);
    [contradiction|].
  split; [|exact Hreq].
  intros Hk. rewrite (getLocalSegment_unconfigured _ _ _ _ _ _ Hk) in H.
  simplify_eq.
Qed.

(** X19.  After [clearCache] no call is served from the cache, and the
    cache holds no key but the one the call may have stored. *)
Theorem clearCache_forgets g w o d m s r s' :
  (clearCache;; getLocalSegment g w o d m) s = (Returns r, s') ->
  fromCache r <> Some true /\
  forall k, k <> cacheKey_of o d m -> cache (client s') !! k = None.
Proof.
  unfold clearCache. run_monad. intros H.
  apply segment_outcome_of in H as Ho.
  split.
  - destruct Ho as [Hk|e Hk He|r s' Hk He Hf]; try discriminate.
    eapply fresh_outcome_not_from_cache, Hf.
  - intros k Hne.
    destruct (call_effect _ _ _ _ _ _ _ _ H) as (_ & _ & _ & _ & Hother & _).
    rewrite (Hother k Hne). simpl. apply lookup_empty.
Qed.

(** X20.  [resetCounters] reopens the quota: whatever the counters
    were, the next configured call with known nodes and no fresh cache entry
    sends its request. *)
Theorem resetCounters_reopens_quota g w o d m s req :
  configured s ->
  fresh_entry w (client s) (cacheKey_of o d m) = None ->
  the_request g s o d m = Some req ->
  exists r s',
    (resetCounters;; getLocalSegment g w o d m) s = (Returns r, s') /\
    sent s' = sent s ++ [req].
Proof.
  intros Hk He Hr. unfold resetCounters. run_monad.
  set (s0 := {| client := _; sent := sent s; calls := calls s |}).
  assert (Hk0 : configured s0) by exact Hk.
  rewrite (getLocalSegment_configured _ _ _ _ _ _ Hk0).
  change (fresh_entry w (client s0) (cacheKey_of o d m))
    with (fresh_entry w (client s) (cacheKey_of o d m)).
  rewrite He.
  assert (Hm : monthlyCount (rolled w s0) = 0 /\ dailyCount (rolled w s0) = 0).
  { unfold rolled, resetCounters_on. simpl.
    destruct (negb _); simpl; [|auto]. destruct (negb _); simpl; auto. }
  destruct Hm as [Hm Hd].
  rewrite (fresh_segment_request _ _ _ _ _ _ _ req);
    [|rewrite stats_with_stats, Hm; reflexivity
     |rewrite stats_with_stats, Hd; reflexivity
     |exact Hr].
  destruct (axios_get w req) as [message|data] eqn:Hax.
  - rewrite (request_rejected _ _ _ _ _ Hax). eexists _, _. split; reflexivity.
  - destruct (request_resolved w (cacheKey_of o d m) req
                (with_stats (with_cacheMisses
                   (cacheMisses (stats (with_stats (rolled w s0) s0)) + 1)
                   (stats (with_stats (rolled w s0) s0))) (with_stats (rolled w s0) s0))
                data Hax) as (r & s' & Heq & Hs & _).
    exists r, s'. split; [exact Heq|exact Hs].
Qed.

(** ** Calls in flight *)

(** The two parts make up the call. *)
Lemma request_segment_parts w k req s :
  request_segment w k req s =
    (hand_over req;;
     response ← lift (match axios_get w req with
                      | Rejected message => Throws message
                      | Resolved data => Returns data
                      end);
     after_response w k response) s.
Proof.
  unfold request_segment, after_response, hand_over, axios_get_call, lift.
  unfold mbind at 1 10 11. unfold M_bind at 1 10 11.
  destruct (axios_get w req); reflexivity.
Qed.

Lemma getLocalSegment_parts g w o d m s :
  getLocalSegment g w o d m s =
    match segment_begin g w o d m s with
    | (Returns (inl r), s1) => (Returns r, s1)
    | (Returns (inr p), s1) => segment_settle p s1
    | (Throws message, s1) => (Throws message, s1)
    | (Diverges, s1) => (Diverges, s1)
    | (Unmodelled, s1) => (Unmodelled, s1)
    end.
Proof.
  assert (Hfresh : forall k s0,
    fresh_segment g w o d m k s0 =
      match fresh_begin g w o d m k s0 with
      | (Returns (inl r), s1) => (Returns r, s1)
      | (Returns (inr p), s1) => segment_settle p s1
      | (Throws message, s1) => (Throws message, s1)
      | (Diverges, s1) => (Diverges, s1)
      | (Unmodelled, s1) => (Unmodelled, s1)
      end).
  { intros k s0. unfold fresh_segment, fresh_begin.
    unfold mbind at 1 3. unfold M_bind at 1 3. unfold get_client at 1 2.
    destruct (MONTHLY_LIMIT <=? _); [reflexivity|].
    destruct (DAILY_LIMIT <=? _); [reflexivity|].
    destruct (getNode g o) as [originNode|]; [|reflexivity].
    destruct (getNode g d) as [destNode|]; [|reflexivity].
    unfold try_catch, segment_settle, try_catch.
    unfold mbind at 1 3. unfold M_bind at 1 3.
    unfold set_stats at 1 2. unfold mbind at 1 3. unfold M_bind at 1 3.
    unfold get_client at 1 2. unfold put_client at 1 2.
    rewrite request_segment_parts.
    unfold hand_over, mbind, M_bind, mret, M_ret, lift. cbn [pending_world pending_key
      pending_request].
    destruct (axios_get w _); reflexivity. }
  unfold getLocalSegment, segment_begin, checkAndResetCounters.
  unfold set_stats, get_client, put_client, mbind, M_bind, mret, M_ret. cbn beta iota.
  destruct (String.eqb (apiKey (client s)) ""); [reflexivity|].
  cbn [client cache].
  destruct (cache (client s) !! cacheKey_of o d m) as [cached|]; [|apply Hfresh].
  destruct (isCacheValid w cached); [reflexivity|apply Hfresh].
Qed.

Lemma rolled_counters w s :
  (monthlyCount (rolled w s) = monthlyCount (stats s) \/ monthlyCount (rolled w s) = 0) /\
  (dailyCount (rolled w s) = dailyCount (stats s) \/ dailyCount (rolled w s) = 0).
Proof.
  unfold rolled, resetCounters_on.
  destruct (negb _); [|auto]. simpl. destruct (negb _); simpl; auto.
Qed.

Lemma fresh_begin_effect g w o d m k s :
  exists r s1, fresh_begin g w o d m k s = (Returns r, s1) /\
    monthlyCount (stats s1) = monthlyCount (stats s) /\
    dailyCount (stats s1) = dailyCount (stats s) /\
    (forall p, r = inr p ->
       monthlyCount (stats s) < MONTHLY_LIMIT /\ dailyCount (stats s) < DAILY_LIMIT).
Proof.
  unfold fresh_begin, hand_over.
  unfold set_stats, get_client, put_client, mbind, M_bind, mret, M_ret. cbn beta iota.
  fold (stats s).
  destruct (Z.leb_spec MONTHLY_LIMIT (monthlyCount (stats s))).
  { eexists _, _. split; [reflexivity|]. split_and!; auto. discriminate. }
  destruct (Z.leb_spec DAILY_LIMIT (dailyCount (stats s))).
  { eexists _, _. split; [reflexivity|]. split_and!; auto. discriminate. }
  destruct (getNode g o) as [originNode|];
    [destruct (getNode g d) as [destNode|]|];
    eexists _, _; (split; [reflexivity|]); split_and!; auto; discriminate.
Qed.

(** The first part of a call leaves the counters as the roll-over sets
    them, and suspends the call only when both are below their limits. *)
Lemma segment_begin_effect g w o d m s :
  exists r s1, segment_begin g w o d m s = (Returns r, s1) /\
    (stats s1 = stats s \/
     monthlyCount (stats s1) = monthlyCount (rolled w s) /\
     dailyCount (stats s1) = dailyCount (rolled w s)) /\
    (forall p, r = inr p ->
       monthlyCount (stats s1) < MONTHLY_LIMIT /\ dailyCount (stats s1) < DAILY_LIMIT).
Proof.
  unfold segment_begin, checkAndResetCounters.
  unfold set_stats, get_client, put_client, mbind, M_bind, mret, M_ret. cbn beta iota.
  destruct (String.eqb (apiKey (client s)) "").
  { eexists _, _. split; [reflexivity|]. split; [left; reflexivity|discriminate]. }
  cbn [client cache usageStats].
  assert (Hfresh : forall s0, stats s0 = rolled w s ->
    exists r s1, fresh_begin g w o d m (cacheKey_of o d m) s0 = (Returns r, s1) /\
      (stats s1 = stats s \/
       monthlyCount (stats s1) = monthlyCount (rolled w s) /\
       dailyCount (stats s1) = dailyCount (rolled w s)) /\
      (forall p, r = inr p ->
         monthlyCount (stats s1) < MONTHLY_LIMIT /\ dailyCount (stats s1) < DAILY_LIMIT)).
  { intros s0 Hs0.
    destruct (fresh_begin_effect g w o d m (cacheKey_of o d m) s0)
      as (r & s1 & Heq & Hm & Hd & Hp).
    exists r, s1. rewrite Hs0 in Hm, Hd, Hp. split; [exact Heq|].
    split; [right; split; assumption|].
    intros p Hr. rewrite Hm, Hd. apply (Hp p Hr). }
  destruct (cache (client s) !! cacheKey_of o d m) as [cached|];
    [|apply Hfresh; reflexivity].
  destruct (isCacheValid w cached); [|apply Hfresh; reflexivity].
  eexists _, _. split; [reflexivity|]. split; [right; split; reflexivity|discriminate].
Qed.

(** The second part adds one to both counters when the provider answered,
    and nothing when the request failed. *)
Lemma segment_settle_effect p s :
  exists r s1, segment_settle p s = (Returns r, s1) /\
    (monthlyCount (stats s1) = monthlyCount (stats s) + 1 /\
     dailyCount (stats s1) = dailyCount (stats s) + 1 \/
     monthlyCount (stats s1) = monthlyCount (stats s) /\
     dailyCount (stats s1) = dailyCount (stats s)).
Proof.
  unfold segment_settle, after_response. run_monad.
  destruct (axios_get (pending_world p) (pending_request p)) as [message|data]; simpl.
  { eexists _, _. split; [reflexivity|]. right. split; reflexivity. }
  destruct data as [body|]; simpl;
    [|eexists _, _; split; [reflexivity|left; split; reflexivity]].
  destruct (is_OK (status body)); simpl;
    [|eexists _, _; split; [reflexivity|left; split; reflexivity]].
  run_monad.
  destruct (rows body) as [[|row rs]|]; simpl;
    try (eexists _, _; split; [reflexivity|left; split; reflexivity]).
  destruct (elements row) as [[|el els]|]; simpl;
    try (eexists _, _; split; [reflexivity|left; split; reflexivity]).
  destruct (is_OK (el_status el)); simpl;
    eexists _, _; (split; [reflexivity|left; split; reflexivity]).
Qed.

Lemma step_bounded g k p e :
  bounded k p -> (length (in_flight (step g p e)) <= k)%nat -> bounded k (step g p e).
Proof.
  intros (Hlen & Hm & Hd). unfold bounded, MONTHLY_LIMIT, DAILY_LIMIT in *.
  destruct e as [c|i]; cbn [step].
  - destruct (segment_begin_effect g (call_world c) (call_origin c) (call_dest c)
                (call_mode c) (sys p)) as (r & s1 & -> & Hst & Hpend).
    destruct (rolled_counters (call_world c) (sys p)) as [Hrm Hrd].
    destruct r as [result|pending]; cbn [sys in_flight]; intros Hk.
    + split; [exact Hk|]. destruct Hst as [->|[-> ->]]; [lia|].
      destruct Hrm as [->| ->], Hrd as [->| ->]; lia.
    + destruct (Hpend pending eq_refl) as [Hm1 Hd1].
      unfold MONTHLY_LIMIT, DAILY_LIMIT in *.
      rewrite length_app in Hk |- *. simpl in Hk |- *. split; [exact Hk|]. lia.
  - destruct (in_flight p !! i) as [pending|] eqn:Hi; [|intros _; auto].
    destruct (segment_settle_effect pending (sys p)) as (r & s1 & -> & Heff).
    cbn [sys in_flight]. intros Hk.
    apply lookup_lt_Some in Hi.
    rewrite length_delete by eauto using lookup_lt_is_Some_2.
    rewrite length_delete in Hk by eauto using lookup_lt_is_Some_2.
    split; [exact Hk|].
    destruct Heff as [[-> ->]|[-> ->]]; lia.
Qed.

Lemma peak_ge g es p : (length (in_flight p) <= peak g es p)%nat.
Proof. destruct es; simpl; lia. Qed.

Lemma run_events_bounded g k es p :
  bounded k p -> (peak g es p <= k)%nat -> bounded k (run_events g es p).
Proof.
  revert p. induction es as [|e es IH]; intros p Hb Hk; simpl in *; [exact Hb|].
  apply IH; [|lia].
  apply step_bounded; [exact Hb|].
  pose proof (peak_ge g es (step g p e)). lia.
Qed.

(** Calls made one after the other are the runs with one call in flight. *)
Lemma run_one_by_one g cs p :
  in_flight p = [] ->
  run_events g (one_by_one cs) p =
    {| sys := snd (run_calls g cs (sys p)); in_flight := [];
       finished := finished p ++ fst (run_calls g cs (sys p)) |} /\
  (peak g (one_by_one cs) p <= 1)%nat.
Proof.
  revert p. induction cs as [|c cs IH]; intros [s fl fin] Hfl; simpl in Hfl; subst fl.
  { simpl. rewrite app_nil_r. split; [reflexivity|lia]. }
  cbn [one_by_one flat_map app run_events fold_left peak run_calls sys in_flight finished].
  rewrite (getLocalSegment_parts g (call_world c) (call_origin c) (call_dest c)
             (call_mode c) s).
  destruct (segment_begin_effect g (call_world c) (call_origin c) (call_dest c)
              (call_mode c) s) as (r & s1 & Hb & _).
  cbn [step sys in_flight finished]. rewrite Hb.
  destruct r as [result|pending]; cbn [in_flight sys finished app lookup list_lookup].
  - destruct (IH {| sys := s1; in_flight := []; finished := fin ++ [Returns result] |}
                eq_refl) as [Hrun Hpeak].
    fold (one_by_one cs). unfold run_events in Hrun. cbn [sys finished] in Hrun.
    rewrite Hrun. destruct (run_calls g cs s1) as [rs s2]. cbn [fst snd].
    rewrite <- app_assoc. split; [reflexivity|].
    cbn [length]. cbn [sys in_flight finished] in Hpeak. lia.
  - destruct (segment_settle_effect pending s1) as (r & s2 & Hs & _). rewrite Hs.
    cbn [delete list_delete].
    destruct (IH {| sys := s2; in_flight := []; finished := fin ++ [Returns r] |}
                eq_refl) as [Hrun Hpeak].
    fold (one_by_one cs). unfold run_events in Hrun. cbn [sys finished] in Hrun.
    rewrite Hrun. destruct (run_calls g cs s2) as [rs s3]. cbn [fst snd].
    rewrite <- app_assoc. split; [reflexivity|].
    cbn [length]. cbn [sys in_flight finished] in Hpeak. lia.
Qed.

(** X13.  The quota check of [getLocalSegment] comes before the
    [await] and the increments after it, so calls in flight at the same time
    can all pass the check.  In a run of the client that starts within the
    quota and never has more than [k] calls in flight ([k >= 1]), each counter
    plus the number of calls in flight stays at or below its limit plus
    [k - 1]: calls made one after the other ([k = 1], [run_one_by_one]) keep
    within 700 and 50, and every further overlapping call can exceed a limit
    by one ([overlapping_calls_exceed_quota]). *)
Theorem quota_with_calls_in_flight g es s k :
  within_quota (stats s) -> (1 <= k)%nat -> (peak g es (idle s) <= k)%nat ->
  monthlyCount (stats (sys (run_events g es (idle s))))
    + Z.of_nat (length (in_flight (run_events g es (idle s))))
    <= MONTHLY_LIMIT + Z.of_nat k - 1 /\
  dailyCount (stats (sys (run_events g es (idle s))))
    + Z.of_nat (length (in_flight (run_events g es (idle s))))
    <= DAILY_LIMIT + Z.of_nat k - 1.
Proof.
  intros [Hm Hd] Hk Hpeak.
  assert (Hb : bounded k (idle s)).
  { unfold bounded. simpl. split_and!; lia. }
  destruct (run_events_bounded g k es (idle s) Hb Hpeak) as (_ & H1 & H2).
  split; assumption.
Qed.

(** ** Duplicates *)

Lemma deduplicate_fold l seen res :
  exists added,
    fold_left (fun '(seen, result) option =>
                 let id := getOptionId option in
                 if Set_has id seen then (seen, result)
                 else (Set_add id seen, result ++ [option]))
              l (seen, res)
      = (seen ++ map getOptionId added, res ++ added) /\
    sublist added l /\
    NoDup (map getOptionId added) /\
    (forall o, o ∈ added -> getOptionId o ∉ seen) /\
    (forall o, o ∈ l -> getOptionId o ∈ seen \/ getOptionId o ∈ map getOptionId added) /\
    (forall o, o ∈ added ->
       List.find (fun x => String.eqb (getOptionId x) (getOptionId o)) l = Some o).
Proof.
  set (step := fun '(seen, result) option => _).
  assert (Hstep : forall seen res a,
            step (seen, res) a =
              if Set_has (getOptionId a) seen then (seen, res)
              else (seen ++ [getOptionId a], res ++ [a])).
  { intros seen0 res0 a. unfold step, Set_add.
    destruct (Set_has (getOptionId a) seen0); reflexivity. }
  clearbody step.
  revert seen res. induction l as [|a l IH]; intros seen res.
  - exists []. simpl. rewrite !app_nil_r.
    split_and!; auto; try (intros o Ho; inversion Ho); constructor.
  - cbn [fold_left]. rewrite Hstep.
    destruct (Set_has (getOptionId a) seen) eqn:Hs.
    + apply Set_has_true in Hs.
      destruct (IH seen res) as (added & Heq & Hsub & Hnd & Hfresh & Hall & Hfirst).
      exists added. split; [exact Heq|]. split_and!; auto.
      * apply sublist_cons, Hsub.
      * intros o Ho. apply elem_of_cons in Ho as [->|Ho]; auto.
      * intros o Ho. simpl.
        destruct (String.eqb_spec (getOptionId a) (getOptionId o)) as [E|E]; [|auto].
        exfalso. apply (Hfresh o Ho). rewrite <- E. exact Hs.
    + apply Set_has_false in Hs.
      destruct (IH (seen ++ [getOptionId a]) (res ++ [a]))
        as (added & Heq & Hsub & Hnd & Hfresh & Hall & Hfirst).
      exists (a :: added). rewrite Heq. simpl. rewrite <- !app_assoc. simpl.
      split; [reflexivity|]. split_and!.
      * apply sublist_skip, Hsub.
      * constructor; [|exact Hnd].
        rewrite list_elem_of_fmap. intros (o & E & Ho).
        apply (Hfresh o Ho). rewrite elem_of_app, <- E, list_elem_of_singleton. auto.
      * intros o Ho. apply elem_of_cons in Ho as [->|Ho]; [exact Hs|].
        intros Hin. apply (Hfresh o Ho). rewrite elem_of_app. auto.
      * intros o Ho. apply elem_of_cons in Ho as [->|Ho].
        -- right. left.
        -- destruct (Hall o Ho) as [H|H].
           ++ apply elem_of_app in H as [H|H]; [auto|].
              apply list_elem_of_singleton in H. right. rewrite H. left.
           ++ right. right. exact H.
      * intros o Ho. apply elem_of_cons in Ho as [->|Ho].
        -- rewrite String.eqb_refl. reflexivity.
        -- destruct (String.eqb_spec (getOptionId a) (getOptionId o)) as [E|E]; [|auto].
           exfalso. apply (Hfresh o Ho). rewrite elem_of_app, <- E, list_elem_of_singleton.
           auto.
Qed.

Lemma deduplicateOptions_sublist options :
  sublist (deduplicateOptions options) options.
Proof.
  destruct (deduplicate_fold options [] []) as (added & Heq & Hsub & _).
  assert (E : deduplicateOptions options = added) by exact (f_equal snd Heq).
  rewrite E. exact Hsub.
Qed.

Lemma deduplicateOptions_ids options o :
  o ∈ options -> getOptionId o ∈ map getOptionId (deduplicateOptions options).
Proof.
  destruct (deduplicate_fold options [] []) as (added & Heq & _ & _ & _ & Hall & _).
  assert (E : deduplicateOptions options = added) by exact (f_equal snd Heq).
  rewrite E. intros Ho. destruct (Hall o Ho) as [H|H]; [inversion H|exact H].
Qed.

(** X21.  [deduplicateOptions] keeps exactly the first option of every
    identity: the result has pairwise distinct ids, is a sub-list of the
    input in its order, covers every id of the input, and each of its options
    is the first of the input with its id. *)
Theorem deduplicateOptions_first_occurrences options :
  NoDup (map getOptionId (deduplicateOptions options)) /\
  sublist (deduplicateOptions options) options /\
  (forall o, o ∈ options ->
     getOptionId o ∈ map getOptionId (deduplicateOptions options)) /\
  (forall o, o ∈ deduplicateOptions options ->
     List.find (fun x => String.eqb (getOptionId x) (getOptionId o)) options = Some o).
Proof.
  destruct (deduplicate_fold options [] []) as (added & Heq & Hsub & Hnd & _ & Hall & Hfirst).
  assert (E : deduplicateOptions options = added) by exact (f_equal snd Heq).
  rewrite E. split_and!; auto.
  intros o Ho. destruct (Hall o Ho) as [H|H]; [inversion H|exact H].
Qed.

(** ** The fastest option *)

Lemma num_lt_irrefl a : num_lt a a = false.
Proof. destruct a; simpl; [apply Z.ltb_irrefl|reflexivity]. Qed.

Lemma num_lt_trans a b c : num_lt a b = true -> num_lt b c = true -> num_lt a c = true.
Proof.
  destruct a, b, c; simpl; try discriminate; auto.
  rewrite !Z.ltb_lt. lia.
Qed.

Lemma argmin_from_spec key full l :
  forall pre best b,
    full = pre ++ l -> full !! best = Some b ->
    (forall x, x ∈ pre -> num_lt (key x) (key b) = false) ->
    exists m, full !! argmin_from key l (length pre) best (key b) = Some m /\
              forall x, x ∈ full -> num_lt (key x) (key m) = false.
Proof.
  induction l as [|o l IH]; intros pre best b Hfull Hbest Hpre; simpl.
  - exists b. split; [exact Hbest|]. rewrite Hfull, app_nil_r. exact Hpre.
  - assert (Hfull' : full = (pre ++ [o]) ++ l) by (rewrite <- app_assoc; exact Hfull).
    assert (Hlen : S (length pre) = length (pre ++ [o])).
    { rewrite length_app. simpl. lia. }
    rewrite Hlen.
    destruct (num_lt (key o) (key b)) eqn:Hlt.
    + apply (IH (pre ++ [o]) (length pre) o Hfull').
      * rewrite Hfull. apply list_lookup_middle. reflexivity.
      * intros x Hx. apply elem_of_app in Hx as [Hx|Hx].
        -- destruct (num_lt (key x) (key o)) eqn:E; [|reflexivity].
           rewrite <- (Hpre x Hx). symmetry. eapply num_lt_trans; eassumption.
        -- apply list_elem_of_singleton in Hx as ->. apply num_lt_irrefl.
    + apply (IH (pre ++ [o]) best b Hfull' Hbest).
      intros x Hx. apply elem_of_app in Hx as [Hx|Hx]; [auto|].
      apply list_elem_of_singleton in Hx as ->. exact Hlt.
Qed.

Lemma argmin_spec key o l :
  exists m, (o :: l) !! argmin key (o :: l) = Some m /\
            forall x, x ∈ o :: l -> num_lt (key x) (key m) = false.
Proof.
  unfold argmin.
  apply (argmin_from_spec key (o :: l) (o :: l) [] 0%nat o); [reflexivity|reflexivity|].
  intros x Hx. inversion Hx.
Qed.

Lemma add_other_prefix l r ids :
  exists more, fst (fold_left add_other l (r, ids)) = r ++ more.
Proof.
  revert r ids. induction l as [|io l IH]; intros r ids; cbn [fold_left].
  - exists []. rewrite app_nil_r. reflexivity.
  - rewrite add_other_eq.
    destruct (3 <=? length r)%nat; [apply IH|].
    destruct (Set_has _ ids); [apply IH|].
    destruct (IH (r ++ [fst io]) (Set_add (getOptionId (snd io)) ids)) as [more ->].
    exists (fst io :: more). rewrite <- app_assoc. reflexivity.
Qed.

(** X22.  On a non-empty working set the first entry [compareRoutes]
    returns is labelled "Fastest Route", and no deduplicated option has a
    smaller [totalTimeMin]. *)
Theorem compareRoutes_fastest_first options :
  options <> [] ->
  exists o rest,
    compareRoutes options = mark fastest "Fastest Route" o :: rest /\
    o ∈ options /\
    (forall x, x ∈ deduplicateOptions options ->
       num_lt (totalTimeMin x) (totalTimeMin o) = false).
Proof.
  intros Hne. unfold compareRoutes.
  destruct options as [|o0 os]; [congruence|].
  pose proof (deduplicateOptions_sublist (o0 :: os)) as Hsub.
  pose proof (deduplicateOptions_ids (o0 :: os)) as Hall.
  set (unique := deduplicateOptions (o0 :: os)) in *.
  destruct unique as [|u us] eqn:Hu.
  { specialize (Hall o0 (list_elem_of_here _ _)). inversion Hall. }
  rewrite <- Hu in *.
  assert (Hu' : unique = u :: us) by exact Hu.
  destruct (argmin_spec totalTimeMin u us) as (f & Hf & Hfmin).
  destruct (argmin_spec localTimeMin u us) as (l & Hl & _).
  rewrite <- Hu' in Hf, Hl, Hfmin. rewrite Hf, Hl.
  set (fi := argmin totalTimeMin unique) in *.
  set (li := argmin localTimeMin unique) in *.
  exists f.
  assert (Hstore1 : alter (mark fastest "Fastest Route") fi unique !! fi =
                    Some (mark fastest "Fastest Route" f)).
  { rewrite list_lookup_alter_eq, Hf. reflexivity. }
  assert (Hin : f ∈ o0 :: os).
  { eapply elem_of_sublist; [|exact Hsub]. eapply list_elem_of_lookup_2, Hf. }
  destruct (String.eqb (getOptionId l) (getOptionId f)) eqn:Hid; cbn [negb].
  - destruct (add_other_prefix (zip (seq 0 (length unique)) unique) [fi]
                (Set_add (getOptionId f) [])) as [more ->].
    simpl ([fi] ++ more).
    change (omap ?h (fi :: more)) with
      (match h fi with Some y => y :: omap h more | None => omap h more end).
    cbv beta. rewrite Hstore1. eexists. split; [reflexivity|]. split; assumption.
  - assert (Hli : li <> fi).
    { intros E. rewrite E, Hf in Hl. simplify_eq. rewrite String.eqb_refl in Hid.
      discriminate. }
    destruct (add_other_prefix (zip (seq 0 (length unique)) unique) ([fi] ++ [li])
                (Set_add (getOptionId f) [])) as [more ->].
    simpl (([fi] ++ [li]) ++ more).
    change (omap ?h (fi :: ?t)) with
      (match h fi with Some y => y :: omap h t | None => omap h t end).
    cbv beta. rewrite list_lookup_alter_ne by exact Hli. rewrite Hstore1.
    eexists. split; [reflexivity|]. split; assumption.
Qed.

(** ** The Direct strategy *)

Lemma indexOf_from_ge x l i : indexOf_from i x l = -1 \/ i <= indexOf_from i x l.
Proof.
  revert i. induction l as [|y l IH]; intros i; simpl; [auto|].
  destruct (String.eqb y x); [right; lia|].
  destruct (IH (i + 1)); [auto|right; lia].
Qed.

Lemma direct_trip_shape route from to requestTime trip o :
  direct_trip route from to requestTime trip = Returns (Some o) ->
  direct_shape from to o.
Proof.
  unfold direct_trip, parseTime_, addMinutes_.
  set (b := indexOf from (stops trip)). set (a := indexOf to (stops trip)).
  destruct (Z.eqb_spec b (-1)); [discriminate|].
  destruct (Z.eqb_spec a (-1)); [discriminate|].
  destruct (Z.leb_spec a b); [discriminate|].
  cbn [orb].
  assert (Hb : 0 <= b).
  { destruct (indexOf_from_ge from (stops trip) 0) as [E|E]; [contradiction|exact E]. }
  destruct (parseTime (departure_time trip)) as [t|]; cbn [mbind Outcome_bind]; [|discriminate].
  destruct (parseTime requestTime) as [rq|]; cbn [mbind Outcome_bind]; [|discriminate].
  destruct (_ <? _); [discriminate|].
  destruct (addMinutes (departure_time trip) (b * 5 + (a - b) * 5)) as [arr|] eqn:Harr;
    cbn [mbind Outcome_bind]; [|discriminate].
  destruct (addMinutes (departure_time trip) (b * 5)) as [dep|] eqn:Hdep;
    cbn [mbind Outcome_bind]; [|discriminate].
  intros [= <-]. eexists _, dep, arr. cbn [legs].
  split; [reflexivity|]. simpl. split_and!; eauto.
  - eapply addMinutes_parses; [exact Hdep|lia].
  - eapply addMinutes_parses; [exact Harr|lia].
Qed.

Lemma direct_trip_returns route from to requestTime trip :
  is_Some (parseTime requestTime) -> is_Some (parseTime (departure_time trip)) ->
  exists r, direct_trip route from to requestTime trip = Returns r.
Proof.
  intros [rq Hrq] [t Ht]. unfold direct_trip, parseTime_, addMinutes_.
  destruct (_ || _); [eexists; reflexivity|].
  rewrite Ht, Hrq. cbn [mbind Outcome_bind].
  destruct (_ <? _); [eexists; reflexivity|].
  destruct (addMinutes_Some (departure_time trip)
              (indexOf from (stops trip) * 5 +
               (indexOf to (stops trip) - indexOf from (stops trip)) * 5)) as [arr ->];
    [eauto|].
  destruct (addMinutes_Some (departure_time trip) (indexOf from (stops trip) * 5))
    as [dep ->]; [eauto|].
  eexists. reflexivity.
Qed.

Lemma directBusRoute_shape route from to requestTime o :
  directBusRoute route from to requestTime = Returns (Some o) -> direct_shape from to o.
Proof.
  unfold directBusRoute. induction (trips route) as [|trip ts IH]; simpl; [discriminate|].
  destruct (direct_trip route from to requestTime trip) as [[o'|]| | |] eqn:Hd;
    cbn [mbind Outcome_bind]; try discriminate.
  - intros [= <-]. eapply direct_trip_shape, Hd.
  - exact IH.
Qed.

Lemma directBusRoute_returns route from to requestTime :
  is_Some (parseTime requestTime) ->
  (forall trip, trip ∈ trips route -> is_Some (parseTime (departure_time trip))) ->
  exists r, directBusRoute route from to requestTime = Returns r.
Proof.
  intros Hrq. unfold directBusRoute.
  induction (trips route) as [|trip ts IH]; intros Hts; simpl; [eexists; reflexivity|].
  destruct (direct_trip_returns route from to requestTime trip Hrq) as [r ->].
  { apply Hts. left. }
  cbn [mbind Outcome_bind]. destruct r; [eexists; reflexivity|].
  apply IH. intros trip' H'. apply Hts. right. exact H'.
Qed.

(** ** Transfer points *)

Lemma fold_Set_add l s x :
  x ∈ fold_left (fun s stop => Set_add stop s) l s <-> x ∈ l \/ x ∈ s.
Proof.
  revert s. induction l as [|y l IH]; intros s; simpl.
  - rewrite elem_of_nil. tauto.
  - rewrite IH, elem_of_Set_add, elem_of_cons. tauto.
Qed.

Lemma Set_add_NoDup x s : NoDup s -> NoDup (Set_add x s).
Proof.
  intros Hs. unfold Set_add. destruct (Set_has x s) eqn:E; [exact Hs|].
  apply Set_has_false in E. apply NoDup_app. split; [exact Hs|].
  split; [|apply NoDup_singleton].
  intros y Hy Hy'. apply list_elem_of_singleton in Hy'. subst. contradiction.
Qed.

Lemma fold_Set_add_NoDup l s :
  NoDup s -> NoDup (fold_left (fun s stop => Set_add stop s) l s).
Proof.
  revert s. induction l as [|y l IH]; intros s Hs; simpl; [exact Hs|].
  apply IH, Set_add_NoDup, Hs.
Qed.

Lemma route_stops_fold ts s x :
  x ∈ fold_left (fun s trip => fold_left (fun s stop => Set_add stop s) (stops trip) s) ts s
  <-> (exists trip, trip ∈ ts /\ x ∈ stops trip) \/ x ∈ s.
Proof.
  revert s. induction ts as [|t ts IH]; intros s; simpl.
  - split; [auto|]. intros [(trip & H & _)|H]; [inversion H|exact H].
  - rewrite IH, fold_Set_add. split.
    + intros [(trip & H1 & H2)|[H|H]]; [|left|right; exact H].
      * left. exists trip. split; [right; exact H1|exact H2].
      * exists t. split; [left|exact H].
    + intros [(trip & H1 & H2)|H]; [|auto].
      apply elem_of_cons in H1 as [->|H1]; [auto|].
      left. exists trip. auto.
Qed.

Lemma route_stops_NoDup_fold ts s :
  NoDup s ->
  NoDup (fold_left (fun s trip => fold_left (fun s stop => Set_add stop s) (stops trip) s)
           ts s).
Proof.
  revert s. induction ts as [|t ts IH]; intros s Hs; simpl; [exact Hs|].
  apply IH, fold_Set_add_NoDup, Hs.
Qed.

Lemma List_filter_NoDup {A} (f : A -> bool) l : NoDup l -> NoDup (List.filter f l).
Proof.
  induction 1 as [|x l Hx Hl IH]; simpl; [constructor|].
  destruct (f x); [|exact IH]. constructor; [|exact IH].
  rewrite list_elem_of_In, filter_In, <- list_elem_of_In. tauto.
Qed.

(** X24.  [findTransferPoints] returns, without repetition, exactly the
    stops served by some trip of the first route and by some trip of the
    second. *)
Theorem findTransferPoints_common_stops route1 route2 :
  NoDup (findTransferPoints route1 route2) /\
  forall x, x ∈ findTransferPoints route1 route2 <->
            (exists trip, trip ∈ trips route1 /\ x ∈ stops trip) /\
            (exists trip, trip ∈ trips route2 /\ x ∈ stops trip).
Proof.
  unfold findTransferPoints, route_stops. split.
  - apply List_filter_NoDup, route_stops_NoDup_fold. constructor.
  - intros x. rewrite list_elem_of_In, filter_In, <- list_elem_of_In.
    rewrite Set_has_true, !route_stops_fold, !elem_of_nil. tauto.
Qed.

(** ** Transfers *)

Lemma createTransferRoute_shape g route1 route2 from to transferNode requestTime o :
  createTransferRoute g route1 route2 from to transferNode requestTime = Returns (Some o) ->
  exists leg1 leg2 arr dep am dm,
    legs o = [leg1; leg2] /\
    leg_mode leg1 = bus /\ leg_from leg1 = from /\ leg_to leg1 = transferNode /\
    leg_mode leg2 = bus /\ leg_from leg2 = transferNode /\ leg_to leg2 = to /\
    leg_arrival leg1 = Some arr /\ leg_departure leg2 = Some dep /\
    minutesOf arr = Some am /\ minutesOf dep = Some dm /\
    0 <= dm - am <= 15 /\
    transfers o = 1 /\ option_type o = transfer.
Proof.
  unfold createTransferRoute.
  destruct (directBusRoute route1 from transferNode requestTime) as [[o1|]| | |] eqn:H1;
    cbn [mbind Outcome_bind]; try discriminate.
  destruct (directBusRoute_shape _ _ _ _ _ H1)
    as (leg1 & dep1 & arr1 & Hl1 & Hm1 & Hf1 & Ht1 & _ & Ha1 & _ & _ & _).
  rewrite Hl1. cbn [head mbind option_bind]. rewrite Ha1.
  destruct (directBusRoute route2 transferNode to arr1) as [[o2|]| | |] eqn:H2;
    cbn [mbind Outcome_bind]; try discriminate.
  destruct (directBusRoute_shape _ _ _ _ _ H2)
    as (leg2 & dep2 & arr2 & Hl2 & Hm2 & Hf2 & Ht2 & Hd2 & _ & [dur Hdur] & _ & _).
  rewrite Hl2. cbn [head mbind option_bind]. rewrite Hd2, Hdur.
  unfold parseTime_.
  destruct (parseTime arr1) as [ta|] eqn:Hta; cbn [mbind Outcome_bind]; [|discriminate].
  destruct (parseTime dep2) as [td|] eqn:Htd; cbn [mbind Outcome_bind]; [|discriminate].
  destruct (Z.ltb_spec (timeToMinutes td - timeToMinutes ta) 0); [discriminate|].
  destruct (Z.ltb_spec 15 (timeToMinutes td - timeToMinutes ta)); [discriminate|].
  cbn [orb]. intros [= <-].
  exists leg1, leg2, arr1, dep2, (timeToMinutes ta), (timeToMinutes td).
  unfold minutesOf. rewrite Hta, Htd. simpl. split_and!; auto; lia.
Qed.

(** X25.  A transfer option is the direct option of the first route
    to the transfer node followed by the direct option of the second route
    from it, asked for at the arrival time of the first: two bus legs that
    meet at the transfer node, the second leaving between 0 and 15 minutes
    after the first arrives, for a total of the first option's time, the wait
    and the second ride. *)
Theorem createTransferRoute_window g route1 route2 from to transferNode requestTime o :
  createTransferRoute g route1 route2 from to transferNode requestTime = Returns (Some o) ->
  exists o1 o2 leg1 leg2 arr dep am dm dur,
    directBusRoute route1 from transferNode requestTime = Returns (Some o1) /\
    directBusRoute route2 transferNode to arr = Returns (Some o2) /\
    legs o1 = [leg1] /\ legs o2 = [leg2] /\ legs o = [leg1; leg2] /\
    leg_mode leg1 = bus /\ leg_from leg1 = from /\ leg_to leg1 = transferNode /\
    leg_mode leg2 = bus /\ leg_from leg2 = transferNode /\ leg_to leg2 = to /\
    leg_arrival leg1 = Some arr /\ leg_departure leg2 = Some dep /\
    minutesOf arr = Some am /\ minutesOf dep = Some dm /\
    0 <= dm - am <= 15 /\
    leg_durationMin leg2 = Some dur /\
    totalTimeMin o = num_add (num_add (totalTimeMin o1) (Num (dm - am))) dur /\
    transfers o = 1 /\ option_type o = transfer.
Proof.
  unfold createTransferRoute.
  destruct (directBusRoute route1 from transferNode requestTime) as [[o1|]| | |] eqn:H1;
    cbn [mbind Outcome_bind]; try discriminate.
  destruct (directBusRoute_shape _ _ _ _ _ H1)
    as (leg1 & dep1 & arr1 & Hl1 & Hm1 & Hf1 & Ht1 & _ & Ha1 & _ & _ & _).
  rewrite Hl1. cbn [head mbind option_bind]. rewrite Ha1.
  destruct (directBusRoute route2 transferNode to arr1) as [[o2|]| | |] eqn:H2;
    cbn [mbind Outcome_bind]; try discriminate.
  destruct (directBusRoute_shape _ _ _ _ _ H2)
    as (leg2 & dep2 & arr2 & Hl2 & Hm2 & Hf2 & Ht2 & Hd2 & _ & [dur Hdur] & _ & _).
  rewrite Hl2. cbn [head mbind option_bind]. rewrite Hd2, Hdur.
  unfold parseTime_.
  destruct (parseTime arr1) as [ta|] eqn:Hta; cbn [mbind Outcome_bind]; [|discriminate].
  destruct (parseTime dep2) as [td|] eqn:Htd; cbn [mbind Outcome_bind]; [|discriminate].
  destruct (Z.ltb_spec (timeToMinutes td - timeToMinutes ta) 0); [discriminate|].
  destruct (Z.ltb_spec 15 (timeToMinutes td - timeToMinutes ta)); [discriminate|].
  cbn [orb]. intros [= <-].
  exists o1, o2, leg1, leg2, arr1, dep2, (timeToMinutes ta), (timeToMinutes td), dur.
  unfold minutesOf. rewrite Hta, Htd. simpl. split_and!; auto; lia.
Qed.

Lemma createTransferRoute_returns g route1 route2 from to transferNode requestTime :
  is_Some (parseTime requestTime) ->
  (forall trip, trip ∈ trips route1 -> is_Some (parseTime (departure_time trip))) ->
  (forall trip, trip ∈ trips route2 -> is_Some (parseTime (departure_time trip))) ->
  exists r, createTransferRoute g route1 route2 from to transferNode requestTime = Returns r.
Proof.
  intros Hrq Hr1 Hr2. unfold createTransferRoute.
  destruct (directBusRoute_returns route1 from transferNode requestTime Hrq Hr1) as [[o1|] H1];
    rewrite H1; cbn [mbind Outcome_bind]; [|eexists; reflexivity].
  destruct (directBusRoute_shape _ _ _ _ _ H1)
    as (leg1 & dep1 & arr1 & Hl1 & _ & _ & _ & _ & Ha1 & _ & _ & Hp1).
  rewrite Hl1. cbn [head mbind option_bind]. rewrite Ha1.
  destruct (directBusRoute_returns route2 transferNode to arr1 Hp1 Hr2) as [[o2|] H2];
    rewrite H2; cbn [mbind Outcome_bind]; [|eexists; reflexivity].
  destruct (directBusRoute_shape _ _ _ _ _ H2)
    as (leg2 & dep2 & arr2 & Hl2 & _ & _ & _ & Hd2 & _ & [dur Hdur] & [td Htd] & _).
  rewrite Hl2. cbn [head mbind option_bind]. rewrite Hd2, Hdur.
  unfold parseTime_. destruct Hp1 as [ta ->]. rewrite Htd. cbn [mbind Outcome_bind].
  destruct (_ || _); eexists; reflexivity.
Qed.

Lemma collect_elem {B} (f : B -> Outcome (option RouteOption)) l xs x :
  collect f l = Returns xs -> x ∈ xs -> exists b, b ∈ l /\ f b = Returns (Some x).
Proof.
  revert xs. induction l as [|b l IH]; intros xs; simpl.
  - intros [= <-] Hx. inversion Hx.
  - destruct (f b) as [o| | |] eqn:Hb; cbn [mbind Outcome_bind]; try discriminate.
    destruct (collect f l) as [rest| | |]; cbn [mbind Outcome_bind]; try discriminate.
    intros [= <-] Hx.
    assert (Hrest : x ∈ rest -> exists b0, b0 ∈ b :: l /\ f b0 = Returns (Some x)).
    { intros Hin. destruct (IH rest eq_refl Hin) as (b0 & H0 & H1).
      exists b0. split; [right; exact H0|exact H1]. }
    destruct o as [o|]; [|auto].
    apply elem_of_cons in Hx as [->|Hx]; [|auto].
    exists b. split; [left|exact Hb].
Qed.

Lemma collect_returns {B} (f : B -> Outcome (option RouteOption)) l :
  (forall b, b ∈ l -> exists r, f b = Returns r) -> exists xs, collect f l = Returns xs.
Proof.
  induction l as [|b l IH]; intros Hf; simpl; [eexists; reflexivity|].
  destruct (Hf b) as [o ->]; [left|]. cbn [mbind Outcome_bind].
  destruct IH as [rest ->]; [intros b' Hb'; apply Hf; right; exact Hb'|].
  cbn [mbind Outcome_bind]. eexists. reflexivity.
Qed.

Lemma concatM_elem {B} (f : B -> Outcome (list RouteOption)) l xs x :
  concatM f l = Returns xs -> x ∈ xs -> exists b ys, b ∈ l /\ f b = Returns ys /\ x ∈ ys.
Proof.
  revert xs. induction l as [|b l IH]; intros xs; simpl.
  - intros [= <-] Hx. inversion Hx.
  - destruct (f b) as [ys| | |] eqn:Hb; cbn [mbind Outcome_bind]; try discriminate.
    destruct (concatM f l) as [rest| | |]; cbn [mbind Outcome_bind]; try discriminate.
    intros [= <-] Hx. apply elem_of_app in Hx as [Hx|Hx].
    + exists b, ys. split; [left|auto].
    + destruct (IH rest eq_refl Hx) as (b0 & ys0 & H0 & H1 & H2).
      exists b0, ys0. split; [right; exact H0|auto].
Qed.

Lemma concatM_returns {B} (f : B -> Outcome (list RouteOption)) l :
  (forall b, b ∈ l -> exists r, f b = Returns r) -> exists xs, concatM f l = Returns xs.
Proof.
  induction l as [|b l IH]; intros Hf; simpl; [eexists; reflexivity|].
  destruct (Hf b) as [o ->]; [left|]. cbn [mbind Outcome_bind].
  destruct IH as [rest ->]; [intros b' Hb'; apply Hf; right; exact Hb'|].
  cbn [mbind Outcome_bind]. eexists. reflexivity.
Qed.

Lemma findTransferRoutes_elem g from to requestTime xs x :
  findTransferRoutes g from to requestTime = Returns xs -> x ∈ xs ->
  exists route1 route2 transferNode,
    route1 ∈ getAllRoutes g /\ route2 ∈ getAllRoutes g /\
    route_id route1 <> route_id route2 /\
    transferNode ∈ findTransferPoints route1 route2 /\
    createTransferRoute g route1 route2 from to transferNode requestTime = Returns (Some x).
Proof.
  unfold findTransferRoutes. intros H Hx.
  destruct (concatM_elem _ _ _ _ H Hx) as (r1 & ys & Hr1 & H1 & Hy).
  destruct (concatM_elem _ _ _ _ H1 Hy) as (r2 & zs & Hr2 & H2 & Hz).
  destruct (String.eqb_spec (route_id r1) (route_id r2)) as [E|E].
  { injection H2 as <-. inversion Hz. }
  destruct (collect_elem _ _ _ _ H2 Hz) as (t & Ht & Hc).
  exists r1, r2, t. auto.
Qed.

Lemma findTransferRoutes_returns g from to requestTime :
  timetabled g -> is_Some (parseTime requestTime) ->
  exists xs, findTransferRoutes g from to requestTime = Returns xs.
Proof.
  intros Hg Hrq. unfold findTransferRoutes.
  apply concatM_returns. intros r1 Hr1.
  apply concatM_returns. intros r2 Hr2.
  destruct (String.eqb _ _); [eexists; reflexivity|].
  apply collect_returns. intros t _.
  apply createTransferRoute_returns;
    [exact Hrq|intros trip Ht; exact (Hg _ _ Hr1 Ht)|intros trip Ht; exact (Hg _ _ Hr2 Ht)].
Qed.

(** ** The three judgements of the monad *)

Lemma preserves_ret {A} P (a : A) : preserves P (mret a).
Proof. intros s Hs. exact Hs. Qed.

Lemma preserves_lift {A} P (o : Outcome A) : preserves P (lift o).
Proof. intros s Hs. exact Hs. Qed.

Lemma preserves_bind {A B} P (m : M A) (f : A -> M B) :
  preserves P m -> (forall a, preserves P (f a)) -> preserves P (m ≫= f).
Proof.
  intros Hm Hf s Hs. unfold mbind, M_bind.
  specialize (Hm s Hs). destruct (m s) as [[a| | |] s1]; simpl in *; auto.
  apply Hf, Hm.
Qed.

Lemma preserves_foldM {A B} P (f : A -> B -> M A) l a :
  (forall a b, preserves P (f a b)) -> preserves P (foldM f a l).
Proof.
  intros Hf. revert a. induction l as [|b l IH]; intros a; simpl.
  - apply preserves_ret.
  - apply preserves_bind; [apply Hf|exact IH].
Qed.

Lemma ensures_ret {A} (Q : A -> Prop) a : Q a -> ensures Q (mret a).
Proof. intros Ha s a' s' [= <- _]. exact Ha. Qed.

Lemma ensures_lift {A} (Q : A -> Prop) (o : Outcome A) :
  (forall a, o = Returns a -> Q a) -> ensures Q (lift o).
Proof. intros Ho s a s' [= -> _]. apply Ho. reflexivity. Qed.

Lemma ensures_bind {A B} (R : A -> Prop) (Q : B -> Prop) (m : M A) (f : A -> M B) :
  ensures R m -> (forall a, R a -> ensures Q (f a)) -> ensures Q (m ≫= f).
Proof.
  intros Hm Hf s b s'. unfold mbind, M_bind.
  destruct (m s) as [[a| | |] s1] eqn:E; try discriminate.
  intros H. eapply Hf; [eapply Hm, E|exact H].
Qed.

Lemma ensures_any {A} (m : M A) : ensures (fun _ => True) m.
Proof. intros s a s' _. exact I. Qed.

Lemma ensures_then {A B} (Q : B -> Prop) (m : M A) (f : A -> M B) :
  (forall a, ensures Q (f a)) -> ensures Q (m ≫= f).
Proof.
  intros Hf. apply (ensures_bind (fun _ => True)); [apply ensures_any|auto].
Qed.

Lemma ensures_foldM {A B} (Q : A -> Prop) (f : A -> B -> M A) l a :
  Q a -> (forall a b, Q a -> b ∈ l -> ensures Q (f a b)) -> ensures Q (foldM f a l).
Proof.
  revert a. induction l as [|b l IH]; intros a Ha Hf; simpl.
  - apply ensures_ret, Ha.
  - apply (ensures_bind Q).
    + apply Hf; [exact Ha|left].
    + intros a' Ha'. apply IH; [exact Ha'|].
      intros a0 b0 H0 Hb0. apply Hf; [exact H0|right; exact Hb0].
Qed.

Lemma returns_ret {A} (a : A) : returns (mret a).
Proof. intros s. eexists _, _. reflexivity. Qed.

Lemma returns_lift {A} (o : Outcome A) : (exists a, o = Returns a) -> returns (lift o).
Proof. intros [a ->] s. eexists _, _. reflexivity. Qed.

Lemma returns_bind {A B} (m : M A) (f : A -> M B) :
  returns m -> (forall a, returns (f a)) -> returns (m ≫= f).
Proof.
  intros Hm Hf s. unfold mbind, M_bind.
  destruct (Hm s) as (a & s1 & ->). apply Hf.
Qed.

Lemma returns_foldM {A B} (f : A -> B -> M A) l a :
  (forall a b, b ∈ l -> returns (f a b)) -> returns (foldM f a l).
Proof.
  revert a. induction l as [|b l IH]; intros a Hf; simpl.
  - apply returns_ret.
  - apply returns_bind; [apply Hf; left|].
    intros a'. apply IH. intros a0 b0 Hb0. apply Hf. right. exact Hb0.
Qed.

Ltac monad_step lemma_ret lemma_lift lemma_bind :=
  match goal with
  | |- _ (mret _) => apply lemma_ret
  | |- _ (lift _) => apply lemma_lift
  | |- _ (mbind _ _) => apply lemma_bind; [|intros ?]
  | |- _ (if ?b then _ else _) => destruct b
  | |- _ (match ?x with _ => _ end) => destruct x
  end.

(** ** The strategies keep what [callSegment] keeps *)

Section Preserves.
Variable g : Graph.
Variable oracle : nat -> World.
Variable P : Sys -> Prop.
Hypothesis call_keeps : forall o d m, preserves P (callSegment g oracle o d m).

Lemma shortest_preserves from to : preserves P (shortest g from to).
Proof. unfold shortest. destruct (localShortestPath _ _ _ _); intros s Hs; exact Hs. Qed.

Lemma hybrid_dropoff_preserves route trip from to requestTime fromIndex acc stop_i :
  preserves P (hybrid_dropoff g oracle route trip from to requestTime fromIndex acc stop_i).
Proof.
  unfold hybrid_dropoff. destruct stop_i as [i dropOffStop].
  repeat first [ apply shortest_preserves | apply call_keeps
               | monad_step (@preserves_ret) (@preserves_lift) (@preserves_bind) ].
Qed.

Lemma busToLocalRoute_preserves route from to requestTime :
  preserves P (busToLocalRoute g oracle route from to requestTime).
Proof.
  unfold busToLocalRoute. apply preserves_bind; [|intros; apply preserves_ret].
  apply preserves_foldM. intros acc trip. unfold hybrid_trip.
  destruct (_ =? _); [apply preserves_ret|].
  apply preserves_foldM. intros. apply hybrid_dropoff_preserves.
Qed.

Lemma localOnlyRoute_preserves from to : preserves P (localOnlyRoute g oracle from to).
Proof.
  unfold localOnlyRoute.
  repeat first [ apply shortest_preserves | apply call_keeps
               | monad_step (@preserves_ret) (@preserves_lift) (@preserves_bind) ].
Qed.

Lemma enumerate_preserves from to requestTime :
  preserves P (enumerate g oracle from to requestTime).
Proof.
  unfold enumerate. apply preserves_bind.
  - apply preserves_foldM. intros options route.
    apply preserves_bind; [apply preserves_lift|]. intros d.
    apply preserves_bind; [apply busToLocalRoute_preserves|]. intros h.
    apply preserves_ret.
  - intros options. apply preserves_bind; [apply preserves_lift|]. intros ts.
    apply preserves_bind; [apply localOnlyRoute_preserves|]. intros l.
    apply preserves_ret.
Qed.

Lemma planRoute_preserves from to requestTime currentRoute :
  preserves P (planRoute g oracle from to requestTime currentRoute).
Proof.
  unfold planRoute.
  destruct (_ || _); [apply preserves_ret|].
  destruct (String.eqb from to); [apply preserves_ret|].
  apply preserves_bind; [apply enumerate_preserves|]. intros. apply preserves_ret.
Qed.
End Preserves.

(** ** Every option leads from the origin to the destination *)

Lemma path_legs_connects g modes es p a :
  follows g modes (a :: p) es ->
  connects a (path_legs es (a :: p)) (default a (last (a :: p))).
Proof.
  revert a p. induction es as [|e es IH]; intros a p Hw.
  - destruct p; simpl in Hw; [|contradiction]. reflexivity.
  - destruct p as [|b p]; simpl in Hw; [contradiction|].
    destruct Hw as (_ & _ & _ & Hw).
    cbn [path_legs connects leg_from leg_to]. split; [reflexivity|].
    change (last (a :: b :: p)) with (last (b :: p)).
    assert (Hl : default a (last (b :: p)) = default b (last (b :: p))).
    { destruct (last (b :: p)) eqn:E; [reflexivity|].
      apply last_None in E. discriminate. }
    rewrite Hl. apply IH, Hw.
Qed.

Section Connects.
Variable g : Graph.
Variable oracle : nat -> World.
Variables from to requestTime : string.
Hypothesis nonneg : nonneg_times g defaultModes.
Hypothesis named : hasNode g "" = false.

Lemma hybrid_dropoff_connects route trip fromIndex acc stop_i :
  (forall o, fst acc = Some o -> connects from (legs o) to) ->
  ensures (fun acc' => forall o, fst acc' = Some o -> connects from (legs o) to)
    (hybrid_dropoff g oracle route trip from to requestTime fromIndex acc stop_i).
Proof.
  intros Hacc. unfold hybrid_dropoff. destruct stop_i as [i dropOffStop].
  repeat first [ apply ensures_ret; first [exact Hacc | simpl; intros ? [= <-]; simpl; auto]
               | apply ensures_then; intros ?
               | match goal with
                 | |- ensures _ (if ?b then _ else _) => destruct b
                 | |- ensures _ (match ?x with _ => _ end) => destruct x
                 end ].
Qed.

Lemma busToLocalRoute_connects route :
  ensures (fun r => forall o, r = Some o -> connects from (legs o) to)
    (busToLocalRoute g oracle route from to requestTime).
Proof.
  unfold busToLocalRoute.
  apply (ensures_bind (fun acc => forall o, fst acc = Some o -> connects from (legs o) to)).
  - apply ensures_foldM; [discriminate|].
    intros acc trip Hacc _. unfold hybrid_trip.
    destruct (_ =? _); [apply ensures_ret, Hacc|].
    apply ensures_foldM; [exact Hacc|].
    intros acc' stop_i Hacc' _. apply hybrid_dropoff_connects, Hacc'.
  - intros acc Hacc. apply ensures_ret. exact Hacc.
Qed.

Lemma localOnlyRoute_connects :
  ensures (fun r => forall o, r = Some o -> connects from (legs o) to)
    (localOnlyRoute g oracle from to).
Proof.
  unfold localOnlyRoute, shortest.
  destruct (localShortestPath g from to defaultModes) as [r|] eqn:Hr.
  2:{ intros s a s' H. discriminate. }
  apply (ensures_bind (fun x => x = r)); [intros s a s' [= <- _]; reflexivity|].
  intros ? ->. destruct (found r) eqn:Hf.
  - apply ensures_ret. intros o [= <-]. cbn [legs].
    destruct (localShortestPath_follows g from to defaultModes r nonneg named Hr Hf)
      as (Hh & Hl & Hw & _).
    destruct (path r) as [|a p]; [discriminate|]. injection Hh as ->.
    pose proof (path_legs_connects _ _ _ _ _ Hw) as Hc.
    rewrite Hl in Hc. exact Hc.
  - apply ensures_then. intros dm. destruct (ok dm).
    + apply ensures_ret. intros o [= <-]. simpl. auto.
    + apply ensures_ret. discriminate.
Qed.

Lemma push_connects options o :
  Forall (fun o => connects from (legs o) to) options ->
  (forall x, o = Some x -> connects from (legs x) to) ->
  Forall (fun o => connects from (legs o) to) (push options o).
Proof.
  intros Ho Hx. destruct o as [x|]; simpl; [|exact Ho].
  apply Forall_app. split; [exact Ho|]. constructor; [auto|constructor].
Qed.

Lemma enumerate_connects :
  ensures (Forall (fun o => connects from (legs o) to))
    (enumerate g oracle from to requestTime).
Proof.
  unfold enumerate.
  apply (ensures_bind (Forall (fun o => connects from (legs o) to))).
  - apply ensures_foldM; [constructor|].
    intros options route Ho _.
    apply (ensures_bind (fun r => forall o, r = Some o -> connects from (legs o) to)).
    { apply ensures_lift. intros r Hr o ->.
      destruct (directBusRoute_shape _ _ _ _ _ Hr) as (leg & ? & ? & -> & _ & Hf & Ht & _).
      simpl. auto. }
    intros d Hd.
    apply (ensures_bind (fun r => forall o, r = Some o -> connects from (legs o) to));
      [apply busToLocalRoute_connects|].
    intros h Hh. apply ensures_ret. apply push_connects; [|exact Hh].
    apply push_connects; [exact Ho|exact Hd].
  - intros options Ho.
    apply (ensures_bind (Forall (fun o => connects from (legs o) to))).
    { apply ensures_lift. intros xs Hxs. apply Forall_forall. intros x Hx.
      destruct (findTransferRoutes_elem _ _ _ _ _ _ Hxs Hx) as (r1 & r2 & t & _ & _ & _ & _ & Hc).
      destruct (createTransferRoute_shape _ _ _ _ _ _ _ _ Hc)
        as (l1 & l2 & ? & ? & ? & ? & -> & _ & Hf1 & Ht1 & _ & Hf2 & Ht2 & _).
      simpl. rewrite Ht1. auto. }
    intros ts Hts.
    apply (ensures_bind (fun r => forall o, r = Some o -> connects from (legs o) to));
      [apply localOnlyRoute_connects|].
    intros l Hl. apply ensures_ret. apply push_connects; [|exact Hl].
    apply Forall_app. auto.
Qed.
End Connects.

(** ** The ranking only relabels *)

Lemma lookup_alter_cases {A} (f : A -> A) i j (l : list A) x :
  alter f i l !! j = Some x -> exists o, l !! j = Some o /\ (x = o \/ x = f o).
Proof.
  destruct (decide (i = j)) as [->|Hne].
  - rewrite list_lookup_alter_eq. destruct (l !! j) as [o|]; simpl; [|discriminate].
    intros [= <-]. eauto.
  - rewrite list_lookup_alter_ne by exact Hne. eauto.
Qed.

Lemma compareRoutes_relabels options r :
  r ∈ compareRoutes options ->
  exists o c l, o ∈ options /\ (r = o \/ r = mark c l o).
Proof.
  unfold compareRoutes. destruct options as [|o0 os]; [intros H; inversion H|].
  pose proof (deduplicateOptions_sublist (o0 :: os)) as Hsub.
  set (unique := deduplicateOptions (o0 :: os)) in *.
  destruct (unique !! argmin totalTimeMin unique) as [f|]; [|intros H; inversion H].
  destruct (unique !! argmin localTimeMin unique) as [l|]; [|intros H; inversion H].
  set (store1 := alter (mark fastest "Fastest Route") (argmin totalTimeMin unique) unique).
  assert (H1 : forall i x, store1 !! i = Some x ->
            exists o c l, o ∈ o0 :: os /\ (x = o \/ x = mark c l o)).
  { intros i x Hx. apply lookup_alter_cases in Hx as (o & Ho & Hx).
    exists o, fastest, "Fastest Route". split; [|exact Hx].
    eapply elem_of_sublist; [|exact Hsub]. eapply list_elem_of_lookup_2, Ho. }
  assert (H2 : forall i x,
            alter (mark least_local "Least Local Transport")
                  (argmin localTimeMin unique) store1 !! i = Some x ->
            exists o c l, o ∈ o0 :: os /\ (x = o \/ x = mark c l o)).
  { intros i x Hx. apply lookup_alter_cases in Hx as (y & Hy & Hx).
    destruct (H1 i y Hy) as (o & c & lb & Ho & Hyo).
    destruct Hx as [-> | ->]; [eauto|].
    exists o, least_local, "Least Local Transport". split; [exact Ho|].
    right. destruct Hyo as [E|E]; rewrite E; reflexivity. }
  destruct (negb _); intros Hr;
    apply list_elem_of_omap in Hr as (i & _ & Hi); eauto.
Qed.

(** X23.  [compareRoutes] only relabels: every entry it returns is an
    option of the working set with the same legs, times, costs and type; only
    [label] and [category] may differ. *)
Theorem compareRoutes_only_relabels options r :
  r ∈ compareRoutes options ->
  exists o, o ∈ options /\
    legs r = legs o /\ totalTimeMin r = totalTimeMin o /\
    opt_totalCost r = opt_totalCost o /\ localTimeMin r = localTimeMin o /\
    localDistanceMeters r = localDistanceMeters o /\
    option_type r = option_type o /\ transfers r = transfers o /\
    usesDistanceMatrix r = usesDistanceMatrix o.
Proof.
  intros Hr. destruct (compareRoutes_relabels options r Hr) as (o & c & l & Ho & Hro).
  exists o. split; [exact Ho|]. destruct Hro as [->| ->]; split_and!; reflexivity.
Qed.

(** ** On a well-formed data set the planner returns *)

Section Returns.
Variable g : Graph.
Variable oracle : nat -> World.
Variables from to requestTime : string.
Hypothesis nonneg : nonneg_times g defaultModes.
Hypothesis parsed : is_Some (parseTime requestTime).

Lemma shortest_returns a b : returns (shortest g a b).
Proof.
  unfold shortest.
  destruct (localShortestPath_total g a b defaultModes nonneg) as [r ->].
  apply returns_ret.
Qed.

Lemma callSegment_returns o d m : returns (callSegment g oracle o d m).
Proof.
  intros s. destruct (callSegment_effect g oracle o d m s) as (r & s' & H & _). eauto.
Qed.

Lemma hybrid_dropoff_returns route trip fromIndex acc stop_i :
  is_Some (parseTime (departure_time trip)) ->
  returns (hybrid_dropoff g oracle route trip from to requestTime fromIndex acc stop_i).
Proof.
  intros [t Ht]. destruct parsed as [rq Hrq].
  unfold hybrid_dropoff, parseTime_, addMinutes_, addMinutes.
  rewrite Ht, Hrq. destruct stop_i as [i dropOffStop].
  repeat first [ apply shortest_returns | apply callSegment_returns | apply returns_ret
               | apply returns_lift; eexists; reflexivity
               | apply returns_bind; [|intros ?]
               | match goal with
                 | |- returns (if ?b then _ else _) => destruct b
                 | |- returns (match ?x with _ => _ end) => destruct x
                 end ].
Qed.

Lemma busToLocalRoute_returns route :
  (forall trip, trip ∈ trips route -> is_Some (parseTime (departure_time trip))) ->
  returns (busToLocalRoute g oracle route from to requestTime).
Proof.
  intros Hts. unfold busToLocalRoute.
  apply returns_bind; [|intros; apply returns_ret].
  apply returns_foldM. intros acc trip Htrip. unfold hybrid_trip.
  destruct (_ =? _); [apply returns_ret|].
  apply returns_foldM. intros. apply hybrid_dropoff_returns, Hts, Htrip.
Qed.

Lemma localOnlyRoute_returns : returns (localOnlyRoute g oracle from to).
Proof.
  unfold localOnlyRoute.
  repeat first [ apply shortest_returns | apply callSegment_returns | apply returns_ret
               | apply returns_bind; [|intros ?]
               | match goal with
                 | |- returns (if ?b then _ else _) => destruct b
                 end ].
Qed.

Lemma enumerate_returns :
  timetabled g -> returns (enumerate g oracle from to requestTime).
Proof.
  intros Hg. unfold enumerate. apply returns_bind.
  - apply returns_foldM. intros options route Hroute.
    apply returns_bind.
    { apply returns_lift. apply directBusRoute_returns; [exact parsed|].
      intros trip Ht. exact (Hg _ _ Hroute Ht). }
    intros d. apply returns_bind; [|intros; apply returns_ret].
    apply busToLocalRoute_returns. intros trip Ht. exact (Hg _ _ Hroute Ht).
  - intros options. apply returns_bind.
    { apply returns_lift. apply findTransferRoutes_returns; assumption. }
    intros ts. apply returns_bind; [apply localOnlyRoute_returns|].
    intros. apply returns_ret.
Qed.

Lemma planRoute_returns currentRoute :
  timetabled g -> returns (planRoute g oracle from to requestTime currentRoute).
Proof.
  intros Hg. unfold planRoute.
  destruct (_ || _); [apply returns_ret|].
  destruct (String.eqb from to); [apply returns_ret|].
  apply returns_bind; [apply enumerate_returns, Hg|]. intros. apply returns_ret.
Qed.
End Returns.

(** ** The hybrid strategy *)


Section Hybrid.
Variable g : Graph.
Variable oracle : nat -> World.
Variable route : Route.
Variables from to requestTime : string.


End Hybrid.


(** ** The planner as a whole *)

(** X26.  Every option [planRoute] returns is an itinerary from the
    origin to the destination: its first leg starts at [from], each leg starts
    where the one before ends, and its last leg ends at [to]. *)
Theorem planRoute_options_connect g oracle from to requestTime currentRoute s resp s' :
  nonneg_times g defaultModes -> hasNode g "" = false ->
  planRoute g oracle from to requestTime currentRoute s = (Returns resp, s') ->
  Forall (fun o => connects from (legs o) to) (options resp).
Proof.
  intros Hn He. unfold planRoute.
  destruct (_ || _); [intros [= <- _]; constructor|].
  destruct (String.eqb from to); [intros [= <- _]; constructor|].
  unfold mbind, M_bind.
  destruct (enumerate g oracle from to requestTime s) as [[opts| | |] s1] eqn:Hen;
    try discriminate.
  intros [= <- _]. apply Forall_forall. intros r Hr. cbn [options] in Hr.
  destruct (compareRoutes_relabels opts r Hr) as (o & c & l & Ho & Hro).
  pose proof (enumerate_connects g oracle from to requestTime Hn He s opts s1 Hen) as Hall.
  rewrite Forall_forall in Hall. specialize (Hall o Ho).
  destruct Hro as [->| ->]; exact Hall.
Qed.

(** X27.  With no API key configured, [planRoute] sends no request and
    leaves the client as it was, whatever the graph and the query. *)
Theorem planRoute_unconfigured_untouched g oracle from to requestTime currentRoute s :
  apiKey (client s) = "" ->
  client (snd (planRoute g oracle from to requestTime currentRoute s)) = client s /\
  sent (snd (planRoute g oracle from to requestTime currentRoute s)) = sent s.
Proof.
  intros Hk.
  apply (planRoute_preserves g oracle (fun s' => client s' = client s /\ sent s' = sent s));
    [|auto].
  intros o d m s1 [Hc Hs].
  rewrite callSegment_unconfigured by (rewrite Hc; exact Hk). simpl. auto.
Qed.

(** ** The endpoint *)

(** On a string the planner on query values is the planner. *)
Lemma untyped_planRoute_string g oracle from to requestTime currentRoute currentRoute' s :
  untyped_planRoute g oracle from to (QString requestTime) currentRoute s =
    match planRoute g oracle from to requestTime currentRoute' s with
    | (Returns resp, s') =>
        (Returns {| ur_from := resp_from resp; ur_to := resp_to resp;
                    ur_requestTime := QString (resp_requestTime resp);
                    ur_options := options resp |}, s')
    | (Throws message, s') => (Throws message, s')
    | (Diverges, s') => (Diverges, s')
    | (Unmodelled, s') => (Unmodelled, s')
    end.
Proof.
  unfold untyped_planRoute, planRoute.
  unfold mbind at 1. unfold M_bind at 1. cbn [toString lift].
  destruct (_ || _); [reflexivity|].
  destruct (String.eqb from to); [reflexivity|].
  change (untyped_enumerate g oracle from to (QString requestTime))
    with (enumerate g oracle from to requestTime).
  unfold mbind, M_bind.
  destruct (enumerate g oracle from to requestTime s) as [[opts| | |] s1]; reflexivity.
Qed.

(** X29.  On a data set with non-negative local times and readable
    departure times, [GET /api/routes] answers every query whose [time] is a
    string or absent: with 400 when the validation refuses it, leaving the
    state untouched; with 200, the query echoed and at most three options,
    when the validation lets it through; and with 500 only when the
    validation itself throws, on a [from] or [to] that is no string.  A
    [time] that is no string can get past the validation and make the
    planner throw ([routes_endpoint_array_time]). *)
Theorem routes_endpoint_answers g oracle from to time currentRoute s :
  nonneg_times g defaultModes -> timetabled g ->
  (forall v, time = Some v -> exists timeStr, v = QString timeStr) ->
  exists resp s',
    routes_endpoint g oracle from to time currentRoute s = (Returns resp, s') /\
    match resp with
    | Json200 body =>
        validateRouteQuery g from to time = Returns Next /\
        Some (QString (ur_from body)) = from /\ Some (QString (ur_to body)) = to /\
        Some (ur_requestTime body) = time /\
        (length (ur_options body) <= 3)%nat
    | Error400 error message =>
        validateRouteQuery g from to time = Returns (Status400 error message) /\ s' = s
    | Error500 message =>
        validateRouteQuery g from to time = Throws message /\ s' = s /\
        ((exists v, from = Some v /\ forall x, v <> QString x) \/
         (exists v, to = Some v /\ forall x, v <> QString x))
    end.
Proof.
  intros Hn Hg Htime. unfold routes_endpoint.
  destruct (validateRouteQuery g from to time) as [[|error message]|message| |] eqn:Hv.
  - destruct (validateRouteQuery_parses g from to time Hv)
      as (f & t & tv & ts & -> & -> & -> & Hts & Hp).
    destruct (Htime tv eq_refl) as [timeStr ->]. simpl in Hts. injection Hts as <-.
    unfold routesController_planRoute, try_catch, mbind, M_bind.
    rewrite (untyped_planRoute_string g oracle f t timeStr currentRoute None s).
    destruct (planRoute_returns g oracle f t timeStr Hn Hp None Hg s) as (body & s' & Hb).
    rewrite Hb. eexists _, _. split; [reflexivity|]. cbn [ur_options ur_from ur_to
      ur_requestTime].
    assert (Hresp : resp_from body = f /\ resp_to body = t /\ resp_requestTime body = timeStr).
    { revert Hb. unfold planRoute.
      destruct (_ || _); [intros [= <- _]; auto|].
      destruct (String.eqb f t); [intros [= <- _]; auto|].
      unfold mbind, M_bind.
      destruct (enumerate g oracle f t timeStr s) as [[opts| | |] s1]; try discriminate.
      intros [= <- _]. auto. }
    destruct Hresp as (-> & -> & ->).
    split_and!; try reflexivity.
    eapply planRoute_at_most_three, Hb.
  - eexists _, _. split; [reflexivity|]. split; reflexivity.
  - eexists _, _. split; [reflexivity|]. split; [reflexivity|]. split; [reflexivity|].
    destruct (validateRouteQuery_throws g from to time message Hv)
      as [H|[H|(v & -> & Hv')]]; auto.
    destruct (Htime v eq_refl) as [timeStr ->]. exfalso. exact (Hv' timeStr eq_refl).
  - destruct (validateRouteQuery_ends g from to time) as [[v H]|[v H]]; congruence.
  - destruct (validateRouteQuery_ends g from to time) as [[v H]|[v H]]; congruence.
Qed.

(** ** Instances of the further properties *)

Lemma timetabled_Forall g :
  Forall (fun route => Forall (fun trip => is_Some (parseTime (departure_time trip)))
                         (trips route)) (getAllRoutes g) ->
  timetabled g.
Proof.
  intros H route trip Hr Ht. rewrite Forall_forall in H.
  specialize (H route Hr). rewrite Forall_forall in H. exact (H trip Ht).
Qed.

Lemma minutesToTime_round_trip_witness :
  minutesOf (minutesToTime 605) = Some 605 /\
  regex_test timeRegex (minutesToTime 605) = true.
Proof. apply (minutesToTime_round_trip 605). lia. Defined.

Lemma addMinutes_wraps_witness :
  exists r, addMinutes "23:50" 20 = Some r /\ minutesOf r = Some ((1430 + 20) mod 1440).
Proof. apply (addMinutes_wraps "23:50" 1430 20); [reflexivity|lia]. Defined.


Lemma validateRouteQuery_admits_witness :
  exists f t tv ts h m,
    Some (QString "A") = Some (QString f) /\ Some (QString "C") = Some (QString t) /\
    Some (QString "8:30") = Some tv /\
    hasNode local_graph f = true /\ hasNode local_graph t = true /\
    toString tv = Returns ts /\
    parseTime ts = Some {| hours := h; minutes := m |} /\
    0 <= h <= 23 /\ 0 <= m <= 59.
Proof.
  apply (validateRouteQuery_admits local_graph (Some (QString "A")) (Some (QString "C"))
           (Some (QString "8:30"))).
  vm_compute. reflexivity.
Defined.

(** A time given as [time[]=07:55] arrives as a one-element array: the
    validation lets it through, since the regular expression tests its string
    form, and an object with a field [toString] makes the validation throw. *)
Lemma validateRouteQuery_array_time :
  validateRouteQuery local_graph (Some (QString "A")) (Some (QString "C"))
    (Some (QArray [QString "07:55"])) = Returns Next /\
  validateRouteQuery local_graph (Some (QString "A")) (Some (QString "C"))
    (Some (QArray [QString "07:55"; QString "08:00"]))
    = Returns (Status400 "Invalid time format"
                 (Some "Time '07:55,08:00' is not in HH:MM format")) /\
  validateRouteQuery local_graph (Some (QObject [("toString", QString "x")]))
    (Some (QString "C")) (Some (QString "07:55"))
    = Throws "Cannot convert object to primitive value".
Proof. split_and!; vm_compute; reflexivity. Qed.

Lemma loadData_adjacency_witness :
  getNeighbors local_graph "B" = flat_map (contribution "B") (gd_edges local_data) /\
  forall e, e ∈ getNeighbors local_graph "B" <->
    exists edge, edge ∈ gd_edges local_data /\
      ((edge_from edge = "B" /\ e = forward_info edge) \/
       (one_way edge = false /\ edge_to edge = "B" /\ e = backward_info edge)).
Proof. apply (loadData_adjacency local_data local_graph "B"). reflexivity. Defined.

Lemma loadData_unknown_node_witness :
  getNode local_graph "Z" = None /\ getNeighbors local_graph "Z" = [] /\
  forall to mode, getEdge local_graph "Z" to mode = None.
Proof.
  destruct (loadData_unknown_node local_data local_graph "Z") as [H1 H2];
    [reflexivity|reflexivity|].
  split; [exact H1|]. apply H2; [reflexivity|].
  apply (bool_decide_unpack _). vm_compute. reflexivity.
Defined.

Lemma loadData_getNode_witness :
  getNode local_graph "A" =
    last (List.filter (fun node => String.eqb (node_id node) "A") (gd_nodes local_data)).
Proof. apply (loadData_getNode local_data local_graph "A"). reflexivity. Defined.

Lemma loadData_distinct_ids_witness :
  getAllNodes local_graph = gd_nodes local_data /\
  getAllRoutes local_graph = gd_routes local_data.
Proof.
  apply (loadData_distinct_ids local_data local_graph).
  - reflexivity.
  - apply NoDup_ListNoDup. repeat constructor; simpl; intuition discriminate.
  - constructor.
Defined.

Lemma loadData_getEdge_witness :
  (exists e, getEdge local_graph "A" "B" (Some local) = Some e /\
             e ∈ getNeighbors local_graph "A" /\ ei_to e = "B" /\ ei_mode e = local) /\
  (one_way (sample_edge "A" "B" local 10 30) = false ->
   exists e, getEdge local_graph "B" "A" (Some local) = Some e /\
             e ∈ getNeighbors local_graph "B" /\ ei_to e = "A" /\ ei_mode e = local).
Proof.
  apply (loadData_getEdge local_data local_graph (sample_edge "A" "B" local 10 30)).
  - reflexivity.
  - left.
Defined.

Lemma localShortestPath_path_witness :
  head (path sample_path) = Some "A" /\ last (path sample_path) = Some "C" /\
  follows local_graph defaultModes (path sample_path) (pr_edges sample_path) /\
  length (path sample_path) = S (length (pr_edges sample_path)) /\
  totalTime sample_path = Num (total ei_time_min (pr_edges sample_path)) /\
  totalCost sample_path = total ei_cost (pr_edges sample_path).
Proof.
  apply (localShortestPath_path local_graph "A" "C" defaultModes sample_path).
  - apply (loadData_nonneg_times local_data); [reflexivity|].
    repeat constructor; simpl; lia.
  - reflexivity.
  - vm_compute. reflexivity.
  - reflexivity.
Defined.

Lemma localShortestPath_found_iff_witness :
  exists r, localShortestPath local_graph "A" "D" defaultModes = Some r /\
            (found r = true <-> exists w, path_time local_graph defaultModes "A" "D" w) /\
            (found r = false -> r = notFound).
Proof.
  apply (localShortestPath_found_iff local_graph "A" "D" defaultModes).
  apply (loadData_nonneg_times local_data); [reflexivity|].
  repeat constructor; simpl; lia.
Defined.

Lemma quota_with_calls_in_flight_witness :
  monthlyCount (stats (sys (run_events local_graph overlapping
                              (idle (sample_sys "key" ∅ 699 49)))))
    + Z.of_nat (length (in_flight (run_events local_graph overlapping
                                     (idle (sample_sys "key" ∅ 699 49)))))
    <= MONTHLY_LIMIT + Z.of_nat 2 - 1 /\
  dailyCount (stats (sys (run_events local_graph overlapping
                            (idle (sample_sys "key" ∅ 699 49)))))
    + Z.of_nat (length (in_flight (run_events local_graph overlapping
                                     (idle (sample_sys "key" ∅ 699 49)))))
    <= DAILY_LIMIT + Z.of_nat 2 - 1.
Proof.
  apply (quota_with_calls_in_flight local_graph overlapping (sample_sys "key" ∅ 699 49) 2).
  - split; vm_compute; discriminate.
  - lia.
  - vm_compute. lia.
Defined.

(** Two calls that overlap both pass the quota check at 699 and 49, and
    leave the counters at 701 and 51; made one after the other, the second
    is refused. *)
Lemma overlapping_calls_exceed_quota :
  stats (sys (run_events local_graph overlapping (idle (sample_sys "key" ∅ 699 49))))
    = {| monthlyCount := 701; dailyCount := 51; lastReset := "2024-03-10";
         cacheHits := 0; cacheMisses := 2 |} /\
  stats (sys (run_events local_graph (one_by_one [call_AB; call_AC])
                (idle (sample_sys "key" ∅ 699 49))))
    = {| monthlyCount := 700; dailyCount := 50; lastReset := "2024-03-10";
         cacheHits := 0; cacheMisses := 1 |}.
Proof. split; vm_compute; reflexivity. Qed.

Lemma fetched_then_cached_witness :
  exists s2,
    getLocalSegment local_graph (next_day (Rejected "timeout")) "A" "B" driving
      (snd (getLocalSegment local_graph (same_day (Resolved (Some ok_body))) "A" "B" driving
              (sample_sys "key" ∅ 3 3))) =
      (Returns {| ok := true; distanceMeters := distanceMeters ok_result;
                  durationSeconds := durationSeconds ok_result; raw := None;
                  errorMessage := None; fromCache := Some true |}, s2) /\
    sent s2 = sent (snd (getLocalSegment local_graph (same_day (Resolved (Some ok_body)))
                           "A" "B" driving (sample_sys "key" ∅ 3 3))).
Proof.
  apply (fetched_then_cached local_graph (same_day (Resolved (Some ok_body)))
           (next_day (Rejected "timeout")) "A" "B" driving (sample_sys "key" ∅ 3 3)
           ok_result).
  - vm_compute. reflexivity.
  - reflexivity.
  - reflexivity.
  - vm_compute. reflexivity.
Defined.

Lemma rollover_once_a_day_witness :
  lastReset (stats (snd (getLocalSegment local_graph (next_day (Rejected "timeout"))
                           "A" "B" driving (sample_sys "key" ∅ 3 3))))
    = today (next_day (Rejected "timeout")) /\
  rolled (next_day (Rejected "timeout"))
         (snd (getLocalSegment local_graph (next_day (Rejected "timeout"))
                 "A" "B" driving (sample_sys "key" ∅ 3 3)))
    = stats (snd (getLocalSegment local_graph (next_day (Rejected "timeout"))
                    "A" "B" driving (sample_sys "key" ∅ 3 3))).
Proof.
  apply (rollover_once_a_day local_graph (next_day (Rejected "timeout")) "A" "B" driving
           (sample_sys "key" ∅ 3 3) (network_failure "timeout")).
  - discriminate.
  - vm_compute. reflexivity.
Defined.

Lemma cache_never_evicts_witness :
  apiKey (client (snd (getLocalSegment local_graph (same_day (Resolved (Some ok_body)))
                         "A" "C" driving (sample_sys "key" warm_cache 3 3))))
    = apiKey (client (sample_sys "key" warm_cache 3 3)) /\
  (is_Some (cache (client (sample_sys "key" warm_cache 3 3)) !! "A|B|driving") ->
   is_Some (cache (client (snd (getLocalSegment local_graph
                                  (same_day (Resolved (Some ok_body)))
                                  "A" "C" driving (sample_sys "key" warm_cache 3 3))))
              !! "A|B|driving")) /\
  ("A|B|driving" <> cacheKey_of "A" "C" driving ->
   cache (client (snd (getLocalSegment local_graph (same_day (Resolved (Some ok_body)))
                         "A" "C" driving (sample_sys "key" warm_cache 3 3))))
     !! "A|B|driving"
   = cache (client (sample_sys "key" warm_cache 3 3)) !! "A|B|driving").
Proof.
  apply (cache_never_evicts local_graph (same_day (Resolved (Some ok_body))) "A" "C" driving
           (sample_sys "key" warm_cache 3 3)
           {| ok := true; distanceMeters := Some 1500; durationSeconds := Some 360;
              raw := Some ok_body; errorMessage := None; fromCache := Some false |}).
  vm_compute. reflexivity.
Defined.

Lemma request_only_when_allowed_witness :
  configured (sample_sys "key" ∅ 3 3) /\
  fresh_entry (same_day (Rejected "timeout")) (client (sample_sys "key" ∅ 3 3))
    (cacheKey_of "A" "B" driving) = None /\
  monthlyCount (rolled (same_day (Rejected "timeout")) (sample_sys "key" ∅ 3 3))
    < MONTHLY_LIMIT /\
  dailyCount (rolled (same_day (Rejected "timeout")) (sample_sys "key" ∅ 3 3))
    < DAILY_LIMIT /\
  fromCache (network_failure "timeout") <> Some true /\
  exists req, the_request local_graph (sample_sys "key" ∅ 3 3) "A" "B" driving = Some req /\
              sent (logged sample_request (missed (sample_sys "key" ∅ 3 3)))
                = sent (sample_sys "key" ∅ 3 3) ++ [req].
Proof.
  apply (request_only_when_allowed local_graph (same_day (Rejected "timeout")) "A" "B"
           driving (sample_sys "key" ∅ 3 3)).
  - vm_compute. reflexivity.
  - discriminate.
Defined.

Lemma clearCache_forgets_witness :
  fromCache (network_failure "timeout") <> Some true /\
  forall k, k <> cacheKey_of "A" "B" driving ->
    cache (client (snd ((clearCache;; getLocalSegment local_graph
                                        (same_day (Rejected "timeout")) "A" "B" driving)
                          (sample_sys "key" warm_cache 5 5)))) !! k = None.
Proof.
  apply (clearCache_forgets local_graph (same_day (Rejected "timeout")) "A" "B" driving
           (sample_sys "key" warm_cache 5 5)).
  vm_compute. reflexivity.
Defined.

Lemma resetCounters_reopens_quota_witness :
  exists r s',
    (resetCounters;; getLocalSegment local_graph (same_day (Rejected "timeout"))
                       "A" "B" driving) (sample_sys "key" ∅ 700 50) = (Returns r, s') /\
    sent s' = sent (sample_sys "key" ∅ 700 50) ++ [sample_request].
Proof.
  apply (resetCounters_reopens_quota local_graph (same_day (Rejected "timeout")) "A" "B"
           driving (sample_sys "key" ∅ 700 50) sample_request).
  - discriminate.
  - vm_compute. reflexivity.
  - vm_compute. reflexivity.
Defined.

Lemma compareRoutes_fastest_first_witness :
  exists o rest,
    compareRoutes [transfer_option; scenario_option "bus1" "bus1_0800"]
      = mark fastest "Fastest Route" o :: rest /\
    o ∈ [transfer_option; scenario_option "bus1" "bus1_0800"] /\
    (forall x, x ∈ deduplicateOptions [transfer_option; scenario_option "bus1" "bus1_0800"] ->
       num_lt (totalTimeMin x) (totalTimeMin o) = false).
Proof.
  apply (compareRoutes_fastest_first [transfer_option; scenario_option "bus1" "bus1_0800"]).
  discriminate.
Defined.

Lemma compareRoutes_only_relabels_witness :
  exists o, o ∈ [transfer_option; scenario_option "bus1" "bus1_0800"] /\
    legs (scenario_option "bus1" "bus1_0800") = legs o /\
    totalTimeMin (scenario_option "bus1" "bus1_0800") = totalTimeMin o /\
    opt_totalCost (scenario_option "bus1" "bus1_0800") = opt_totalCost o /\
    localTimeMin (scenario_option "bus1" "bus1_0800") = localTimeMin o /\
    localDistanceMeters (scenario_option "bus1" "bus1_0800") = localDistanceMeters o /\
    option_type (scenario_option "bus1" "bus1_0800") = option_type o /\
    transfers (scenario_option "bus1" "bus1_0800") = transfers o /\
    usesDistanceMatrix (scenario_option "bus1" "bus1_0800") = usesDistanceMatrix o.
Proof.
  apply (compareRoutes_only_relabels [transfer_option; scenario_option "bus1" "bus1_0800"]).
  apply list_elem_of_In. vm_compute. left. reflexivity.
Defined.

Lemma createTransferRoute_window_witness :
  exists o1 o2 leg1 leg2 arr dep am dm dur,
    directBusRoute feeder_route "A" "B" "07:50" = Returns (Some o1) /\
    directBusRoute trunk_route "B" "C" arr = Returns (Some o2) /\
    legs o1 = [leg1] /\ legs o2 = [leg2] /\ legs transfer_option = [leg1; leg2] /\
    leg_mode leg1 = bus /\ leg_from leg1 = "A" /\ leg_to leg1 = "B" /\
    leg_mode leg2 = bus /\ leg_from leg2 = "B" /\ leg_to leg2 = "C" /\
    leg_arrival leg1 = Some arr /\ leg_departure leg2 = Some dep /\
    minutesOf arr = Some am /\ minutesOf dep = Some dm /\
    0 <= dm - am <= 15 /\
    leg_durationMin leg2 = Some dur /\
    totalTimeMin transfer_option =
      num_add (num_add (totalTimeMin o1) (Num (dm - am))) dur /\
    transfers transfer_option = 1 /\ option_type transfer_option = transfer.
Proof.
  apply (createTransferRoute_window local_graph feeder_route trunk_route "A" "C" "B" "07:50").
  vm_compute. reflexivity.
Defined.


Lemma planRoute_options_connect_witness :
  Forall (fun o => connects "A" (legs o) "C") (options hybrid_response).
Proof.
  apply (planRoute_options_connect hybrid_graph offline "A" "C" "07:50" None unconfigured
           hybrid_response (counted 1 unconfigured)).
  - apply (loadData_nonneg_times hybrid_data); [reflexivity|].
    repeat constructor; simpl; lia.
  - reflexivity.
  - vm_compute. reflexivity.
Defined.

Lemma planRoute_unconfigured_untouched_witness :
  client (snd (planRoute local_graph offline "A" "D" "08:00" None unconfigured))
    = client unconfigured /\
  sent (snd (planRoute local_graph offline "A" "D" "08:00" None unconfigured))
    = sent unconfigured.
Proof.
  apply (planRoute_unconfigured_untouched local_graph offline "A" "D" "08:00" None
           unconfigured).
  reflexivity.
Defined.

Lemma routes_endpoint_answers_witness :
  exists resp s',
    routes_endpoint scenario_graph offline (Some (QString "A")) (Some (QString "C"))
      (Some (QString "07:55")) None unconfigured = (Returns resp, s') /\
    match resp with
    | Json200 body =>
        validateRouteQuery scenario_graph (Some (QString "A")) (Some (QString "C"))
          (Some (QString "07:55")) = Returns Next /\
        Some (QString (ur_from body)) = Some (QString "A") /\
        Some (QString (ur_to body)) = Some (QString "C") /\
        Some (ur_requestTime body) = Some (QString "07:55") /\
        (length (ur_options body) <= 3)%nat
    | Error400 error message =>
        validateRouteQuery scenario_graph (Some (QString "A")) (Some (QString "C"))
          (Some (QString "07:55")) = Returns (Status400 error message) /\
        s' = unconfigured
    | Error500 message =>
        validateRouteQuery scenario_graph (Some (QString "A")) (Some (QString "C"))
          (Some (QString "07:55")) = Throws message /\
        s' = unconfigured /\
        ((exists v, Some (QString "A") = Some v /\ forall x, v <> QString x) \/
         (exists v, Some (QString "C") = Some v /\ forall x, v <> QString x))
    end.
Proof.
  apply (routes_endpoint_answers scenario_graph offline (Some (QString "A"))
           (Some (QString "C")) (Some (QString "07:55")) None unconfigured).
  - apply (loadData_nonneg_times scenario_data); [reflexivity|].
    repeat constructor; simpl; lia.
  - apply timetabled_Forall. repeat constructor. vm_compute. eauto.
  - intros v [= <-]. eexists. reflexivity.
Defined.

(** The same query with the time written [time[]=07:55]: the validation
    lets it through, the planner reaches [parseTime(requestTime)] at the
    trip of the route, and the controller answers 500.  Between two stops no
    trip joins, the planner never parses the time and answers 200. *)
Lemma routes_endpoint_array_time :
  routes_endpoint scenario_graph offline (Some (QString "A")) (Some (QString "C"))
    (Some (QArray [QString "07:55"])) None unconfigured
    = (Returns (Error500 "timeStr.split is not a function"), unconfigured) /\
  routes_endpoint scenario_graph offline (Some (QString "C")) (Some (QString "A"))
    (Some (QArray [QString "07:55"])) None unconfigured
    = (Returns (Json200 {| ur_from := "C"; ur_to := "A";
                           ur_requestTime := QArray [QString "07:55"];
                           ur_options := [] |}), counted 1 unconfigured).
Proof. split; vm_compute; reflexivity. Qed.
